(** * Streaming decoder and tool-calling loop of the chat client

    A shallow embedding of [streamChatCompletion] (the SSE streaming
    service) and of [sendStreamingMessageWithTools] (the chat slice thunk),
    with the properties of the tag-aware stream splitter, the tool-call
    delta accumulator, the streaming session driver, the orchestration loop
    and the base URL normalisation.

    JavaScript strings are modelled as lists of 8-bit code units
    ([list ascii]); [slice], [length], [+=] and the two regular expressions
    of the source only look at code units, so the model follows them
    position by position.

    Part V adds properties of the code around them: the rest of the chat
    slice and its thunks, the renderer-side plugin registry, the renderer
    logger, and the earlier version of the streaming service. *)

From Stdlib Require Import String Ascii DecimalString.
From Stdlib Require Import Bool Arith Lia ZArith List.
From Stdlib Require HexadecimalString.
Import ListNotations.

(* ##################################################################### *)
(** * Part I: the program *)
(* ##################################################################### *)

(* ===================================================================== *)
(** ** Strings *)
(* ===================================================================== *)

Module Str.

Definition str := list ascii.

(** String literal. *)
Definition lit (s : string) : str := list_ascii_of_string s.

(** JS truthiness of a string value: the empty string is falsy. *)
Definition nonempty (s : str) : bool :=
  match s with [] => false | _ :: _ => true end.

(** JS truthiness of an optional string field ([undefined] is falsy). *)
Definition truthy (o : option str) : bool :=
  match o with Some s => nonempty s | None => false end.

(** [x || d] on an optional string field. *)
Definition orElse (o : option str) (d : str) : str :=
  match o with
  | Some s => if nonempty s then s else d
  | None => d
  end.

(** [s.slice(0, i)] and [s.slice(i)] for [0 <= i]. *)
Definition slice_to (i : nat) (s : str) : str := firstn i s.
Definition slice_from (i : nat) (s : str) : str := skipn i s.

(** [s.slice(-k)]: the last [k] code units (all of [s] when shorter). *)
Definition slice_last (k : nat) (s : str) : str := skipn (length s - k) s.

(** [s.includes(c)] for a one-character needle. *)
Definition includes (c : ascii) (s : str) : bool := existsb (Ascii.eqb c) s.

(** Canonicalisation used by the [i] flag of a non-unicode regular
    expression, restricted to what a pattern of ASCII letters can see:
    an ASCII upper-case letter is folded onto its lower-case form, every
    other code unit only matches itself. *)
Definition to_lower (c : ascii) : ascii :=
  let n := nat_of_ascii c in
  if (65 <=? n) && (n <=? 90) then ascii_of_nat (n + 32) else c.

Definition ci_eqb (p c : ascii) : bool := Ascii.eqb (to_lower p) (to_lower c).

(** [p] is a prefix of [s] up to ASCII case. *)
Fixpoint ci_prefix (p s : str) : bool :=
  match p, s with
  | [], _ => true
  | _ :: _, [] => false
  | a :: p', c :: s' => ci_eqb a c && ci_prefix p' s'
  end.

(** Decimal rendering of a number inside a template literal. *)
Definition of_nat (n : nat) : str := lit (NilEmpty.string_of_uint (Nat.to_uint n)).

End Str.
Import Str.

(* ===================================================================== *)
(** ** The two marker expressions *)
(* ===================================================================== *)

Module Tag.

(** A regular expression anchored at the start of [s]: the length of the
    match, when there is one. *)
Definition matcher := str -> option nat.

(** [head(?:ing)?>] at the start of [s], for a literal [head]: the
    optional group is tried first, then skipped. *)
Definition tag_at (head : str) (s : str) : option nat :=
  if ci_prefix head s then
    let rest := skipn (length head) s in
    if ci_prefix (lit "ing>") rest then Some (length head + 4)
    else if ci_prefix (lit ">") rest then Some (length head + 1)
    else None
  else None.

(** [/<think(?:ing)?>/i] and [/<\/think(?:ing)?>/i]. *)
Definition open_at : matcher := tag_at (lit "<think").
Definition close_at : matcher := tag_at (lit "</think").

(** [s.match(re)] for a non-global expression: the leftmost position at
    which the expression matches, as [(index, length of match)]. *)
Fixpoint find (m : matcher) (s : str) : option (nat * nat) :=
  match m s with
  | Some n => Some (0, n)
  | None =>
      match s with
      | [] => None
      | _ :: s' =>
          match find m s' with
          | Some (i, n) => Some (S i, n)
          | None => None
          end
      end
  end.

Definition openMatch (s : str) := find open_at s.
Definition closeMatch (s : str) := find close_at s.

End Tag.
Import Tag.

(* ===================================================================== *)
(** ** Wire data and callbacks *)
(* ===================================================================== *)

(** [ToolCall] of message.types: [{ id, type, function: { name, arguments } }]. *)
Record ToolFunction := { name : str; arguments : str }.
Record ToolCall := { id : str; type : str; function : ToolFunction }.

(** One element of [delta.tool_calls]; every field but [index] is optional. *)
Record FunctionDelta := { delta_name : option str; delta_arguments : option str }.
Record ToolCallDelta := {
  index : Z;
  delta_id : option str;
  delta_type : option str;
  delta_function : option FunctionDelta
}.

(** [usage] of a frame, passed through to [onUsage] untouched. *)
Record MessageUsage := {
  prompt_tokens : nat;
  completion_tokens : nat;
  total_tokens : nat
}.

(** The fields of a parsed frame that the driver reads:
    [choices[0].delta.content], [.tool_calls], [.reasoning], [usage] and
    [choices[0].finish_reason]. [None] is an absent (or null) field. *)
Record Chunk := {
  content : option str;
  tool_calls : option (list ToolCallDelta);
  reasoning : option str;
  usage : option MessageUsage;
  finish_reason : option str
}.

(** The [data] of one SSE event: the sentinel, a payload that [JSON.parse]
    accepts, or one that it rejects. *)
Inductive SseData :=
| DONE
| Json (json : Chunk)
| Invalid (data : str).

(** One invocation of a callback of [StreamCallbacks]. *)
Inductive Call :=
| onChunk (content : str)
| onComplete
| onError (message : str)
| onToolCalls (toolCalls : list ToolCall)
| onReasoning (reasoning : str)
| onUsage (usage : MessageUsage).

(** Which of the optional callbacks the caller supplied. *)
Record StreamCallbacks := {
  hasOnToolCalls : bool;
  hasOnReasoning : bool;
  hasOnUsage : bool
}.

Definition allCallbacks : StreamCallbacks :=
  {| hasOnToolCalls := true; hasOnReasoning := true; hasOnUsage := true |}.

(** Text handed to [onChunk], and to [onReasoning], over a whole trace. *)
Fixpoint contentOf (t : list Call) : str :=
  match t with
  | [] => []
  | onChunk s :: t' => s ++ contentOf t'
  | _ :: t' => contentOf t'
  end.

Fixpoint reasoningOf (t : list Call) : str :=
  match t with
  | [] => []
  | onReasoning s :: t' => s ++ reasoningOf t'
  | _ :: t' => reasoningOf t'
  end.

Definition isComplete (c : Call) : bool :=
  match c with onComplete => true | _ => false end.
Definition isError (c : Call) : bool :=
  match c with onError _ => true | _ => false end.
Definition isToolCalls (c : Call) : bool :=
  match c with onToolCalls _ => true | _ => false end.
Definition isUsage (c : Call) : bool :=
  match c with onUsage _ => true | _ => false end.

Definition countComplete (t : list Call) : nat := length (filter isComplete t).
Definition countError (t : list Call) : nat := length (filter isError t).

(* ===================================================================== *)
(** ** Tool-call delta accumulator *)
(* ===================================================================== *)

Module Accumulator.

(** [Map<number, ToolCall>]: a JS [Map] iterates in insertion order, and
    [set] on a key that is present keeps the key's place. *)
Definition ToolCallMap := list (Z * ToolCall).

Fixpoint get (m : ToolCallMap) (k : Z) : option ToolCall :=
  match m with
  | [] => None
  | (k', v) :: m' => if Z.eqb k k' then Some v else get m' k
  end.

Fixpoint set (m : ToolCallMap) (k : Z) (v : ToolCall) : ToolCallMap :=
  match m with
  | [] => [(k, v)]
  | (k', v') :: m' =>
      if Z.eqb k k' then (k', v) :: m' else (k', v') :: set m' k v
  end.

Definition values (m : ToolCallMap) : list ToolCall := map snd m.
Definition keys (m : ToolCallMap) : list Z := map fst m.

Definition fnName (d : ToolCallDelta) : option str :=
  match delta_function d with Some f => delta_name f | None => None end.
Definition fnArguments (d : ToolCallDelta) : option str :=
  match delta_function d with Some f => delta_arguments f | None => None end.

(** The body of the [for (const toolCallDelta of toolCallDeltas)] loop. *)
Definition accumulate (m : ToolCallMap) (d : ToolCallDelta) : ToolCallMap :=
  match get m (index d) with
  | None =>
      set m (index d)
        {| id := orElse (delta_id d) [];
           type := orElse (delta_type d) (lit "function");
           function := {| name := orElse (fnName d) [];
                          arguments := orElse (fnArguments d) [] |} |}
  | Some existing =>
      let args1 :=
        if truthy (fnArguments d)
        then arguments (function existing) ++ orElse (fnArguments d) []
        else arguments (function existing) in
      let id1 :=
        if truthy (delta_id d) && negb (nonempty (id existing))
        then orElse (delta_id d) [] else id existing in
      let name1 :=
        if truthy (fnName d) && negb (nonempty (name (function existing)))
        then orElse (fnName d) [] else name (function existing) in
      set m (index d)
        {| id := id1; type := type existing;
           function := {| name := name1; arguments := args1 |} |}
  end.

Definition accumulateAll (m : ToolCallMap) (ds : list ToolCallDelta) : ToolCallMap :=
  fold_left accumulate ds m.

(** [Array.from(accumulatedToolCalls.values()).map(tc => ...)]. *)
Definition finalizeOne (tc : ToolCall) : ToolCall :=
  {| id := id tc; type := type tc;
     function := {| name := name (function tc);
                    arguments := if nonempty (arguments (function tc))
                                 then arguments (function tc) else lit "{}" |} |}.

Definition finalize (m : ToolCallMap) : list ToolCall := map finalizeOne (values m).

End Accumulator.

(* ===================================================================== *)
(** ** The streaming session: splitter, frame handler *)
(* ===================================================================== *)

Module Session.
Import Accumulator.

Definition FORMAT_DETECTION_THRESHOLD : nat := 3000.

(** The local variables of [streamChatCompletion] that outlive one frame
    (but [chunkCount], which is only counted), and the callbacks invoked so
    far, oldest first. *)
Record State := {
  accumulatedToolCalls : ToolCallMap;
  accumulatedContent : str;
  accumulatedReasoning : str;
  isInsideThinkBlock : bool;
  pendingBuffer : str;
  formatDetected : bool;
  calls : list Call
}.

Definition initial : State :=
  {| accumulatedToolCalls := [];
     accumulatedContent := [];
     accumulatedReasoning := [];
     isInsideThinkBlock := false;
     pendingBuffer := [];
     formatDetected := false;
     calls := [] |}.

Definition call (c : Call) (st : State) : State :=
  {| accumulatedToolCalls := accumulatedToolCalls st;
     accumulatedContent := accumulatedContent st;
     accumulatedReasoning := accumulatedReasoning st;
     isInsideThinkBlock := isInsideThinkBlock st;
     pendingBuffer := pendingBuffer st;
     formatDetected := formatDetected st;
     calls := calls st ++ [c] |}.

(** [accumulatedContent += s; onChunk(s)]. *)
Definition emitContent (s : str) (st : State) : State :=
  {| accumulatedToolCalls := accumulatedToolCalls st;
     accumulatedContent := accumulatedContent st ++ s;
     accumulatedReasoning := accumulatedReasoning st;
     isInsideThinkBlock := isInsideThinkBlock st;
     pendingBuffer := pendingBuffer st;
     formatDetected := formatDetected st;
     calls := calls st ++ [onChunk s] |}.

(** [accumulatedReasoning += s; onReasoning(s)]. *)
Definition emitReasoning (s : str) (st : State) : State :=
  {| accumulatedToolCalls := accumulatedToolCalls st;
     accumulatedContent := accumulatedContent st;
     accumulatedReasoning := accumulatedReasoning st ++ s;
     isInsideThinkBlock := isInsideThinkBlock st;
     pendingBuffer := pendingBuffer st;
     formatDetected := formatDetected st;
     calls := calls st ++ [onReasoning s] |}.

(** [if (s) { emitContent }] and [if (s && onReasoning) { emitReasoning }]. *)
Definition emitContentIf (s : str) (st : State) : State :=
  if nonempty s then emitContent s st else st.
Definition emitReasoningIf (cb : StreamCallbacks) (s : str) (st : State) : State :=
  if nonempty s && hasOnReasoning cb then emitReasoning s st else st.

(** Assignment to the three splitter variables. *)
Definition setSplitter (detected inside : bool) (buf : str) (st : State) : State :=
  {| accumulatedToolCalls := accumulatedToolCalls st;
     accumulatedContent := accumulatedContent st;
     accumulatedReasoning := accumulatedReasoning st;
     isInsideThinkBlock := inside;
     pendingBuffer := buf;
     formatDetected := detected;
     calls := calls st |}.

Definition setToolCalls (m : ToolCallMap) (st : State) : State :=
  {| accumulatedToolCalls := m;
     accumulatedContent := accumulatedContent st;
     accumulatedReasoning := accumulatedReasoning st;
     isInsideThinkBlock := isInsideThinkBlock st;
     pendingBuffer := pendingBuffer st;
     formatDetected := formatDetected st;
     calls := calls st |}.

(** The result of the [while (pendingBuffer.length > 0)] loop:
    [isInsideThinkBlock], [pendingBuffer], [processedContent],
    [processedReasoning]. *)
Record Processed := {
  inside' : bool;
  buffer' : str;
  processedContent : str;
  processedReasoning : str
}.

(** The loop of [processBufferWithKnownFormat]. Every iteration that does
    not [break] removes a marker from the buffer, so [fuel] above the
    buffer length is never used up ([processLoop_fuel]). *)
Fixpoint processLoop (fuel : nat) (inside : bool) (buf pc pr : str) : Processed :=
  match fuel with
  | 0 => {| inside' := inside; buffer' := buf;
            processedContent := pc; processedReasoning := pr |}
  | S fuel' =>
      let stop := {| inside' := inside; buffer' := buf;
                     processedContent := pc; processedReasoning := pr |} in
      if 0 <? length buf then
        if inside then
          match closeMatch buf with
          | Some (i, n) =>
              processLoop fuel' false (slice_from (i + n) buf) pc (pr ++ slice_to i buf)
          | None =>
              if 15 <? length buf then
                let safeLength := length buf - 15 in
                {| inside' := inside; buffer' := slice_from safeLength buf;
                   processedContent := pc;
                   processedReasoning := pr ++ slice_to safeLength buf |}
              else stop
          end
        else
          match openMatch buf, closeMatch buf with
          | Some (i, n), None =>
              processLoop fuel' true (slice_from (i + n) buf) (pc ++ slice_to i buf) pr
          | Some (i, n), Some (j, k) =>
              if i <? j then
                processLoop fuel' true (slice_from (i + n) buf) (pc ++ slice_to i buf) pr
              else
                processLoop fuel' false (slice_from (j + k) buf) pc (pr ++ slice_to j buf)
          | None, Some (j, k) =>
              processLoop fuel' false (slice_from (j + k) buf) pc (pr ++ slice_to j buf)
          | None, None =>
              if (15 <? length buf) && negb (includes "<"%char (slice_last 15 buf)) then
                let safeLength := length buf - 15 in
                {| inside' := inside; buffer' := slice_from safeLength buf;
                   processedContent := pc ++ slice_to safeLength buf;
                   processedReasoning := pr |}
              else stop
          end
      else stop
  end.

Definition processBufferWithKnownFormat (cb : StreamCallbacks) (st : State) : State :=
  let p := processLoop (S (length (pendingBuffer st)))
                       (isInsideThinkBlock st) (pendingBuffer st) [] [] in
  let st := setSplitter (formatDetected st) (inside' p) (buffer' p) st in
  let st := emitContentIf (processedContent p) st in
  emitReasoningIf cb (processedReasoning p) st.

(** [flushBufferAndComplete]. *)
Definition flushBufferAndComplete (cb : StreamCallbacks) (st : State) : State :=
  let buf := pendingBuffer st in
  let st :=
    if negb (formatDetected st) && (0 <? length buf) then
      match openMatch buf, closeMatch buf with
      | Some (i, n), _ =>
          let st := emitContentIf (slice_to i buf) st in
          let afterOpen := slice_from (i + n) buf in
          let st :=
            match closeMatch afterOpen with
            | Some (j, k) =>
                let st := emitReasoningIf cb (slice_to j afterOpen) st in
                emitContentIf (slice_from (j + k) afterOpen) st
            | None => emitReasoningIf cb afterOpen st
            end in
          setSplitter (formatDetected st) (isInsideThinkBlock st) [] st
      | None, Some (j, k) =>
          let st := emitReasoningIf cb (slice_to j buf) st in
          let st := emitContentIf (slice_from (j + k) buf) st in
          setSplitter (formatDetected st) (isInsideThinkBlock st) [] st
      | None, None =>
          let st := emitContent buf st in
          setSplitter (formatDetected st) (isInsideThinkBlock st) [] st
      end
    else if 0 <? length buf then
      let st :=
        if isInsideThinkBlock st then
          (if hasOnReasoning cb then emitReasoning buf st else st)
        else emitContent buf st in
      setSplitter (formatDetected st) (isInsideThinkBlock st) [] st
    else st in
  call onComplete st.

(** The [if (content) { ... }] block of the frame handler: append to the
    buffer, then format detection or known-format processing. *)
Definition feedContent (cb : StreamCallbacks) (c : str) (st : State) : State :=
  let buf := pendingBuffer st ++ c in
  let st := setSplitter (formatDetected st) (isInsideThinkBlock st) buf st in
  if negb (formatDetected st) then
    match openMatch buf with
    | Some (i, n) =>
        let st := emitContentIf (slice_to i buf) st in
        let st := setSplitter true true (slice_from (i + n) buf) st in
        processBufferWithKnownFormat cb st
    | None =>
        match closeMatch buf with
        | Some (j, k) =>
            let st := emitReasoningIf cb (slice_to j buf) st in
            let st := setSplitter true false (slice_from (j + k) buf) st in
            processBufferWithKnownFormat cb st
        | None =>
            if FORMAT_DETECTION_THRESHOLD <=? length buf then
              processBufferWithKnownFormat cb
                (setSplitter true (isInsideThinkBlock st) buf st)
            else st
        end
    end
  else processBufferWithKnownFormat cb st.

(** The body of the [try] block of the parser callback, for a payload that
    parsed. *)
Definition handleJson (cb : StreamCallbacks) (json : Chunk) (st : State) : State :=
  let st :=
    match content json with
    | Some c => if nonempty c then feedContent cb c st else st
    | None => st
    end in
  let st :=
    match reasoning json with
    | Some r => if nonempty r && hasOnReasoning cb then emitReasoning r st else st
    | None => st
    end in
  let st :=
    match usage json with
    | Some u => if hasOnUsage cb then call (onUsage u) st else st
    | None => st
    end in
  let st :=
    match tool_calls json with
    | Some ds =>
        if hasOnToolCalls cb
        then setToolCalls (accumulateAll (accumulatedToolCalls st) ds) st
        else st
    | None => st
    end in
  if truthy (finish_reason json) then
    let st :=
      match usage json with
      | Some u => if hasOnUsage cb then call (onUsage u) st else st
      | None => st
      end in
    if (0 <? length (accumulatedToolCalls st)) && hasOnToolCalls cb
    then call (onToolCalls (finalize (accumulatedToolCalls st))) st
    else st
  else st.

(** The parser callback for one event. *)
Definition handleEvent (cb : StreamCallbacks) (e : SseData) (st : State) : State :=
  match e with
  | DONE => flushBufferAndComplete cb st
  | Json json => handleJson cb json st
  | Invalid _ => st
  end.

Definition handleEvents (cb : StreamCallbacks) (es : list SseData) (st : State) : State :=
  fold_left (fun st e => handleEvent cb e st) es st.

End Session.

(* ===================================================================== *)
(** ** [streamChatCompletion] *)
(* ===================================================================== *)

Module Driver.
Import Session.

(** [/\/+$/] anchored at the start of [s]: [s] is a non-empty run of
    slashes that reaches the end of the input. *)
Definition slashes_to_end_at : matcher := fun s =>
  if nonempty s && forallb (Ascii.eqb "/"%char) s then Some (length s) else None.

(** [/\/api$/i] anchored at the start of [s]. *)
Definition api_to_end_at : matcher := fun s =>
  if ci_prefix (lit "/api") s && (length s =? 4) then Some 4 else None.

(** [s.replace(re, '')] for a non-global expression. *)
Definition removeFirst (m : matcher) (s : str) : str :=
  match find m s with
  | Some (i, n) => slice_to i s ++ slice_from (i + n) s
  | None => s
  end.

Definition normalizedBaseUrl (baseUrl : str) : str :=
  removeFirst api_to_end_at (removeFirst slashes_to_end_at baseUrl).

(** The URL given to [fetch]. *)
Definition requestUrl (baseUrl : str) : str :=
  normalizedBaseUrl baseUrl ++ lit "/api/chat/completions".

(** A value caught by a [catch]: a cancellation, another [Error], or a
    thrown value that is not an [Error]. *)
Inductive Thrown :=
| AbortError
| Error (message : str)
| NotAnError.

(** How the byte stream of the response goes on after its events. *)
Inductive Ending :=
| EndOfStream
| ReadThrows (e : Thrown).

(** The response body as the read loop sees it: the events the parser
    produces from the bytes read, then [done], or a rejected [read]. *)
Record Body := { events : list SseData; ending : Ending }.

(** What [fetch] does. [errorMessage] is [errorData.error?.message] of a
    body that [response.json()] could read. *)
Inductive Fetch :=
| FetchThrows (e : Thrown)
| Response (status : nat) (statusText : str)
           (errorMessage : option str) (body : option Body).

(** [response.ok]. *)
Definition ok (status : nat) : bool := (200 <=? status) && (status <=? 299).

(** The outer [catch]. *)
Definition outerCatch (e : Thrown) (st : State) : State :=
  match e with
  | AbortError => call onComplete st
  | Error m => call (onError m) st
  | NotAnError => call (onError (lit "Unknown streaming error")) st
  end.

Definition httpErrorMessage (status : nat) (statusText : str)
                            (errorMessage : option str) : str :=
  orElse errorMessage (lit "HTTP " ++ of_nat status ++ lit ": " ++ statusText).

(** The read loop with its [catch]. *)
Definition readStream (cb : StreamCallbacks) (b : Body) : State :=
  let st := handleEvents cb (events b) initial in
  match ending b with
  | EndOfStream => flushBufferAndComplete cb st
  | ReadThrows AbortError => flushBufferAndComplete cb st
  | ReadThrows e => outerCatch e st
  end.

(** The callbacks [streamChatCompletion] invokes, in order. *)
Definition streamChatCompletion (cb : StreamCallbacks) (f : Fetch) : list Call :=
  calls
    match f with
    | FetchThrows e => outerCatch e initial
    | Response status statusText errorMessage body =>
        if negb (ok status) then
          outerCatch (Error (httpErrorMessage status statusText errorMessage)) initial
        else
          match body with
          | None => outerCatch (Error (lit "No response body received")) initial
          | Some b => readStream cb b
          end
    end.

(** The splitter alone: a stream whose frames carry the given content
    fragments and nothing else, read to its end. *)
Definition contentFrame (c : str) : SseData :=
  Json {| content := Some c; tool_calls := None; reasoning := None;
          usage := None; finish_reason := None |}.

Definition split (cb : StreamCallbacks) (fragments : list str) : list Call :=
  streamChatCompletion cb
    (Response 200 (lit "OK") None
       (Some {| events := map contentFrame fragments; ending := EndOfStream |})).

End Driver.

(* ===================================================================== *)
(** ** The chat slice and [sendStreamingMessageWithTools] *)
(* ===================================================================== *)

(** [Message] of message.types, with the fields the chat slice reads and
    writes. Identifiers are the values [uuidv4] returns; timestamps are left
    out, nothing reads them. *)
Module Msg.
Inductive Role := system | user | assistant | tool.

(** [ToolResult]: [content] is a string or a structured payload, kept
    here in the form [JSON.stringify] gives it. *)
Inductive ResultContent :=
| Text (s : str)
| Structured (json : str).

Record ToolResult := {
  result_tool_call_id : str;
  result_name : str;
  result_content : ResultContent;
  isError : bool;
  hasUI : bool;
  uiResource : option str
}.

Record t := {
  id : nat;
  role : Role;
  content : str;
  attachments : option (list str);
  toolCalls : option (list ToolCall);
  tool_call_id : option str;
  name : option str;
  toolResults : option (list ToolResult)
}.
End Msg.

(** The messages sent to the provider. *)
Module Api.
Record t := {
  role : Msg.Role;
  content : str;
  tool_calls : option (list ToolCall);
  tool_call_id : option str;
  name : option str
}.

Inductive ToolChoice := none | auto.

(** The request of one turn; the model and the temperature are passed
    through unchanged and left out. *)
Record Request := {
  messages : list t;
  tools : option (list str);
  tool_choice : ToolChoice
}.
End Api.

Module Slice.

(** [ChatState], without [isLoading] and [editingMessage], which the
    streaming thunks leave alone. *)
Record ChatState := {
  messages : list Msg.t;
  isStreaming : bool;
  streamingMessageId : option nat;
  streamingContent : str;
  error : option str;
  abortController : bool;
  pendingToolCalls : list ToolCall;
  isExecutingTools : bool;
  toolCallIteration : nat
}.

Definition initialState : ChatState :=
  {| messages := []; isStreaming := false; streamingMessageId := None;
     streamingContent := []; error := None; abortController := false;
     pendingToolCalls := []; isExecutingTools := false; toolCallIteration := 0 |}.

(** White space in the sense of [String.prototype.trim], among 8-bit
    code units. *)
Definition isWhiteSpace (c : ascii) : bool :=
  let n := nat_of_ascii c in
  ((9 <=? n) && (n <=? 13)) || (n =? 32) || (n =? 160).

(** [s.trim()] is the empty string. *)
Definition blank (s : str) : bool := forallb isWhiteSpace s.

Definition setError (e : option str) (st : ChatState) : ChatState :=
  {| messages := messages st; isStreaming := isStreaming st;
     streamingMessageId := streamingMessageId st;
     streamingContent := streamingContent st; error := e;
     abortController := abortController st;
     pendingToolCalls := pendingToolCalls st;
     isExecutingTools := isExecutingTools st;
     toolCallIteration := toolCallIteration st |}.

Definition pushMessage (m : Msg.t) (st : ChatState) : ChatState :=
  {| messages := messages st ++ [m]; isStreaming := isStreaming st;
     streamingMessageId := streamingMessageId st;
     streamingContent := streamingContent st; error := error st;
     abortController := abortController st;
     pendingToolCalls := pendingToolCalls st;
     isExecutingTools := isExecutingTools st;
     toolCallIteration := toolCallIteration st |}.

Definition startStreaming (userMessageId assistantMessageId : nat) (userContent : str)
                          (userAttachments : option (list str)) (st : ChatState)
  : ChatState :=
  let st :=
    {| messages := messages st; isStreaming := true;
       streamingMessageId := Some assistantMessageId;
       streamingContent := []; error := None;
       abortController := abortController st;
       pendingToolCalls := pendingToolCalls st;
       isExecutingTools := isExecutingTools st;
       toolCallIteration := toolCallIteration st |} in
  if negb (blank userContent) then
    pushMessage {| Msg.id := userMessageId; Msg.role := Msg.user;
                   Msg.content := userContent; Msg.attachments := userAttachments;
                   Msg.toolCalls := None; Msg.tool_call_id := None;
                   Msg.name := None; Msg.toolResults := None |} st
  else st.

Definition appendStreamingContent (chunk : str) (st : ChatState) : ChatState :=
  {| messages := messages st; isStreaming := isStreaming st;
     streamingMessageId := streamingMessageId st;
     streamingContent := streamingContent st ++ chunk; error := error st;
     abortController := abortController st;
     pendingToolCalls := pendingToolCalls st;
     isExecutingTools := isExecutingTools st;
     toolCallIteration := toolCallIteration st |}.

Definition completeStreaming (st : ChatState) : ChatState :=
  let st :=
    match streamingMessageId st with
    | Some mid =>
        if nonempty (streamingContent st) then
          pushMessage {| Msg.id := mid; Msg.role := Msg.assistant;
                         Msg.content := streamingContent st; Msg.attachments := None;
                         Msg.toolCalls := None; Msg.tool_call_id := None;
                         Msg.name := None; Msg.toolResults := None |} st
        else st
    | None => st
    end in
  {| messages := messages st; isStreaming := false;
     streamingMessageId := None; streamingContent := []; error := error st;
     abortController := false;
     pendingToolCalls := pendingToolCalls st;
     isExecutingTools := isExecutingTools st;
     toolCallIteration := toolCallIteration st |}.

Definition setAbortController (present : bool) (st : ChatState) : ChatState :=
  {| messages := messages st; isStreaming := isStreaming st;
     streamingMessageId := streamingMessageId st;
     streamingContent := streamingContent st; error := error st;
     abortController := present;
     pendingToolCalls := pendingToolCalls st;
     isExecutingTools := isExecutingTools st;
     toolCallIteration := toolCallIteration st |}.

Definition setToolCalls (tcs : list ToolCall) (st : ChatState) : ChatState :=
  {| messages := messages st; isStreaming := isStreaming st;
     streamingMessageId := streamingMessageId st;
     streamingContent := streamingContent st; error := error st;
     abortController := abortController st;
     pendingToolCalls := tcs;
     isExecutingTools := isExecutingTools st;
     toolCallIteration := toolCallIteration st |}.

Definition clearToolCalls (st : ChatState) : ChatState :=
  {| messages := messages st; isStreaming := isStreaming st;
     streamingMessageId := streamingMessageId st;
     streamingContent := streamingContent st; error := error st;
     abortController := abortController st;
     pendingToolCalls := [];
     isExecutingTools := false;
     toolCallIteration := 0 |}.

Definition setExecutingTools (b : bool) (st : ChatState) : ChatState :=
  {| messages := messages st; isStreaming := isStreaming st;
     streamingMessageId := streamingMessageId st;
     streamingContent := streamingContent st; error := error st;
     abortController := abortController st;
     pendingToolCalls := pendingToolCalls st;
     isExecutingTools := b;
     toolCallIteration := toolCallIteration st |}.

Definition incrementToolIteration (st : ChatState) : ChatState :=
  {| messages := messages st; isStreaming := isStreaming st;
     streamingMessageId := streamingMessageId st;
     streamingContent := streamingContent st; error := error st;
     abortController := abortController st;
     pendingToolCalls := pendingToolCalls st;
     isExecutingTools := isExecutingTools st;
     toolCallIteration := toolCallIteration st + 1 |}.

Definition addToolCallMessage (m : Msg.t) (st : ChatState) : ChatState :=
  pushMessage m st.

(** [state.messages.find(m => m.id === messageId)], then the assignment
    to its [toolResults]. *)
Fixpoint setToolResults (messageId : nat) (results : list Msg.ToolResult)
                        (ms : list Msg.t) : list Msg.t :=
  match ms with
  | [] => []
  | m :: ms' =>
      if Msg.id m =? messageId then
        {| Msg.id := Msg.id m; Msg.role := Msg.role m; Msg.content := Msg.content m;
           Msg.attachments := Msg.attachments m; Msg.toolCalls := Msg.toolCalls m;
           Msg.tool_call_id := Msg.tool_call_id m; Msg.name := Msg.name m;
           Msg.toolResults := Some results |} :: ms'
      else m :: setToolResults messageId results ms'
  end.

Definition updateMessageToolResults (messageId : nat) (results : list Msg.ToolResult)
                                    (st : ChatState) : ChatState :=
  {| messages := setToolResults messageId results (messages st);
     isStreaming := isStreaming st;
     streamingMessageId := streamingMessageId st;
     streamingContent := streamingContent st; error := error st;
     abortController := abortController st;
     pendingToolCalls := pendingToolCalls st;
     isExecutingTools := isExecutingTools st;
     toolCallIteration := toolCallIteration st |}.

End Slice.

Module Thunk.

Definition MAX_TOOL_ITERATIONS : nat := 5.

(** What [ToolIntegrationService.executeToolCalls] does: it returns the
    results, or throws. *)
Inductive Executed :=
| Returned (results : list Msg.ToolResult)
| Thrown (message : str).

(** The collaborators of the thunk. [provider k request] is the sequence
    of callbacks [provider.streamChatCompletion] makes for the request of
    round [k] before the thunk goes on behind its [await]: [resolve] and
    [reject] only schedule the continuation, so the callbacks that follow
    the settling one in the same synchronous run (the frames of a chunk
    behind [[DONE]], say) are part of the sequence and still run first.
    [jsonParseError s] is the message of the error [JSON.parse(s)] throws,
    if it throws; [uuidv4 k] is the [k]-th identifier generated. *)
Record Env := {
  hasTools : bool;
  openAITools : list str;
  provider : nat -> Api.Request -> list Call;
  executeToolCalls : list ToolCall -> Executed;
  jsonParseError : str -> option str;
  uuidv4 : nat -> nat
}.

(** The local variables of the thunk, and the requests sent so far. *)
Record Local := {
  messages : list Api.t;
  iteration : nat;
  uuids : nat;
  requests : list Api.Request
}.

Inductive Settled :=
| Resolved
| RejectedWith (message : str)
| NeverSettles.

(** [resolve()] and [reject(error)]: only the first of them settles the
    promise. *)
Definition settle (promise outcome : Settled) : Settled :=
  match promise with
  | NeverSettles => outcome
  | _ => promise
  end.

(** The thunk's promise around one streaming call. Every callback of the
    sequence runs, also behind the one that settles the promise: [onChunk]
    and [onToolCalls] go on writing to the store and to
    [assistantToolCalls], [onError] goes on setting the error, and a second
    [resolve] or [reject] does nothing. [onReasoning] and [onUsage] are not
    supplied by the thunk. *)
Fixpoint awaitStream (cs : list Call) (promise : Settled)
                     (assistantToolCalls : list ToolCall) (st : Slice.ChatState)
  : Settled * list ToolCall * Slice.ChatState :=
  match cs with
  | [] => (promise, assistantToolCalls, st)
  | onChunk chunk :: cs' =>
      awaitStream cs' promise assistantToolCalls
        (if nonempty chunk then Slice.appendStreamingContent chunk st else st)
  | onToolCalls toolCalls :: cs' =>
      awaitStream cs' promise toolCalls (Slice.setToolCalls toolCalls st)
  | onComplete :: cs' =>
      awaitStream cs' (settle promise Resolved) assistantToolCalls st
  | onError m :: cs' =>
      awaitStream cs' (settle promise (RejectedWith m)) assistantToolCalls
        (Slice.setError (Some m) st)
  | _ :: cs' => awaitStream cs' promise assistantToolCalls st
  end.

(** [tool_choice] of the request of round [iteration]. *)
Definition toolChoice (hasTools : bool) (iteration : nat) : Api.ToolChoice :=
  if negb hasTools then Api.none
  else if MAX_TOOL_ITERATIONS - 1 <=? iteration then Api.none else Api.auto.

(** The first error of [toolCalls.map(tc => JSON.parse(tc.function.arguments))]
    in the debug log of the response. *)
Fixpoint parseArguments (env : Env) (tcs : list ToolCall) : option str :=
  match tcs with
  | [] => None
  | tc :: tcs' =>
      match jsonParseError env (arguments (function tc)) with
      | Some m => Some m
      | None => parseArguments env tcs'
      end
  end.

(** The string sent to the model for one tool result. *)
Definition contentString (r : Msg.ToolResult) : str :=
  match Msg.hasUI r, Msg.uiResource r with
  | true, Some _ =>
      lit "Interactive UI component displayed successfully. The user can now interact with the "
        ++ Msg.result_name r ++ lit " interface."
  | _, _ =>
      match Msg.result_content r with
      | Msg.Text s => s
      | Msg.Structured json => json
      end
  end.

(** The body of [for (const result of toolResults)]. *)
Definition addToolResult (env : Env) (acc : Local * Slice.ChatState) (r : Msg.ToolResult)
  : Local * Slice.ChatState :=
  let (l, st) := acc in
  let st :=
    Slice.addToolCallMessage
      {| Msg.id := uuidv4 env (uuids l); Msg.role := Msg.tool;
         Msg.content := contentString r; Msg.attachments := None;
         Msg.toolCalls := None;
         Msg.tool_call_id := Some (Msg.result_tool_call_id r);
         Msg.name := Some (Msg.result_name r);
         Msg.toolResults := Some [r] |} st in
  ({| messages := messages l ++
                  [ {| Api.role := Msg.tool; Api.content := contentString r;
                       Api.tool_calls := None;
                       Api.tool_call_id := Some (Msg.result_tool_call_id r);
                       Api.name := Some (Msg.result_name r) |} ];
      iteration := iteration l; uuids := S (uuids l); requests := requests l |},
   st).

(** How one pass through the loop body ends. *)
Inductive Step :=
| Continue (l : Local) (st : Slice.ChatState)
| Finished (l : Local) (st : Slice.ChatState)
| Threw (message : str) (l : Local) (st : Slice.ChatState)
| Waiting (l : Local) (st : Slice.ChatState).

(** The [catch] block of the loop. *)
Definition catchBlock (message : str) (l : Local) (st : Slice.ChatState) : Step :=
  Threw message l
    (Slice.clearToolCalls (Slice.completeStreaming (Slice.setError (Some message) st))).

(** The [try] block of the loop. *)
Definition loopBody (env : Env) (l : Local) (st : Slice.ChatState) : Step :=
  let request :=
    {| Api.messages := messages l;
       Api.tools := if hasTools env then Some (openAITools env) else None;
       Api.tool_choice := toolChoice (hasTools env) (iteration l) |} in
  let l := {| messages := messages l; iteration := iteration l; uuids := uuids l;
              requests := requests l ++ [request] |} in
  match awaitStream (provider env (iteration l) request) NeverSettles [] st with
  | (NeverSettles, _, st) => Waiting l st
  | (RejectedWith m, _, st) => catchBlock m l st
  | (Resolved, assistantToolCalls, st) =>
      match parseArguments env assistantToolCalls with
      | Some m => catchBlock m l st
      | None =>
          if 0 <? length assistantToolCalls then
            let assistantMessageId := uuidv4 env (uuids l) in
            let assistantContent := Slice.streamingContent st in
            let st :=
              Slice.addToolCallMessage
                {| Msg.id := assistantMessageId; Msg.role := Msg.assistant;
                   Msg.content := assistantContent; Msg.attachments := None;
                   Msg.toolCalls := Some assistantToolCalls;
                   Msg.tool_call_id := None; Msg.name := None;
                   Msg.toolResults := None |} st in
            let l :=
              {| messages := messages l ++
                             [ {| Api.role := Msg.assistant;
                                  Api.content := assistantContent;
                                  Api.tool_calls := Some assistantToolCalls;
                                  Api.tool_call_id := None; Api.name := None |} ];
                 iteration := iteration l; uuids := S (uuids l);
                 requests := requests l |} in
            let st := Slice.completeStreaming st in
            let st := Slice.setExecutingTools true st in
            match executeToolCalls env assistantToolCalls with
            | Thrown m => catchBlock m l st
            | Returned toolResults =>
                let st := Slice.setExecutingTools false st in
                let st := Slice.updateMessageToolResults assistantMessageId toolResults st in
                let (l, st) := fold_left (addToolResult env) toolResults (l, st) in
                let st := Slice.incrementToolIteration st in
                let nextAssistantMessageId := uuidv4 env (uuids l) in
                let st :=
                  Slice.startStreaming (uuidv4 env (S (uuids l))) nextAssistantMessageId
                    [] None st in
                Continue
                  {| messages := messages l; iteration := S (iteration l);
                     uuids := S (S (uuids l)); requests := requests l |}
                  st
            end
          else
            Finished l (Slice.clearToolCalls (Slice.completeStreaming st))
      end
  end.

Inductive Outcome :=
| Fulfilled
| Rejected (message : str)
| Pending.

Record Run := {
  chat : Slice.ChatState;
  local : Local;
  outcome : Outcome
}.

(** The code behind the loop. *)
Definition afterLoop (shouldContinue : bool) (l : Local) (st : Slice.ChatState) : Run :=
  let st :=
    if (MAX_TOOL_ITERATIONS <=? iteration l) && shouldContinue then
      Slice.clearToolCalls
        (Slice.completeStreaming
           (Slice.setError (Some (lit "Maximum tool calling iterations reached")) st))
    else st in
  {| chat := st; local := l; outcome := Fulfilled |}.

(** [while (shouldContinue && iteration < MAX_TOOL_ITERATIONS)]. A pass
    either raises [iteration] or clears [shouldContinue], so the loop
    condition is tested at most [MAX_TOOL_ITERATIONS + 1] times
    ([toolLoop_fuel]). *)
Fixpoint toolLoop (fuel : nat) (env : Env) (shouldContinue : bool)
                  (l : Local) (st : Slice.ChatState) : Run :=
  match fuel with
  | 0 => afterLoop shouldContinue l st
  | S fuel' =>
      if shouldContinue && (iteration l <? MAX_TOOL_ITERATIONS) then
        match loopBody env l st with
        | Continue l st => toolLoop fuel' env true l st
        | Finished l st => toolLoop fuel' env false l st
        | Threw m l st => {| chat := st; local := l; outcome := Rejected m |}
        | Waiting l st => {| chat := st; local := l; outcome := Pending |}
        end
      else afterLoop shouldContinue l st
  end.

Definition apiMessage (msg : Msg.t) : Api.t :=
  {| Api.role := Msg.role msg; Api.content := Msg.content msg;
     Api.tool_calls := Msg.toolCalls msg; Api.tool_call_id := Msg.tool_call_id msg;
     Api.name := Msg.name msg |}.

Definition sendStreamingMessageWithTools
    (env : Env) (content : str) (attachments : option (list str))
    (state : Slice.ChatState) : Run :=
  let userMessageId := uuidv4 env 0 in
  let assistantMessageId := uuidv4 env 1 in
  let st := Slice.startStreaming userMessageId assistantMessageId content attachments state in
  let st := Slice.clearToolCalls st in
  let messages :=
    map apiMessage (Slice.messages state)
      ++ [ {| Api.role := Msg.user; Api.content := content; Api.tool_calls := None;
              Api.tool_call_id := None; Api.name := None |} ] in
  let st := Slice.setAbortController true st in
  toolLoop (S MAX_TOOL_ITERATIONS) env true
    {| messages := messages; iteration := 0; uuids := 2; requests := [] |} st.

(** *** History *)



(** *** What a streaming call delivers, whatever the chat state *)

(** How the promise settles: by the first [onComplete] or [onError]. *)
Fixpoint settled (cs : list Call) : Settled :=
  match cs with
  | [] => NeverSettles
  | onComplete :: _ => Resolved
  | onError m :: _ => RejectedWith m
  | _ :: cs' => settled cs'
  end.

(** [assistantToolCalls] when the thunk goes on: the tool calls of the
    last [onToolCalls] of the sequence. *)
Fixpoint delivered (cs : list Call) (assistantToolCalls : list ToolCall) : list ToolCall :=
  match cs with
  | [] => assistantToolCalls
  | onToolCalls toolCalls :: cs' => delivered cs' toolCalls
  | _ :: cs' => delivered cs' assistantToolCalls
  end.

(** [state.chat.error] when the thunk goes on: the message of the last
    [onError] of the sequence, [e] without one. *)
Fixpoint errorAfter (cs : list Call) (e : option str) : option str :=
  match cs with
  | [] => e
  | onError m :: cs' => errorAfter cs' (Some m)
  | _ :: cs' => errorAfter cs' e
  end.

End Thunk.

(* ===================================================================== *)
(** ** Maps with string keys *)
(* ===================================================================== *)

(** [Map<string, V>]: a JS [Map] iterates in insertion order, [set] on a
    key that is present keeps the key's place, [delete] removes it. *)
Module StrMap.

(** [a === b] on strings. *)
Definition eqb (a b : str) : bool :=
  if list_eq_dec ascii_dec a b then true else false.

Fixpoint get {V : Type} (m : list (str * V)) (k : str) : option V :=
  match m with
  | [] => None
  | (k', v) :: m' => if eqb k k' then Some v else get m' k
  end.

Fixpoint set {V : Type} (m : list (str * V)) (k : str) (v : V) : list (str * V) :=
  match m with
  | [] => [(k, v)]
  | (k', v') :: m' => if eqb k k' then (k', v) :: m' else (k', v') :: set m' k v
  end.

Fixpoint delete {V : Type} (m : list (str * V)) (k : str) : list (str * V) :=
  match m with
  | [] => []
  | (k', v') :: m' => if eqb k k' then m' else (k', v') :: delete m' k
  end.

Definition keys {V : Type} (m : list (str * V)) : list str := map fst m.
Definition values {V : Type} (m : list (str * V)) : list V := map snd m.

End StrMap.

(* ===================================================================== *)
(** ** The rest of the chat slice: reducers and thunks *)
(* ===================================================================== *)

Module ChatSlice.

(** [editingMessage]. *)
Record Editing := {
  editing_id : nat;
  editing_content : str;
  editing_attachments : option (list str)
}.

(** [ChatState] in full: the fields of [Slice.ChatState], and the two the
    streaming thunks leave alone. *)
Record ChatState := {
  chat : Slice.ChatState;
  isLoading : bool;
  editingMessage : option Editing
}.

(** [abortStreaming]. The call [abortController.abort()] it makes when a
    controller is present is the cancellation the streaming driver sees;
    it leaves no trace in the state. *)
Definition abortStreaming (st : Slice.ChatState) : Slice.ChatState :=
  {| Slice.messages := Slice.messages st; Slice.isStreaming := false;
     Slice.streamingMessageId := None; Slice.streamingContent := [];
     Slice.error := Slice.error st; Slice.abortController := false;
     Slice.pendingToolCalls := Slice.pendingToolCalls st;
     Slice.isExecutingTools := Slice.isExecutingTools st;
     Slice.toolCallIteration := Slice.toolCallIteration st |}.

(** [state.messages.findIndex(m => m.id === id)]; [None] stands for [-1]. *)
Fixpoint findIndex (id : nat) (ms : list Msg.t) : option nat :=
  match ms with
  | [] => None
  | m :: ms' =>
      if Msg.id m =? id then Some 0
      else match findIndex id ms' with
           | Some i => Some (S i)
           | None => None
           end
  end.

Definition deleteMessagesAfter (id : nat) (st : Slice.ChatState) : Slice.ChatState :=
  match findIndex id (Slice.messages st) with
  | Some messageIndex =>
      {| Slice.messages := firstn messageIndex (Slice.messages st);
         Slice.isStreaming := Slice.isStreaming st;
         Slice.streamingMessageId := Slice.streamingMessageId st;
         Slice.streamingContent := Slice.streamingContent st;
         Slice.error := Slice.error st;
         Slice.abortController := Slice.abortController st;
         Slice.pendingToolCalls := Slice.pendingToolCalls st;
         Slice.isExecutingTools := Slice.isExecutingTools st;
         Slice.toolCallIteration := Slice.toolCallIteration st |}
  | None => st
  end.

(** *** [sendMessage] *)

(** A value caught by [catch (error)]: an [Error] with its message, or
    something else. *)
Inductive Caught :=
| ErrorObject (message : str)
| OtherValue.

(** What [provider.chatCompletion] and the read of
    [response.choices[0].message.content] give: the content (absent or
    null: [None]), or a thrown value (a response without a first choice
    makes the read throw a [TypeError]). *)
Inductive Completion :=
| Replied (assistantContent : option str)
| Throws (e : Caught).

(** The collaborators of the thunks: [uuidv4 k] is the [k]-th identifier
    generated, the two provider methods are given the role and content of
    every message of the request. *)
Record Env := {
  uuidv4 : nat -> nat;
  chatCompletion : list (Msg.Role * str) -> Completion;
  streamChatCompletion : list (Msg.Role * str) -> list Call
}.

(** The payload of [sendMessage.fulfilled]. *)
Record Sent := {
  userMessageId : nat;
  assistantMessageId : nat;
  userContent : str;
  userAttachments : option (list str);
  assistantContent : option str
}.

Inductive Settlement :=
| FulfilledWith (payload : Sent)
| RejectedWithValue (message : str).

(** [state.chat.messages.map(msg => ({ role, content }))] and the new
    user message. *)
Definition context (history : list Msg.t) (content : str) : list (Msg.Role * str) :=
  map (fun msg => (Msg.role msg, Msg.content msg)) history ++ [(Msg.user, content)].

(** The payload creator of [sendMessage]. *)
Definition sendMessage (env : Env) (content : str) (attachments : option (list str))
                       (state : ChatState) : Settlement :=
  match chatCompletion env (context (Slice.messages (chat state)) content) with
  | Replied assistantContent =>
      FulfilledWith {| userMessageId := uuidv4 env 0;
                       assistantMessageId := uuidv4 env 1;
                       userContent := content;
                       userAttachments := attachments;
                       assistantContent := assistantContent |}
  | Throws (ErrorObject message) => RejectedWithValue message
  | Throws OtherValue => RejectedWithValue (lit "Failed to send message")
  end.

(** The three [extraReducers]. *)
Definition sendMessage_pending (st : ChatState) : ChatState :=
  {| chat := Slice.setError None (chat st); isLoading := true;
     editingMessage := editingMessage st |}.

Definition sendMessage_fulfilled (payload : Sent) (st : ChatState) : ChatState :=
  let c := chat st in
  let c :=
    Slice.pushMessage
      {| Msg.id := userMessageId payload; Msg.role := Msg.user;
         Msg.content := userContent payload; Msg.attachments := userAttachments payload;
         Msg.toolCalls := None; Msg.tool_call_id := None;
         Msg.name := None; Msg.toolResults := None |} c in
  let c :=
    Slice.pushMessage
      {| Msg.id := assistantMessageId payload; Msg.role := Msg.assistant;
         Msg.content := orElse (assistantContent payload) [];
         Msg.attachments := None;
         Msg.toolCalls := None; Msg.tool_call_id := None;
         Msg.name := None; Msg.toolResults := None |} c in
  {| chat := c; isLoading := false; editingMessage := editingMessage st |}.

Definition sendMessage_rejected (payload : str) (st : ChatState) : ChatState :=
  {| chat := Slice.setError (Some payload) (chat st); isLoading := false;
     editingMessage := editingMessage st |}.

(** [dispatch(sendMessage(...))]: the pending action, the payload creator
    on the state it then reads, and the action of its settlement. *)
Definition dispatchSendMessage (env : Env) (content : str)
                               (attachments : option (list str)) (st : ChatState)
  : ChatState :=
  let st := sendMessage_pending st in
  match sendMessage env content attachments st with
  | FulfilledWith payload => sendMessage_fulfilled payload st
  | RejectedWithValue message => sendMessage_rejected message st
  end.

(** *** [sendStreamingMessage] *)

(** The callbacks the thunk supplies: [onChunk], [onComplete], [onError]. *)
Definition callback (c : Call) (st : Slice.ChatState) : Slice.ChatState :=
  match c with
  | onChunk chunk => Slice.appendStreamingContent chunk st
  | onComplete => Slice.completeStreaming st
  | onError message => Slice.completeStreaming (Slice.setError (Some message) st)
  | _ => st
  end.

(** The thunk: the chat state once every callback of the streaming call
    has run, and how the promise settled (by the first [onComplete] or
    [onError]; the later ones still dispatch). *)
Definition sendStreamingMessage (env : Env) (content : str)
                                (attachments : option (list str))
                                (state : Slice.ChatState)
  : Slice.ChatState * Thunk.Settled :=
  let userMessageId := uuidv4 env 0 in
  let assistantMessageId := uuidv4 env 1 in
  let st := Slice.startStreaming userMessageId assistantMessageId content attachments state in
  let messages := context (Slice.messages state) content in
  let st := Slice.setAbortController true st in
  let cs := streamChatCompletion env messages in
  (fold_left (fun st c => callback c st) cs st, Thunk.settled cs).

(** *** [executeUIAction] *)

(** What [ToolIntegrationService.executeToolCall] does. *)
Inductive ToolOutcome :=
| ToolReturned (result : Msg.ToolResult)
| ToolThrew (message : str).

(** The collaborators of [executeUIAction]; [uuid] is the identifier
    [uuidv4()] gives the tool call. *)
Record UIEnv := {
  findServerForTool : str -> option str;
  executeToolCall : ToolCall -> ToolOutcome;
  uuid : str
}.

(** [m.toolResults?.some(r => r.tool_call_id === originalToolCallId)]. *)
Definition hasResultFor (originalToolCallId : str) (m : Msg.t) : bool :=
  match Msg.toolResults m with
  | Some rs => existsb (fun r => StrMap.eqb (Msg.result_tool_call_id r) originalToolCallId) rs
  | None => false
  end.

(** [{ ...result, tool_call_id: originalToolCallId }]. *)
Definition withToolCallId (originalToolCallId : str) (result : Msg.ToolResult)
  : Msg.ToolResult :=
  {| Msg.result_tool_call_id := originalToolCallId;
     Msg.result_name := Msg.result_name result;
     Msg.result_content := Msg.result_content result;
     Msg.isError := Msg.isError result;
     Msg.hasUI := Msg.hasUI result;
     Msg.uiResource := Msg.uiResource result |}.

Inductive UIOutcome :=
| UIFulfilled (result : Msg.ToolResult)
| UIRejected (message : str).

(** The thunk. [data] is the JSON text of the action's parameters, when
    it has some. *)
Definition executeUIAction (env : UIEnv) (toolName : str) (data : option str)
                           (originalToolCallId : str) (state : Slice.ChatState)
  : Slice.ChatState * UIOutcome :=
  match findServerForTool env toolName with
  | None =>
      (state, UIRejected (lit "Server for tool " ++ toolName ++ lit " not found"))
  | Some _ =>
      let toolCall :=
        {| id := uuid env; type := lit "function";
           function := {| name := toolName;
                          arguments := match data with
                                       | Some json => json
                                       | None => lit "{}"
                                       end |} |} in
      let st := Slice.setExecutingTools true state in
      match executeToolCall env toolCall with
      | ToolThrew message => (st, UIRejected message)
      | ToolReturned result =>
          let st :=
            match List.find (hasResultFor originalToolCallId) (Slice.messages state) with
            | Some message =>
                match Msg.toolResults message with
                | Some toolResults =>
                    let updatedResult := withToolCallId originalToolCallId result in
                    let updatedResults :=
                      map (fun r =>
                             if StrMap.eqb (Msg.result_tool_call_id r) originalToolCallId
                             then updatedResult else r)
                          toolResults in
                    Slice.updateMessageToolResults (Msg.id message) updatedResults st
                | None => st
                end
            | None => st
            end in
          (Slice.setExecutingTools false st, UIFulfilled result)
      end
  end.

End ChatSlice.

(* ===================================================================== *)
(** ** The renderer-side plugin registry *)
(* ===================================================================== *)

(** The plugin types of plugin.types that the registry reads. *)
Module PluginTypes.

Section Types.

(** The values the registry stores and hands on without looking inside:
    unified plugins, React components and nodes, the render context. *)
Variables (UnifiedPlugin Component RenderContext ReactNode : Type).

(** An object used as a dictionary of components, read key by key. *)
Definition Components := str -> option Component.

(** [MarkdownExtensionPlugin]: every field is optional; a processor
    returns [None] when it throws. *)
Record MarkdownExtensionPlugin := {
  remarkPlugins : option (list UnifiedPlugin);
  rehypePlugins : option (list UnifiedPlugin);
  components : option Components;
  preProcess : option (str -> RenderContext -> option str);
  postProcess : option (ReactNode -> RenderContext -> option ReactNode)
}.

(** [RendererReplacementPlugin]: [canRender] is optional, and returns
    [None] when it throws. *)
Record RendererReplacementPlugin := {
  Renderer : Component;
  canRender : option (Msg.t -> RenderContext -> option bool)
}.

End Types.

Arguments remarkPlugins {_ _ _ _} _.
Arguments rehypePlugins {_ _ _ _} _.
Arguments components {_ _ _ _} _.
Arguments preProcess {_ _ _ _} _.
Arguments postProcess {_ _ _ _} _.
Arguments Renderer {_ _} _.
Arguments canRender {_ _} _.

End PluginTypes.

Module Registry.

Section Plugins.

Variables (UnifiedPlugin Component RenderContext ReactNode : Type).

Let Extension :=
  PluginTypes.MarkdownExtensionPlugin UnifiedPlugin Component RenderContext ReactNode.
Let Replacement := PluginTypes.RendererReplacementPlugin Component RenderContext.

(** The fields of [PluginRendererRegistry]. *)
Record PluginRendererRegistry := {
  extensionPlugins : list (str * Extension);
  replacementPlugin : option (str * Replacement);
  extensionOrder : list str
}.

(** A new registry. *)
Definition empty : PluginRendererRegistry :=
  {| extensionPlugins := []; replacementPlugin := None; extensionOrder := [] |}.

(** [rebuildExtensionOrder]: the keys of the map, in insertion order. *)
Definition rebuildExtensionOrder (r : PluginRendererRegistry) : PluginRendererRegistry :=
  {| extensionPlugins := extensionPlugins r;
     replacementPlugin := replacementPlugin r;
     extensionOrder := StrMap.keys (extensionPlugins r) |}.

(** [registerExtension]; the priority is only logged. *)
Definition registerExtension (id : str) (plugin : Extension) (priority : nat)
                             (r : PluginRendererRegistry) : PluginRendererRegistry :=
  rebuildExtensionOrder
    {| extensionPlugins := StrMap.set (extensionPlugins r) id plugin;
       replacementPlugin := replacementPlugin r;
       extensionOrder := extensionOrder r |}.

Definition unregisterExtension (id : str) (r : PluginRendererRegistry)
  : PluginRendererRegistry :=
  rebuildExtensionOrder
    {| extensionPlugins := StrMap.delete (extensionPlugins r) id;
       replacementPlugin := replacementPlugin r;
       extensionOrder := extensionOrder r |}.

Definition registerReplacement (id : str) (plugin : Replacement)
                               (r : PluginRendererRegistry) : PluginRendererRegistry :=
  {| extensionPlugins := extensionPlugins r;
     replacementPlugin := Some (id, plugin);
     extensionOrder := extensionOrder r |}.

Definition unregisterReplacement (r : PluginRendererRegistry) : PluginRendererRegistry :=
  match replacementPlugin r with
  | Some _ =>
      {| extensionPlugins := extensionPlugins r;
         replacementPlugin := None;
         extensionOrder := extensionOrder r |}
  | None => r
  end.

Definition clear (r : PluginRendererRegistry) : PluginRendererRegistry :=
  {| extensionPlugins := []; replacementPlugin := None; extensionOrder := [] |}.

(** [extensionOrder.map(id => extensionPlugins.get(id)!).filter(Boolean)]. *)
Definition getExtensionPlugins (r : PluginRendererRegistry) : list Extension :=
  flat_map (fun id => match StrMap.get (extensionPlugins r) id with
                      | Some plugin => [plugin]
                      | None => []
                      end)
           (extensionOrder r).

(** The loop [for (const id of this.extensionOrder)] with its lookup;
    [step] is the body for a plugin that was found. *)
Definition forEachExtension {A : Type} (step : A -> Extension -> A)
                            (r : PluginRendererRegistry) (start : A) : A :=
  fold_left (fun acc id => match StrMap.get (extensionPlugins r) id with
                           | Some plugin => step acc plugin
                           | None => acc
                           end)
            (extensionOrder r) start.

(** [Object.assign(target, source)], read key by key. *)
Definition assign (target source : PluginTypes.Components Component)
  : PluginTypes.Components Component :=
  fun k => match source k with Some c => Some c | None => target k end.

Definition getComponents (r : PluginRendererRegistry) : PluginTypes.Components Component :=
  forEachExtension
    (fun merged plugin =>
       match PluginTypes.components plugin with
       | Some cs => assign merged cs
       | None => merged
       end) r (fun _ => None).

(** The body of the loop of [preProcess]: a processor that throws is
    logged and skipped. *)
Definition preProcessWith (context : RenderContext) (result : str) (plugin : Extension)
  : str :=
  match PluginTypes.preProcess plugin with
  | Some f => match f result context with
              | Some result' => result'
              | None => result
              end
  | None => result
  end.

Definition preProcess (r : PluginRendererRegistry) (content : str)
                      (context : RenderContext) : str :=
  forEachExtension (preProcessWith context) r content.

(** The public operations that change the registry. *)
Inductive Op :=
| RegisterExtension (id : str) (plugin : Extension) (priority : nat)
| UnregisterExtension (id : str)
| RegisterReplacement (id : str) (plugin : Replacement)
| UnregisterReplacement
| Clear.

Definition perform (r : PluginRendererRegistry) (op : Op) : PluginRendererRegistry :=
  match op with
  | RegisterExtension id plugin priority => registerExtension id plugin priority r
  | UnregisterExtension id => unregisterExtension id r
  | RegisterReplacement id plugin => registerReplacement id plugin r
  | UnregisterReplacement => unregisterReplacement r
  | Clear => clear r
  end.

(** The registry after a sequence of operations on a new one. *)
Definition after (ops : list Op) : PluginRendererRegistry := fold_left perform ops empty.

End Plugins.

Arguments extensionPlugins {_ _ _ _} _.
Arguments replacementPlugin {_ _ _ _} _.
Arguments extensionOrder {_ _ _ _} _.
Arguments empty {_ _ _ _}.
Arguments registerExtension {_ _ _ _} _ _ _ _.
Arguments unregisterExtension {_ _ _ _} _ _.
Arguments registerReplacement {_ _ _ _} _ _ _.
Arguments unregisterReplacement {_ _ _ _} _.
Arguments clear {_ _ _ _} _.
Arguments getExtensionPlugins {_ _ _ _} _.
Arguments forEachExtension {_ _ _ _ _} _ _ _.
Arguments assign {_} _ _ _.
Arguments getComponents {_ _ _ _} _ _.
Arguments preProcessWith {_ _ _ _} _ _ _.
Arguments preProcess {_ _ _ _} _ _ _.
Arguments RegisterExtension {_ _ _ _} _ _ _.
Arguments UnregisterExtension {_ _ _ _} _.
Arguments RegisterReplacement {_ _ _ _} _ _.
Arguments UnregisterReplacement {_ _ _ _}.
Arguments Clear {_ _ _ _}.
Arguments perform {_ _ _ _} _ _.
Arguments after {_ _ _ _} _.

End Registry.

(* ===================================================================== *)
(** ** The renderer-side logger *)
(* ===================================================================== *)

Module Logger.

Inductive LogLevel := DEBUG | INFO | WARN | ERROR.

Definition LOG_LEVEL_PRIORITY (level : LogLevel) : nat :=
  match level with DEBUG => 0 | INFO => 1 | WARN => 2 | ERROR => 3 end.

(** The fields of [LoggerConfig] the renderer logger reads;
    [enableConsoleLogging] is optional. *)
Record LoggerConfig := {
  logLevel : LogLevel;
  enableFileLogging : bool;
  enableConsoleLogging : option bool
}.

(** [LogEntry], without its timestamp and its [data], which are written
    as they are given. *)
Record LogEntry := {
  traceId : str;
  module : str;
  level : LogLevel;
  message : str
}.

(** Where an entry goes: the console, or the main process through
    [window.electron.logger.write]. *)
Inductive Output :=
| Console (entry : LogEntry)
| File (entry : LogEntry).

(** What the logger runs in: [draw k] is the [k]-th value of
    [(Math.random() * 16) | 0], and [canWrite] tells whether
    [window.electron?.logger?.write] is there. *)
Record Env := {
  draw : nat -> nat;
  canWrite : bool
}.

(** The static fields of [Logger], the number of random values drawn so
    far, and the entries written, oldest first. *)
Record State := {
  config : LoggerConfig;
  drawn : nat;
  outputs : list Output
}.

(** [v.toString(16)]. *)
Definition toString16 (v : nat) : str :=
  lit (HexadecimalString.NilZero.string_of_uint (Nat.to_hex_uint v)).

(** [template.replace(/[xy]/g, c => ...)] of [generateTraceId], from the
    [k]-th random value on: the text and the number of values drawn. *)
Fixpoint replaceXY (env : Env) (k : nat) (template : str) : str * nat :=
  match template with
  | [] => ([], k)
  | c :: rest =>
      if Ascii.eqb c "x" || Ascii.eqb c "y" then
        let r := draw env k in
        let v := if Ascii.eqb c "x" then r else Nat.lor (Nat.land r 3) 8 in
        let (out, k') := replaceXY env (S k) rest in
        (toString16 v ++ out, k')
      else
        let (out, k') := replaceXY env k rest in
        (c :: out, k')
  end.

Definition template : str := lit "xxxxxxxx-xxxx-4xxx-yxxx-xxxxxxxxxxxx".

Definition generateTraceId (env : Env) (k : nat) : str * nat :=
  replaceXY env k template.

(** [Logger.log]. *)
Definition log (env : Env) (level : LogLevel) (module message : str)
               (traceId : option str) (st : State) : State :=
  if LOG_LEVEL_PRIORITY level <? LOG_LEVEL_PRIORITY (logLevel (config st)) then st
  else
    let (id, k) :=
      if truthy traceId then (orElse traceId [], drawn st)
      else generateTraceId env (drawn st) in
    let entry :=
      {| traceId := id; module := module; level := level; message := message |} in
    let toConsole :=
      match enableConsoleLogging (config st) with
      | Some false => []
      | _ => [Console entry]
      end in
    let toFile :=
      if enableFileLogging (config st) && canWrite env then [File entry] else [] in
    {| config := config st; drawn := k;
       outputs := outputs st ++ toConsole ++ toFile |}.

Definition info (env : Env) (module message : str) (traceId : option str)
                (st : State) : State :=
  log env INFO module message traceId st.

(** [Logger.error]; the error details go into the data of the entry. *)
Definition error (env : Env) (module message : str) (traceId : option str)
                 (st : State) : State :=
  log env ERROR module message traceId st.

(** The fields of a [RequestTracer], without its start time. *)
Record RequestTracer := {
  tracer_traceId : str;
  tracer_module : str;
  tracer_operation : str
}.

(** [Logger.trace]. *)
Definition trace (env : Env) (module operation : str) (st : State)
  : RequestTracer * State :=
  let (traceId, k) := generateTraceId env (drawn st) in
  let st := {| config := config st; drawn := k; outputs := outputs st |} in
  let st := info env module (lit "Started: " ++ operation) (Some traceId) st in
  ({| tracer_traceId := traceId; tracer_module := module;
      tracer_operation := operation |}, st).

(** A call of a method of a tracer. *)
Inductive TracerCall :=
| checkpoint (message : str)
| complete (message : str)
| failed (message : str).

(** The methods [checkpoint], [complete] and [error] of a tracer. *)
Definition tracerCall (env : Env) (t : RequestTracer) (st : State) (c : TracerCall) : State :=
  match c with
  | checkpoint message =>
      info env (tracer_module t)
        (lit "[" ++ tracer_operation t ++ lit "] " ++ message)
        (Some (tracer_traceId t)) st
  | complete message =>
      info env (tracer_module t)
        (lit "Completed: " ++ tracer_operation t ++ lit " - " ++ message)
        (Some (tracer_traceId t)) st
  | failed message =>
      error env (tracer_module t)
        (lit "Failed: " ++ tracer_operation t ++ lit " - " ++ message)
        (Some (tracer_traceId t)) st
  end.

End Logger.

(* ===================================================================== *)
(** ** The earlier [streamChatCompletion] *)
(* ===================================================================== *)

(** The streaming service as it was before the tag-aware splitter: the
    same request, accumulator and read loop, with [onChunk], [onComplete],
    [onError] and the optional [onToolCalls]. *)
Module Legacy.
Import Accumulator.

(** The local variables that outlive a frame (but [accumulatedContent]
    and [chunkCount], which are only logged), and the callbacks invoked so
    far. *)
Record State := {
  accumulatedToolCalls : ToolCallMap;
  calls : list Call
}.

Definition initial : State := {| accumulatedToolCalls := []; calls := [] |}.

Definition call (c : Call) (st : State) : State :=
  {| accumulatedToolCalls := accumulatedToolCalls st; calls := calls st ++ [c] |}.

(** Only trailing slashes are removed. *)
Definition normalizedBaseUrl (baseUrl : str) : str :=
  Driver.removeFirst Driver.slashes_to_end_at baseUrl.

Definition requestUrl (baseUrl : str) : str :=
  normalizedBaseUrl baseUrl ++ lit "/api/chat/completions".

(** The body of the [try] block of the parser callback. [parses s] tells
    whether [JSON.parse(s)] returns; the debug log of a frame with a
    finish reason parses the arguments of every accumulated tool call,
    and a failure there ends the block before [onComplete]. *)
Definition handleJson (cb : StreamCallbacks) (parses : str -> bool) (json : Chunk)
                      (st : State) : State :=
  let st :=
    match content json with
    | Some c => if nonempty c then call (onChunk c) st else st
    | None => st
    end in
  let st :=
    match tool_calls json with
    | Some ds =>
        if hasOnToolCalls cb
        then {| accumulatedToolCalls := accumulateAll (accumulatedToolCalls st) ds;
                calls := calls st |}
        else st
    | None => st
    end in
  if truthy (finish_reason json) then
    let st :=
      if (0 <? length (accumulatedToolCalls st)) && hasOnToolCalls cb
      then call (onToolCalls (finalize (accumulatedToolCalls st))) st
      else st in
    if forallb (fun tc => parses (arguments (function (finalizeOne tc))))
               (values (accumulatedToolCalls st))
    then call onComplete st
    else st
  else st.

Definition handleEvent (cb : StreamCallbacks) (parses : str -> bool) (e : SseData)
                       (st : State) : State :=
  match e with
  | DONE => call onComplete st
  | Json json => handleJson cb parses json st
  | Invalid _ => st
  end.

Definition handleEvents (cb : StreamCallbacks) (parses : str -> bool)
                        (es : list SseData) (st : State) : State :=
  fold_left (fun st e => handleEvent cb parses e st) es st.

(** The outer [catch]. *)
Definition outerCatch (e : Driver.Thrown) (st : State) : State :=
  match e with
  | Driver.AbortError => call onComplete st
  | Driver.Error m => call (onError m) st
  | Driver.NotAnError => call (onError (lit "Unknown streaming error")) st
  end.

(** The read loop with its [catch]. *)
Definition readStream (cb : StreamCallbacks) (parses : str -> bool) (b : Driver.Body)
  : State :=
  let st := handleEvents cb parses (Driver.events b) initial in
  match Driver.ending b with
  | Driver.EndOfStream => call onComplete st
  | Driver.ReadThrows Driver.AbortError => call onComplete st
  | Driver.ReadThrows e => outerCatch e st
  end.

End Legacy.

(* ##################################################################### *)
(** * Part II: specifications and invariants *)
(* ##################################################################### *)

(* ===================================================================== *)
(** ** The splitter of the specification, on the whole text *)
(* ===================================================================== *)

Module Reference.
Import Session.

(** The state machine of the specification run on the complete text, with
    nothing held back: in [InContent] ([inside = false]) the text up to
    the next start marker is content, in [InReasoning] the text up to the
    next end marker is reasoning, and the markers are dropped. The result
    is [(content, reasoning)]. An end marker met in [InContent] is outside
    the machine's transitions: [None]. Every step but the last consumes a
    marker, so [fuel] above the length of the text is enough. *)
Fixpoint segments (fuel : nat) (inside : bool) (t : str) : option (str * str) :=
  match fuel with
  | 0 => None
  | S fuel' =>
      if inside then
        match closeMatch t with
        | Some (i, n) =>
            match segments fuel' false (skipn (i + n) t) with
            | Some (c, r) => Some (c, firstn i t ++ r)
            | None => None
            end
        | None => Some ([], t)
        end
      else
        match openMatch t, closeMatch t with
        | Some (i, n), None =>
            match segments fuel' true (skipn (i + n) t) with
            | Some (c, r) => Some (firstn i t ++ c, r)
            | None => None
            end
        | Some (i, n), Some (j, _) =>
            if i <? j then
              match segments fuel' true (skipn (i + n) t) with
              | Some (c, r) => Some (firstn i t ++ c, r)
              | None => None
              end
            else None
        | None, Some _ => None
        | None, None => Some (t, [])
        end
  end.

(** The split the specification assigns to a text, where it assigns one:
    either the text opens in implicit mode (its only marker is an end
    marker that starts within the detection threshold), or its markers
    alternate, start marker first. *)
Definition specSplit (t : str) : option (str * str) :=
  match openMatch t, closeMatch t with
  | None, Some (i, n) =>
      if i <? FORMAT_DETECTION_THRESHOLD then
        match closeMatch (skipn (i + n) t) with
        | None => Some (skipn (i + n) t, firstn i t)
        | Some _ => None
        end
      else None
  | _, _ => segments (S (length t)) false t
  end.

(** [segments] as a relation: [Split inside t c r]. *)
Inductive Split : bool -> str -> str -> str -> Prop :=
| Split_reasoning_end (t : str) :
    closeMatch t = None -> Split true t [] t
| Split_close (t : str) (i n : nat) (c r : str) :
    closeMatch t = Some (i, n) ->
    Split false (skipn (i + n) t) c r ->
    Split true t c (firstn i t ++ r)
| Split_content_end (t : str) :
    openMatch t = None -> closeMatch t = None -> Split false t t []
| Split_open (t : str) (i n : nat) (c r : str) :
    openMatch t = Some (i, n) ->
    (forall j k, closeMatch t = Some (j, k) -> i < j) ->
    Split true (skipn (i + n) t) c r ->
    Split false t (firstn i t ++ c) r.

End Reference.

(* ===================================================================== *)
(** ** The accumulator contract *)
(* ===================================================================== *)

Module AccumulatorSpec.
Import Accumulator.

(** The indices of a delta sequence in the order of their first
    appearance. *)
Definition firstSeen (ks : list Z) : list Z :=
  fold_left (fun seen k => if existsb (Z.eqb k) seen then seen else seen ++ [k]) ks [].

(** The first non-empty value of an optional field, [""] when none. *)
Fixpoint firstNonEmpty (l : list (option str)) : str :=
  match l with
  | [] => []
  | o :: l' => if truthy o then orElse o [] else firstNonEmpty l'
  end.

(** The deltas that carry index [k], in order of arrival. *)
Definition group (k : Z) (ds : list ToolCallDelta) : list ToolCallDelta :=
  filter (fun d => Z.eqb (index d) k) ds.

(** The entry the contract assigns to index [k]: [id] and [name] are the
    first non-empty ones, [type] is that of the first delta or
    ["function"], [arguments] the concatenation of all fragments. *)
Definition merged (k : Z) (ds : list ToolCallDelta) : ToolCall :=
  {| id := firstNonEmpty (map delta_id (group k ds));
     type := match group k ds with
             | d :: _ => orElse (delta_type d) (lit "function")
             | [] => lit "function"
             end;
     function :=
       {| name := firstNonEmpty (map fnName (group k ds));
          arguments := concat (map (fun d => orElse (fnArguments d) []) (group k ds)) |} |}.

(** The entry reported for index [k] at finalization: empty arguments
    become the literal [{}]. *)
Definition reported (k : Z) (ds : list ToolCallDelta) : ToolCall :=
  {| id := id (merged k ds);
     type := type (merged k ds);
     function :=
       {| name := name (function (merged k ds));
          arguments := if nonempty (arguments (function (merged k ds)))
                       then arguments (function (merged k ds))
                       else lit "{}" |} |}.

(** Strictly ascending indices. *)
Fixpoint ascending (ks : list Z) : bool :=
  match ks with
  | k :: ((k' :: _) as rest) => Z.ltb k k' && ascending rest
  | _ => true
  end.

(** Entries described index by index, for indices without repetition. *)
Definition tabulate (f : Z -> ToolCall) (ks : list Z) : ToolCallMap :=
  map (fun k => (k, f k)) ks.

End AccumulatorSpec.

(* ===================================================================== *)
(** ** The callbacks of a run, in order *)
(* ===================================================================== *)

Module TraceSpec.
Import Accumulator Session Driver.

(** Only [onChunk] and [onReasoning] calls. *)
Definition isText (c : Call) : bool :=
  match c with onChunk _ | onReasoning _ => true | _ => false end.
Definition textOnly (l : list Call) : bool := forallb isText l.

Definition isDONE (e : SseData) : bool :=
  match e with DONE => true | _ => false end.
Definition countDONE (es : list SseData) : nat := length (filter isDONE es).

(** The read loop ends by [done] or by cancellation. *)
Definition endsQuietly (e : Ending) : bool :=
  match e with EndOfStream | ReadThrows AbortError => true | ReadThrows _ => false end.

(** The [onUsage] calls of a frame that carries a finish reason: the
    usage block of the handler and the finish-reason block both deliver
    the frame's usage. *)
Definition usageCalls (cb : StreamCallbacks) (json : Chunk) : list Call :=
  match usage json with
  | Some u => if hasOnUsage cb then [onUsage u; onUsage u] else []
  | None => []
  end.

(** The tool-call map once the deltas of the frame are merged in. *)
Definition mergedToolCalls (cb : StreamCallbacks) (json : Chunk) (st : State) : ToolCallMap :=
  match tool_calls json with
  | Some ds =>
      if hasOnToolCalls cb then accumulateAll (accumulatedToolCalls st) ds
      else accumulatedToolCalls st
  | None => accumulatedToolCalls st
  end.

Definition toolCallsCall (cb : StreamCallbacks) (m : ToolCallMap) : list Call :=
  if (0 <? length m) && hasOnToolCalls cb then [onToolCalls (finalize m)] else [].

(** The failure [streamChatCompletion] reports through [onError], with
    its message: a rejected [fetch] or [read] other than a cancellation,
    a response outside 2xx (the message of the response body when it has
    one, else [HTTP <status>: <statusText>]), or a response without a
    body. *)
Definition thrownMessage (e : Thrown) : option str :=
  match e with
  | AbortError => None
  | Error m => Some m
  | NotAnError => Some (lit "Unknown streaming error")
  end.

Definition failure (f : Fetch) : option str :=
  match f with
  | FetchThrows e => thrownMessage e
  | Response status statusText errorMessage body =>
      if negb (ok status) then
        Some (orElse errorMessage (lit "HTTP " ++ of_nat status ++ lit ": " ++ statusText))
      else
        match body with
        | None => Some (lit "No response body received")
        | Some b =>
            match ending b with
            | EndOfStream => None
            | ReadThrows e => thrownMessage e
            end
        end
  end.

(** [st'] comes from [st] by handing out text: the tool-call map is
    untouched and the new calls are [onChunk] and [onReasoning] only. *)
Definition Extends (st st' : State) : Prop :=
  accumulatedToolCalls st' = accumulatedToolCalls st /\
  exists l, calls st' = calls st ++ l /\ textOnly l = true.

End TraceSpec.

(* ===================================================================== *)
(** ** Base URL normalisation *)
(* ===================================================================== *)

Module UrlSpec.

Definition isSlash : ascii -> bool := Ascii.eqb "/"%char.

(** [s] without its trailing slashes. *)
Fixpoint stripTrailingSlashes (s : str) : str :=
  match s with
  | [] => []
  | c :: s' =>
      match stripTrailingSlashes s' with
      | [] => if isSlash c then [] else [c]
      | r => c :: r
      end
  end.

(** [s] ends with [/api], in any letter case. *)
Definition endsWithApi (s : str) : bool :=
  (4 <=? length s) && ci_prefix (lit "/api") (skipn (length s - 4) s).

(** [s] without one trailing [/api] segment. *)
Definition stripApiSuffix (s : str) : str :=
  if endsWithApi s then firstn (length s - 4) s else s.

(** The URL in the words of the claim. *)
Definition specUrl (baseUrl : str) : str :=
  stripApiSuffix (stripTrailingSlashes baseUrl) ++ lit "/api/chat/completions".

End UrlSpec.

(* ===================================================================== *)
(** ** Rounds of the orchestration loop *)
(* ===================================================================== *)

Module ThunkSpec.
Import Thunk.

(** The request of the round that starts from [l]. *)
Definition requestOf (env : Env) (l : Local) : Api.Request :=
  {| Api.messages := messages l;
     Api.tools := if hasTools env then Some (openAITools env) else None;
     Api.tool_choice := toolChoice (hasTools env) (iteration l) |}.

(** The callbacks of the streaming call of the round that starts from [l]. *)
Definition roundCalls (env : Env) (l : Local) : list Call :=
  provider env (iteration l) (requestOf env l).

(** The text a streaming call hands to [onChunk] before it settles. *)
Fixpoint streamed (cs : list Call) : str :=
  match cs with
  | [] => []
  | onComplete :: _ => []
  | onError _ :: _ => []
  | onChunk chunk :: cs' => chunk ++ streamed cs'
  | _ :: cs' => streamed cs'
  end.




Definition toolApi (r : Msg.ToolResult) : Api.t :=
  {| Api.role := Msg.tool; Api.content := contentString r; Api.tool_calls := None;
     Api.tool_call_id := Some (Msg.result_tool_call_id r);
     Api.name := Some (Msg.result_name r) |}.

(** [tool_choice] as the claim words it, for the request of round [k]. *)
Definition expectedChoice (env : Env) (k : nat) : Api.ToolChoice :=
  if negb (hasTools env) || (MAX_TOOL_ITERATIONS - 1 <=? k) then Api.none else Api.auto.




End ThunkSpec.

Module Scenarios.
Import Thunk.

(** A provider that asks for one tool on every round, and tools that
    answer. *)
Definition searchCall : ToolCall :=
  {| id := lit "call_1"; type := lit "function";
     function := {| name := lit "search"; arguments := lit "{}" |} |}.

Definition searchResult (failed : bool) : Msg.ToolResult :=
  {| Msg.result_tool_call_id := lit "call_1"; Msg.result_name := lit "search";
     Msg.result_content := Msg.Text (lit "no result"); Msg.isError := failed;
     Msg.hasUI := false; Msg.uiResource := None |}.

Definition alwaysCalling : Env :=
  {| hasTools := true; openAITools := [lit "search"];
     provider := fun _ _ => [onChunk (lit "Let me look."); onToolCalls [searchCall]; onComplete];
     executeToolCalls := fun _ => Returned [searchResult false];
     jsonParseError := fun _ => None;
     uuidv4 := fun k => k |}.









End Scenarios.

(* ===================================================================== *)
(** ** Invariants of the splitter *)
(* ===================================================================== *)

Module Invariants.
Import Session Reference.

(** What the splitter relies on in a marker expression: a match is at
    most 11 code units long, is decided by the code units it covers, and
    holds exactly one [<], its first code unit. *)
Record TagLike (m : matcher) : Prop := {
  tag_bound : forall s n, m s = Some n -> 0 < n <= 11 /\ n <= length s;
  tag_ext : forall s t n, m s = Some n -> m (s ++ t) = Some n;
  tag_local : forall s n, m s = Some n -> m (firstn n s) = Some n;
  tag_head : forall s n, m s = Some n ->
    exists u, s = "<"%char :: u /\ includes "<"%char (firstn (n - 1) u) = false
}.

Definition withAcc (pc pr : str) (p : Processed) : Processed :=
  {| inside' := inside' p; buffer' := buffer' p;
     processedContent := pc ++ processedContent p;
     processedReasoning := pr ++ processedReasoning p |}.

(** What the loop hands out, followed by the specification's split of what
    it keeps, is the specification's split [(c, r)] of the whole. *)
Definition Resumes (p : Processed) (future c r : str) : Prop :=
  exists c' r',
    Split (inside' p) (buffer' p ++ future) c' r' /\
    c = processedContent p ++ c' /\ r = processedReasoning p ++ r'.

(** After the loop no marker the current state looks for is left in the
    buffer. *)
Definition Saturated (inside : bool) (buf : str) : Prop :=
  closeMatch buf = None /\ (inside = false -> openMatch buf = None).

(** The reasoning that reaches the caller: none without [onReasoning]. *)
Definition rfilter (cb : StreamCallbacks) (r : str) : str :=
  if hasOnReasoning cb then r else [].

(** Format known: what was handed out, followed by the specification's
    split of the buffer and of the text to come, is the split [(c, r)]
    of the whole text. Without [onReasoning] the reasoning is dropped. *)
Definition Known (cb : StreamCallbacks) (st : State) (future c r : str) : Prop :=
  formatDetected st = true /\
  Saturated (isInsideThinkBlock st) (pendingBuffer st) /\
  exists c' r',
    Split (isInsideThinkBlock st) (pendingBuffer st ++ future) c' r' /\
    c = contentOf (calls st) ++ c' /\
    rfilter cb r = reasoningOf (calls st) ++ rfilter cb r'.

(** Format not known yet: everything is still in the buffer. *)
Definition Detecting (st : State) (future c r : str) : Prop :=
  formatDetected st = false /\
  isInsideThinkBlock st = false /\
  openMatch (pendingBuffer st) = None /\
  closeMatch (pendingBuffer st) = None /\
  contentOf (calls st) = [] /\
  reasoningOf (calls st) = [] /\
  Split false (pendingBuffer st ++ future) c r.

(** The end marker is not complete yet: nothing was handed out, and if
    the threshold was passed, the [<] of the marker is in the buffer. *)
Definition Implicit (t : str) (i n : nat) (st : State) (future : str) : Prop :=
  isInsideThinkBlock st = false /\
  contentOf (calls st) = [] /\
  reasoningOf (calls st) = [] /\
  pendingBuffer st ++ future = t /\
  length (pendingBuffer st) < i + n /\
  (formatDetected st = true -> i < length (pendingBuffer st)).

End Invariants.

(* ===================================================================== *)
(** ** What the driver hands to its callbacks *)
(* ===================================================================== *)

Module DriverSpec.
Import Accumulator Session Driver.

(** The payload of a call is not empty: text for [onChunk] and
    [onReasoning], a list of tool calls for [onToolCalls]. *)
Definition nonEmptyPayload (c : Call) : bool :=
  match c with
  | onChunk s => nonempty s
  | onReasoning s => nonempty s
  | onToolCalls toolCalls => 0 <? length toolCalls
  | _ => true
  end.

(** The callback of a call is one the caller supplied; [onChunk],
    [onComplete] and [onError] are mandatory. *)
Definition supplied (cb : StreamCallbacks) (c : Call) : bool :=
  match c with
  | onToolCalls _ => hasOnToolCalls cb
  | onReasoning _ => hasOnReasoning cb
  | onUsage _ => hasOnUsage cb
  | _ => true
  end.

(** The payloads of the [onUsage] calls of a trace. *)
Fixpoint usagesOf (t : list Call) : list MessageUsage :=
  match t with
  | [] => []
  | onUsage u :: t' => u :: usagesOf t'
  | _ :: t' => usagesOf t'
  end.

(** The usage one event delivers: a frame's [usage] once, and once more
    when the frame also carries a finish reason. *)
Definition usageOf (cb : StreamCallbacks) (e : SseData) : list MessageUsage :=
  match e with
  | Json json =>
      match usage json with
      | Some u =>
          if hasOnUsage cb
          then (if truthy (finish_reason json) then [u; u] else [u])
          else []
      | None => []
      end
  | _ => []
  end.

(** The tool-call deltas one event carries. *)
Definition deltasOf (e : SseData) : list ToolCallDelta :=
  match e with
  | Json json => match tool_calls json with Some ds => ds | None => [] end
  | _ => []
  end.

(** A frame that carries a finish reason. *)
Definition finishFrame (json : Chunk) : bool := truthy (finish_reason json).

(** The event with everything but the content of its frame removed. *)
Definition contentPart (e : SseData) : SseData :=
  match e with
  | Json json =>
      Json {| content := content json; tool_calls := None; reasoning := None;
              usage := None; finish_reason := None |}
  | _ => e
  end.

(** Two sessions agree on the splitter and on the content handed out. *)
Definition SameContent (st st' : State) : Prop :=
  formatDetected st = formatDetected st' /\
  isInsideThinkBlock st = isInsideThinkBlock st' /\
  pendingBuffer st = pendingBuffer st' /\
  contentOf (calls st) = contentOf (calls st').

(** The length of the text handed out so far. *)
Definition handedOut (st : State) : nat :=
  length (contentOf (calls st)) + length (reasoningOf (calls st)).

(** What the splitter holds back. Before the format is known, less than
    the detection threshold. Afterwards at most 15 code units, or, outside
    a think block and with a [<] among the last 15 code units, a buffer of
    any length. *)
Definition HoldsBack (st : State) : Prop :=
  if formatDetected st then
    length (pendingBuffer st) <= 15 \/
    (isInsideThinkBlock st = false /\
     includes "<"%char (slice_last 15 (pendingBuffer st)) = true)
  else length (pendingBuffer st) < FORMAT_DETECTION_THRESHOLD.

(** A fragment of at most 15 code units with a [<] in it. *)
Definition nearMarker (fragment : str) : bool :=
  includes "<"%char fragment && (length fragment <=? 15).

(** The call that settles the caller's promise. *)
Definition settles (c : Call) : bool :=
  match c with
  | onComplete => true
  | onError _ => true
  | _ => false
  end.

(** Sample frames: one that carries a tool-call delta, one that carries
    a finish reason. *)
Definition toolFrame : SseData :=
  Json {| content := None;
          tool_calls :=
            Some [ {| index := 0; delta_id := Some (lit "call_1"); delta_type := None;
                      delta_function :=
                        Some {| delta_name := Some (lit "search");
                                delta_arguments := None |} |} ];
          reasoning := None; usage := None; finish_reason := None |}.

Definition stopFrame : Chunk :=
  {| content := None; tool_calls := None; reasoning := None; usage := None;
     finish_reason := Some (lit "tool_calls") |}.

End DriverSpec.

(* ===================================================================== *)
(** ** Histories of the chat slice *)
(* ===================================================================== *)

Module ChatSpec.
Import ChatSlice.

(** The two messages a plain turn adds to the history. *)
Definition userMessage (id : nat) (content : str) (attachments : option (list str)) : Msg.t :=
  {| Msg.id := id; Msg.role := Msg.user; Msg.content := content;
     Msg.attachments := attachments; Msg.toolCalls := None;
     Msg.tool_call_id := None; Msg.name := None; Msg.toolResults := None |}.

Definition assistantReply (id : nat) (content : str) : Msg.t :=
  {| Msg.id := id; Msg.role := Msg.assistant; Msg.content := content;
     Msg.attachments := None; Msg.toolCalls := None;
     Msg.tool_call_id := None; Msg.name := None; Msg.toolResults := None |}.

(** The reply stored for a streaming call that made the callbacks [cs],
    on top of the text [sofar] streamed before: the text handed to
    [onChunk] before the first [onComplete] or [onError], when there is
    such a call and the text is not empty. *)
Definition storedReply (id : nat) (sofar : str) (cs : list Call) : list Msg.t :=
  match Thunk.settled cs with
  | Thunk.NeverSettles => []
  | _ =>
      if nonempty (sofar ++ ThunkSpec.streamed cs)
      then [assistantReply id (sofar ++ ThunkSpec.streamed cs)]
      else []
  end.

(** A message has the identifier [id]. *)
Definition hasId (id : nat) (m : Msg.t) : bool := Msg.id m =? id.

(** [m] with its [toolResults] replaced. *)
Definition withToolResults (results : list Msg.ToolResult) (m : Msg.t) : Msg.t :=
  {| Msg.id := Msg.id m; Msg.role := Msg.role m; Msg.content := Msg.content m;
     Msg.attachments := Msg.attachments m; Msg.toolCalls := Msg.toolCalls m;
     Msg.tool_call_id := Msg.tool_call_id m; Msg.name := Msg.name m;
     Msg.toolResults := Some results |}.

(** What a UI action must leave alone in a message: everything but the
    payload of its tool results, whose identifiers stay. *)
Definition skeleton (m : Msg.t)
  : nat * Msg.Role * str * option (list str) * option (list ToolCall)
    * option str * option str * option (list str) :=
  (Msg.id m, Msg.role m, Msg.content m, Msg.attachments m, Msg.toolCalls m,
   Msg.tool_call_id m, Msg.name m,
   option_map (map Msg.result_tool_call_id) (Msg.toolResults m)).

End ChatSpec.

(* ===================================================================== *)
(** ** Every run of the orchestration loop *)
(* ===================================================================== *)

Module TurnSpec.
Import Thunk ThunkSpec.

(** The slice is at rest: nothing is streaming, no tool call is
    pending or running, and the iteration counter is back at zero. *)
Definition idle (st : Slice.ChatState) : Prop :=
  Slice.isStreaming st = false /\
  Slice.streamingMessageId st = None /\
  Slice.streamingContent st = [] /\
  Slice.abortController st = false /\
  Slice.pendingToolCalls st = [] /\
  Slice.isExecutingTools st = false /\
  Slice.toolCallIteration st = 0.

(** The assistant message the loop adds to the context after a
    streaming call that made the callbacks [cs]: the text they handed to
    [onChunk], and the tool calls of the last [onToolCalls]. *)
Definition replyApi (cs : list Call) : Api.t :=
  {| Api.role := Msg.assistant; Api.content := contentOf cs;
     Api.tool_calls := Some (delivered cs []);
     Api.tool_call_id := None; Api.name := None |}.

(** The messages [after] are what round [k], with request [req], makes
    of the context: the streaming call resolved with tool calls, the tools
    returned, and [after] is the messages of [req], then the assistant
    message of the round, then one tool message for each result the tools
    returned for its calls, in their order. *)
Definition Extended (env : Env) (k : nat) (req : Api.Request) (after : list Api.t) : Prop :=
  settled (provider env k req) = Resolved /\
  delivered (provider env k req) [] <> [] /\
  exists results,
    executeToolCalls env (delivered (provider env k req) []) = Returned results /\
    after = Api.messages req ++ replyApi (provider env k req) :: map toolApi results.

(** Each request of the list but the first extends the one before it. *)
Definition Chained (env : Env) (requests : list Api.Request) : Prop :=
  forall k r1 r2,
    nth_error requests k = Some r1 -> nth_error requests (S k) = Some r2 ->
    Extended env k r1 (Api.messages r2).

(** The messages of the first request of a turn. *)
Definition firstContext (state : Slice.ChatState) (content : str) : list Api.t :=
  map apiMessage (Slice.messages state)
    ++ [ {| Api.role := Msg.user; Api.content := content; Api.tool_calls := None;
            Api.tool_call_id := None; Api.name := None |} ].

(** What the requests sent so far and the local variables have in
    common at the head of the loop: the requests are chained, start from
    [first], each has the [tool_choice] of its round, and [messages] is
    [first] when nothing was sent and extends the last request
    otherwise. *)
Definition RequestsSent (env : Env) (first : list Api.t) (requests : list Api.Request) : Prop :=
  (forall k req, nth_error requests k = Some req ->
                 Api.tool_choice req = expectedChoice env k) /\
  (forall req, nth_error requests 0 = Some req -> Api.messages req = first) /\
  Chained env requests.

Definition AtHead (env : Env) (first : list Api.t) (l : Local) : Prop :=
  length (requests l) = iteration l /\
  iteration l <= MAX_TOOL_ITERATIONS /\
  RequestsSent env first (requests l) /\
  match rev (requests l) with
  | [] => messages l = first
  | last :: _ => Extended env (pred (iteration l)) last (messages l)
  end.

End TurnSpec.

(* ===================================================================== *)
(** ** Plugins in registration order *)
(* ===================================================================== *)

Module RegistrySpec.

(** The component the last plugin of the list that defines [k] gives
    it. *)
Fixpoint lastDefining {U C X N : Type} (k : str)
    (plugins : list (PluginTypes.MarkdownExtensionPlugin U C X N)) : option C :=
  match plugins with
  | [] => None
  | plugin :: plugins' =>
      match lastDefining k plugins' with
      | Some c => Some c
      | None =>
          match PluginTypes.components plugin with
          | Some cs => cs k
          | None => None
          end
      end
  end.

(** The plugin has no pre-processor, or its pre-processor throws on
    every content in the context. *)
Definition neverPreProcesses {U C X N : Type} (context : X)
    (plugin : PluginTypes.MarkdownExtensionPlugin U C X N) : Prop :=
  match PluginTypes.preProcess plugin with
  | Some f => forall content, f content context = None
  | None => True
  end.

(** What every operation of the registry keeps: [extensionOrder] is the
    list of the keys of the map, and no key is repeated. *)
Definition WellFormed {U C X N : Type} (r : Registry.PluginRendererRegistry U C X N) : Prop :=
  Registry.extensionOrder r = StrMap.keys (Registry.extensionPlugins r) /\
  NoDup (StrMap.keys (Registry.extensionPlugins r)).

(** Sample plugins: one that contributes a remark plugin, one whose
    pre-processor throws, one that appends an exclamation mark. *)
Definition remarkOnly (plugin : nat) : PluginTypes.MarkdownExtensionPlugin nat nat unit unit :=
  {| PluginTypes.remarkPlugins := Some [plugin]; PluginTypes.rehypePlugins := None;
     PluginTypes.components := None; PluginTypes.preProcess := None;
     PluginTypes.postProcess := None |}.

Definition broken : PluginTypes.MarkdownExtensionPlugin nat nat unit unit :=
  {| PluginTypes.remarkPlugins := None; PluginTypes.rehypePlugins := None;
     PluginTypes.components := None;
     PluginTypes.preProcess := Some (fun _ _ => None);
     PluginTypes.postProcess := None |}.

Definition shout : PluginTypes.MarkdownExtensionPlugin nat nat unit unit :=
  {| PluginTypes.remarkPlugins := None; PluginTypes.rehypePlugins := None;
     PluginTypes.components := None;
     PluginTypes.preProcess := Some (fun s _ => Some (s ++ lit "!"));
     PluginTypes.postProcess := None |}.

End RegistrySpec.

(* ===================================================================== *)
(** ** Trace identifiers *)
(* ===================================================================== *)

Module LoggerSpec.
Import Logger.

Definition isHexDigit (c : ascii) : bool :=
  let n := nat_of_ascii c in
  ((48 <=? n) && (n <=? 57)) || ((97 <=? n) && (n <=? 102)).

(** What stands at a position of a trace identifier, given the
    character of the template there: a hexadecimal digit for [x], one of
    [8], [9], [a], [b] for [y], the character itself otherwise. *)
Definition fits (t c : ascii) : bool :=
  if Ascii.eqb t "x" then isHexDigit c
  else if Ascii.eqb t "y" then existsb (Ascii.eqb c) (lit "89ab")
  else Ascii.eqb c t.

Fixpoint fitsAll (template id : str) : bool :=
  match template, id with
  | [], [] => true
  | t :: template', c :: id' => fits t c && fitsAll template' id'
  | _, _ => false
  end.

Definition entryOf (o : Output) : LogEntry :=
  match o with Console e => e | File e => e end.

End LoggerSpec.

(* ===================================================================== *)
(** ** The earlier driver against the present one *)
(* ===================================================================== *)

Module LegacySpec.

(** The content a frame carries. *)
Definition contentField (e : SseData) : str :=
  match e with
  | Json json => orElse (content json) []
  | _ => []
  end.

(** The trailing [/api] of a base URL without its trailing slashes, as
    it is written there. *)
Definition apiSuffix (baseUrl : str) : str :=
  let s := UrlSpec.stripTrailingSlashes baseUrl in
  if UrlSpec.endsWithApi s then skipn (length s - 4) s else [].

End LegacySpec.

(* ##################################################################### *)
(** * Part III: lemmas *)
(* ##################################################################### *)

(* ===================================================================== *)
(** ** Slices and the marker expressions *)
(* ===================================================================== *)

Module StrFacts.

Lemma nonempty_false (s : str) : nonempty s = false -> s = [].
Proof. destruct s; [reflexivity | discriminate]. Qed.

Lemma nonempty_length (s : str) : nonempty s = (0 <? length s).
Proof. destruct s; reflexivity. Qed.

Lemma firstn_firstn_skipn (k i : nat) (s : str) :
  k <= i -> firstn i s = firstn k s ++ firstn (i - k) (skipn k s).
Proof.
  intros Hk. rewrite <- (firstn_skipn k s) at 1.
  rewrite firstn_app.
  destruct (le_lt_dec (length s) k) as [Hlen | Hlen].
  - rewrite firstn_all2 with (n := i) by (rewrite length_firstn; lia).
    rewrite (skipn_all2 s) by lia. now rewrite !firstn_nil.
  - rewrite length_firstn, Nat.min_l by lia.
    rewrite firstn_all2 with (n := i) by (rewrite length_firstn; lia).
    reflexivity.
Qed.

Lemma skipn_skipn_add (k i : nat) (s : str) :
  skipn i (skipn k s) = skipn (k + i) s.
Proof. rewrite skipn_skipn. f_equal. lia. Qed.

Lemma skipn_app_le (k : nat) (s t : str) :
  k <= length s -> skipn k (s ++ t) = skipn k s ++ t.
Proof.
  intros Hk. rewrite skipn_app.
  replace (k - length s) with 0 by lia. reflexivity.
Qed.

Lemma firstn_app_le (k : nat) (s t : str) :
  k <= length s -> firstn k (s ++ t) = firstn k s.
Proof.
  intros Hk. rewrite firstn_app.
  replace (k - length s) with 0 by lia.
  now rewrite firstn_O, app_nil_r.
Qed.

(** A code unit of [s] at a position inside its last [k] ones. *)
Lemma includes_slice_last (c : ascii) (k i : nat) (s u : str) :
  skipn i s = c :: u -> length s - k <= i ->
  includes c (slice_last k s) = true.
Proof.
  intros Hi Hk. unfold includes, slice_last.
  replace i with ((length s - k) + (i - (length s - k))) in Hi by lia.
  rewrite <- skipn_skipn_add in Hi.
  apply existsb_exists. exists c. split; [| apply Ascii.eqb_refl].
  rewrite <- (firstn_skipn (i - (length s - k)) (skipn (length s - k) s)).
  rewrite Hi. apply in_or_app. right. now left.
Qed.

Lemma to_lower_lt (a : ascii) : to_lower a = "<"%char -> a = "<"%char.
Proof.
  destruct a as [[] [] [] [] [] [] [] []]; vm_compute; intros H;
    first [reflexivity | discriminate H].
Qed.

(** A pattern character other than [<] never matches [<]. *)
Lemma ci_eqb_lt (a c : ascii) :
  ci_eqb a c = true -> Ascii.eqb "<"%char a = false -> Ascii.eqb "<"%char c = false.
Proof.
  unfold ci_eqb. intros H Ha.
  destruct (Ascii.eqb "<"%char c) eqn:Hc; [| reflexivity].
  apply Ascii.eqb_eq in Hc. subst c. apply Ascii.eqb_eq in H.
  change (to_lower "<"%char) with "<"%char in H.
  apply to_lower_lt in H. subst a. discriminate Ha.
Qed.

Lemma ci_eqb_lt_head (c : ascii) : ci_eqb "<"%char c = true -> c = "<"%char.
Proof.
  unfold ci_eqb. intros H. apply Ascii.eqb_eq in H.
  change (to_lower "<"%char) with "<"%char in H.
  symmetry in H. now apply to_lower_lt.
Qed.

Lemma ci_prefix_length (p s : str) : ci_prefix p s = true -> length p <= length s.
Proof.
  revert s. induction p as [| a p IH]; intros [| c s]; simpl; try lia; try discriminate.
  intros H. apply andb_prop in H. destruct H as [_ H]. apply IH in H. lia.
Qed.

Lemma ci_prefix_app_r (p s t : str) :
  ci_prefix p s = true -> ci_prefix p (s ++ t) = true.
Proof.
  revert s. induction p as [| a p IH]; intros [| c s]; simpl; try reflexivity; try discriminate.
  intros H. apply andb_prop in H. destruct H as [H1 H2].
  rewrite H1. simpl. now apply IH.
Qed.

Lemma ci_prefix_firstn (p s : str) (k : nat) :
  length p <= k -> ci_prefix p (firstn k s) = ci_prefix p s.
Proof.
  revert s k. induction p as [| a p IH]; intros s k Hk; [reflexivity |].
  destruct k as [| k]; [simpl in Hk; lia |].
  destruct s as [| c s]; [reflexivity |].
  simpl. rewrite IH by (simpl in Hk; lia). reflexivity.
Qed.

Lemma ci_prefix_app (p q s : str) :
  ci_prefix (p ++ q) s = ci_prefix p s && ci_prefix q (skipn (length p) s).
Proof.
  revert s. induction p as [| a p IH]; intros s; [reflexivity |].
  destruct s as [| c s]; [reflexivity |].
  simpl. rewrite IH. now rewrite andb_assoc.
Qed.

(** Behind a match of [p], no [<] unless [p] has one. *)
Lemma ci_prefix_no_lt (p s : str) :
  ci_prefix p s = true -> includes "<"%char p = false ->
  includes "<"%char (firstn (length p) s) = false.
Proof.
  revert s. induction p as [| a p IH]; intros s H Hp; [reflexivity |].
  destruct s as [| c s]; [discriminate H |].
  unfold includes in *. cbn [ci_prefix existsb firstn length] in *.
  apply andb_prop in H. destruct H as [H1 H2].
  apply orb_false_elim in Hp. destruct Hp as [Ha Hp].
  rewrite (ci_eqb_lt _ _ H1 Ha). cbn [orb]. now apply IH.
Qed.

End StrFacts.

Module TagFacts.
Import Invariants StrFacts.

Lemma ci_eqb_trans_l (a b c : ascii) :
  ci_eqb a c = true -> ci_eqb b c = ci_eqb b a.
Proof.
  unfold ci_eqb. intros H. apply Ascii.eqb_eq in H. now rewrite H.
Qed.

(** After [head], the two ways of finishing the marker exclude each other. *)
Lemma tail_exclusive (rest : str) :
  ci_prefix (lit ">") rest = true -> forall t, ci_prefix (lit "ing>") (rest ++ t) = false.
Proof.
  destruct rest as [| c rest]; [discriminate |].
  cbn. intros H t. apply andb_prop in H. destruct H as [H _].
  rewrite (ci_eqb_trans_l ">"%char "i"%char c H). reflexivity.
Qed.

Lemma tag_at_inv (head s : str) (n : nat) :
  tag_at head s = Some n ->
  exists q, (q = lit "ing>" \/ q = lit ">") /\ n = length (head ++ q) /\
            ci_prefix (head ++ q) s = true.
Proof.
  unfold tag_at. intros H.
  destruct (ci_prefix head s) eqn:Hh; [| discriminate].
  destruct (ci_prefix (lit "ing>") (skipn (length head) s)) eqn:H1.
  - exists (lit "ing>"). injection H as <-. rewrite ci_prefix_app, Hh, H1, length_app.
    auto.
  - destruct (ci_prefix (lit ">") (skipn (length head) s)) eqn:H2; [| discriminate].
    exists (lit ">"). injection H as <-. rewrite ci_prefix_app, Hh, H2, length_app.
    auto.
Qed.

Lemma tag_at_ext (head s t : str) (n : nat) :
  tag_at head s = Some n -> tag_at head (s ++ t) = Some n.
Proof.
  unfold tag_at. intros H.
  destruct (ci_prefix head s) eqn:Hh; [| discriminate].
  rewrite (ci_prefix_app_r _ _ t Hh).
  rewrite skipn_app_le by now apply ci_prefix_length.
  destruct (ci_prefix (lit "ing>") (skipn (length head) s)) eqn:H1.
  - now rewrite (ci_prefix_app_r _ _ t H1).
  - destruct (ci_prefix (lit ">") (skipn (length head) s)) eqn:H2; [| discriminate].
    now rewrite (tail_exclusive _ H2 t), (ci_prefix_app_r _ _ t H2).
Qed.

Lemma tag_at_local (head s : str) (n : nat) :
  tag_at head s = Some n -> tag_at head (firstn n s) = Some n.
Proof.
  unfold tag_at. intros H.
  destruct (ci_prefix head s) eqn:Hh; [| discriminate].
  assert (Hn : length head + 1 <= n).
  { destruct (ci_prefix (lit "ing>") (skipn (length head) s));
      [| destruct (ci_prefix (lit ">") (skipn (length head) s))];
      inversion H; lia. }
  rewrite ci_prefix_firstn, Hh by lia.
  assert (Hrest : skipn (length head) (firstn n s)
                  = firstn (n - length head) (skipn (length head) s)).
  { rewrite firstn_skipn_comm. do 2 f_equal. lia. }
  rewrite Hrest. clear Hrest.
  destruct (ci_prefix (lit "ing>") (skipn (length head) s)) eqn:H1.
  - injection H as <-. replace (length head + 4 - length head) with 4 by lia.
    rewrite ci_prefix_firstn by (cbn; lia). now rewrite H1.
  - destruct (ci_prefix (lit ">") (skipn (length head) s)) eqn:H2; [| discriminate].
    injection H as <-. replace (length head + 1 - length head) with 1 by lia.
    rewrite (ci_prefix_firstn (lit ">")) by (cbn; lia). rewrite H2.
    destruct (ci_prefix (lit "ing>") (firstn 1 (skipn (length head) s))) eqn:H3;
      [| reflexivity].
    apply ci_prefix_length in H3. rewrite length_firstn in H3.
    change (length (lit "ing>")) with 4 in H3. lia.
Qed.

Lemma tag_at_TagLike (h : str) :
  includes "<"%char h = false -> length h <= 6 ->
  TagLike (tag_at ("<"%char :: h)).
Proof.
  intros Hh Hlen. split.
  - intros s n H. apply tag_at_inv in H. destruct H as (q & Hq & -> & Hp).
    apply ci_prefix_length in Hp.
    destruct Hq as [-> | ->]; rewrite length_app in *; cbn in *; lia.
  - intros s t n. apply tag_at_ext.
  - intros s n. apply tag_at_local.
  - intros s n H. apply tag_at_inv in H. destruct H as (q & Hq & -> & Hp).
    destruct s as [| c u]; [discriminate Hp |].
    cbn [app ci_prefix] in Hp. apply andb_prop in Hp. destruct Hp as [Hc Hp].
    apply ci_eqb_lt_head in Hc. subst c. exists u. split; [reflexivity |].
    cbn [app length]. rewrite Nat.sub_succ, Nat.sub_0_r.
    apply ci_prefix_no_lt; [exact Hp |].
    unfold includes in *. rewrite existsb_app, Hh.
    destruct Hq as [-> | ->]; reflexivity.
Qed.

Lemma open_TagLike : TagLike open_at.
Proof. apply (tag_at_TagLike (lit "think")); [reflexivity | cbn; lia]. Qed.

Lemma close_TagLike : TagLike close_at.
Proof. apply (tag_at_TagLike (lit "/think")); [reflexivity | cbn; lia]. Qed.

End TagFacts.

Module FindFacts.
Import Invariants StrFacts TagFacts.

Lemma includes_firstn (c : ascii) (j p : nat) (u v : str) :
  skipn j u = c :: v -> j < p -> includes c (firstn p u) = true.
Proof.
  intros Hj Hp. unfold includes. apply existsb_exists.
  exists c. split; [| apply Ascii.eqb_refl].
  rewrite (firstn_firstn_skipn j p u) by lia. apply in_or_app. right.
  rewrite Hj. destruct (p - j) eqn:E; [lia |]. now left.
Qed.

(** Two matches never overlap: the second would put a [<] inside the first. *)
Lemma no_overlap (m1 m2 : matcher) (s : str) (n k n2 : nat) :
  TagLike m1 -> TagLike m2 ->
  m1 s = Some n -> 0 < k < n -> m2 (skipn k s) = Some n2 -> False.
Proof.
  intros H1 H2 Hs Hk Hk2.
  destruct (tag_head _ H1 _ _ Hs) as (u & -> & Hu).
  destruct (tag_head _ H2 _ _ Hk2) as (v & Hv & _).
  destruct k as [| k]; [lia |]. cbn [skipn] in Hv.
  rewrite (includes_firstn "<"%char k (n - 1) u v Hv) in Hu by lia.
  discriminate Hu.
Qed.

Lemma match_before (m1 m2 : matcher) (s : str) (i n j k : nat) :
  TagLike m1 -> TagLike m2 ->
  m1 (skipn i s) = Some n -> m2 (skipn j s) = Some k -> i < j -> i + n <= j.
Proof.
  intros H1 H2 Hi Hj Hlt.
  destruct (le_lt_dec (i + n) j) as [Hle | Hgt]; [exact Hle | exfalso].
  apply (no_overlap m1 m2 (skipn i s) n (j - i) k H1 H2 Hi); [lia |].
  rewrite skipn_skipn_add. now replace (i + (j - i)) with j by lia.
Qed.

Section OneMatcher.
Variable m : matcher.
Hypothesis Hm : TagLike m.

Lemma m_nil : m [] = None.
Proof.
  destruct (m []) as [n |] eqn:E; [| reflexivity].
  apply (tag_bound _ Hm) in E. cbn in E. lia.
Qed.

Lemma m_length (s : str) (n : nat) : m s = Some n -> 0 < n <= length s.
Proof. intros H. apply (tag_bound _ Hm) in H. lia. Qed.

Lemma m_restrict (s t : str) (n : nat) :
  m (s ++ t) = Some n -> n <= length s -> m s = Some n.
Proof.
  intros H Hn. apply (tag_local _ Hm) in H.
  rewrite firstn_app_le in H by exact Hn.
  apply (tag_ext _ Hm) with (t := skipn n s) in H.
  now rewrite firstn_skipn in H.
Qed.

Lemma find_Some_inv (s : str) (i n : nat) :
  find m s = Some (i, n) ->
  i + n <= length s /\ m (skipn i s) = Some n /\
  forall j, j < i -> m (skipn j s) = None.
Proof.
  revert i. induction s as [| c s IH]; intros i; cbn [find].
  - rewrite m_nil. discriminate.
  - destruct (m (c :: s)) as [n0 |] eqn:E.
    + intros H. injection H as <- <-. cbn [skipn].
      pose proof (m_length _ _ E). repeat split; [lia | exact E | lia].
    + destruct (find m s) as [[i0 n0] |] eqn:F; [| discriminate].
      intros H. injection H as <- <-.
      destruct (IH _ eq_refl) as (Hlen & Hat & Hbefore).
      cbn [skipn length]. repeat split; [lia | exact Hat |].
      intros [| j] Hj; [exact E |]. cbn [skipn]. apply Hbefore. lia.
Qed.

Lemma find_None_inv (s : str) :
  find m s = None -> forall j, m (skipn j s) = None.
Proof.
  induction s as [| c s IH]; cbn [find]; intros H j.
  - rewrite skipn_nil. apply m_nil.
  - destruct (m (c :: s)) eqn:E; [discriminate |].
    destruct (find m s) as [[i0 n0] |] eqn:F; [discriminate |].
    destruct j as [| j]; [exact E |]. cbn [skipn]. now apply IH.
Qed.

Lemma find_Some_intro (s : str) (i n : nat) :
  m (skipn i s) = Some n -> (forall j, j < i -> m (skipn j s) = None) ->
  find m s = Some (i, n).
Proof.
  revert s. induction i as [| i IH]; intros s Hat Hbefore.
  - cbn [skipn] in Hat. destruct s; cbn [find]; now rewrite Hat.
  - destruct s as [| c s]; [cbn [skipn] in Hat; rewrite m_nil in Hat; discriminate |].
    pose proof (Hbefore 0 ltac:(lia)) as H0. cbn [skipn] in H0.
    cbn [find]. rewrite H0.
    rewrite (IH s); [reflexivity | exact Hat |].
    intros j Hj. apply (Hbefore (S j)). lia.
Qed.

Lemma find_None_intro (s : str) :
  (forall j, m (skipn j s) = None) -> find m s = None.
Proof.
  induction s as [| c s IH]; intros H; cbn [find].
  - now rewrite m_nil.
  - pose proof (H 0) as H0. cbn [skipn] in H0.
    rewrite H0. rewrite IH; [reflexivity |].
    intros j. apply (H (S j)).
Qed.

(** A match found in the buffer stays the first one when more text
    arrives. *)
Lemma find_app_l (b f : str) (i n : nat) :
  find m b = Some (i, n) -> find m (b ++ f) = Some (i, n).
Proof.
  intros H. apply find_Some_inv in H. destruct H as (Hlen & Hat & Hbefore).
  apply find_Some_intro.
  - rewrite skipn_app_le by lia. now apply (tag_ext _ Hm).
  - intros j Hj.
    destruct (m (skipn j (b ++ f))) as [n' |] eqn:E; [exfalso | reflexivity].
    assert (Hi : m (skipn i (b ++ f)) = Some n).
    { rewrite skipn_app_le by lia. now apply (tag_ext _ Hm). }
    pose proof (match_before m m (b ++ f) j n' i n Hm Hm E Hi Hj) as Hle.
    rewrite skipn_app_le in E by lia.
    apply m_restrict in E; [| rewrite length_skipn; lia].
    rewrite (Hbefore j Hj) in E. discriminate.
Qed.

Lemma find_skipn (s : str) (i n k : nat) :
  find m s = Some (i, n) -> k <= i -> find m (skipn k s) = Some (i - k, n).
Proof.
  intros H Hk. apply find_Some_inv in H. destruct H as (Hlen & Hat & Hbefore).
  apply find_Some_intro.
  - rewrite skipn_skipn_add. now replace (k + (i - k)) with i by lia.
  - intros j Hj. rewrite skipn_skipn_add. apply Hbefore. lia.
Qed.

Lemma find_skipn_None (s : str) (k : nat) :
  find m s = None -> find m (skipn k s) = None.
Proof.
  intros H. apply find_None_intro. intros j.
  rewrite skipn_skipn_add. now apply find_None_inv.
Qed.

Lemma find_prefix_None (b f : str) :
  find m (b ++ f) = None -> find m b = None.
Proof.
  intros H. apply find_None_intro. intros j.
  destruct (m (skipn j b)) as [n |] eqn:E; [| reflexivity].
  pose proof (m_length _ _ E) as Hn. rewrite length_skipn in Hn.
  apply (tag_ext _ Hm) with (t := f) in E.
  rewrite <- skipn_app_le in E by lia.
  now rewrite (find_None_inv _ H j) in E.
Qed.

Lemma find_prefix_Some (b f : str) (i n : nat) :
  find m (b ++ f) = Some (i, n) -> i + n <= length b -> find m b = Some (i, n).
Proof.
  intros H Hin. apply find_Some_inv in H. destruct H as (Hlen & Hat & Hbefore).
  apply find_Some_intro.
  - rewrite skipn_app_le in Hat by lia.
    apply m_restrict in Hat; [exact Hat | rewrite length_skipn; lia].
  - intros j Hj.
    destruct (m (skipn j b)) as [n' |] eqn:E; [| reflexivity].
    apply (tag_ext _ Hm) with (t := f) in E.
    rewrite <- skipn_app_le in E by lia.
    now rewrite (Hbefore j Hj) in E.
Qed.

(** A marker of which the buffer holds only a part is not found yet. *)
Lemma find_prefix_short (b f : str) (i n : nat) :
  find m (b ++ f) = Some (i, n) -> length b < i + n -> find m b = None.
Proof.
  intros H Hin. apply find_Some_inv in H. destruct H as (Hlen & Hat & Hbefore).
  apply find_None_intro. intros j.
  destruct (m (skipn j b)) as [n' |] eqn:E; [exfalso | reflexivity].
  pose proof (m_length _ _ E) as Hn. rewrite length_skipn in Hn.
  apply (tag_ext _ Hm) with (t := f) in E.
  rewrite <- skipn_app_le in E by lia.
  destruct (lt_eq_lt_dec j i) as [[Hlt | Heq] | Hgt].
  - rewrite (Hbefore j Hlt) in E. discriminate.
  - subst j. rewrite Hat in E. injection E as <-. lia.
  - pose proof (match_before m m (b ++ f) i n j n' Hm Hm Hat E Hgt). lia.
Qed.

(** With no marker in the buffer, a marker of the extended text ends
    beyond the buffer. *)
Lemma find_app_beyond (b f : str) (i n : nat) :
  find m b = None -> find m (b ++ f) = Some (i, n) -> length b < i + n.
Proof.
  intros Hb H.
  destruct (le_lt_dec (i + n) (length b)) as [Hle | Hgt]; [| exact Hgt].
  rewrite (find_prefix_Some _ _ _ _ H Hle) in Hb. discriminate.
Qed.

Lemma find_at_lt (s : str) (i n : nat) :
  find m s = Some (i, n) -> exists u, skipn i s = "<"%char :: u.
Proof.
  intros H. apply find_Some_inv in H. destruct H as (_ & Hat & _).
  destruct (tag_head _ Hm _ _ Hat) as (u & Hu & _). now exists u.
Qed.

(** The guard of the content state: with no [<] among the last 15 code
    units, a marker of the extended text starts beyond the buffer. *)
Lemma find_app_guard (b f : str) (i n : nat) :
  find m b = None -> find m (b ++ f) = Some (i, n) ->
  includes "<"%char (slice_last 15 b) = false -> length b <= i.
Proof.
  intros Hb H Hg.
  pose proof (find_app_beyond _ _ _ _ Hb H) as Hlen.
  destruct (le_lt_dec (length b) i) as [Hle | Hgt]; [exact Hle | exfalso].
  destruct (find_at_lt _ _ _ H) as (u & Hu).
  apply find_Some_inv in H. destruct H as (_ & Hat & _).
  pose proof (tag_bound _ Hm _ _ Hat) as Hn.
  rewrite skipn_app_le in Hu by lia.
  destruct (skipn i b) as [| c v] eqn:E.
  - apply (f_equal (@length ascii)) in E. rewrite length_skipn in E. cbn in E. lia.
  - cbn [app] in Hu. injection Hu as -> _.
    rewrite (includes_slice_last "<"%char 15 i b v E) in Hg by lia.
    discriminate.
Qed.

(** The guard of the reasoning state: 15 code units are enough to hold
    the part of a marker that has arrived. *)
Lemma find_app_keep15 (b f : str) (i n : nat) :
  find m b = None -> find m (b ++ f) = Some (i, n) -> length b - 15 <= i.
Proof.
  intros Hb H. pose proof (find_app_beyond _ _ _ _ Hb H) as Hlen.
  apply find_Some_inv in H. destruct H as (_ & Hat & _).
  pose proof (tag_bound _ Hm _ _ Hat). lia.
Qed.

End OneMatcher.

End FindFacts.

Module ReferenceFacts.
Import Session Reference.

Lemma segments_Split (fuel : nat) :
  forall inside t c r, segments fuel inside t = Some (c, r) -> Split inside t c r.
Proof.
  induction fuel as [| fuel IH]; intros inside t c r H; [discriminate |].
  cbn [segments] in H. destruct inside.
  - destruct (closeMatch t) as [[i n] |] eqn:Hc.
    + destruct (segments fuel false (skipn (i + n) t)) as [[c0 r0] |] eqn:E;
        [| discriminate].
      injection H as <- <-. eapply Split_close; eauto.
    + injection H as <- <-. now constructor.
  - destruct (openMatch t) as [[i n] |] eqn:Ho;
      destruct (closeMatch t) as [[j k] |] eqn:Hc; try discriminate.
    + destruct (i <? j) eqn:Hij; [| discriminate].
      destruct (segments fuel true (skipn (i + n) t)) as [[c0 r0] |] eqn:E;
        [| discriminate].
      injection H as <- <-. eapply Split_open; eauto.
      intros j' k' Hj. rewrite Hc in Hj. injection Hj as <- <-. now apply Nat.ltb_lt.
    + destruct (segments fuel true (skipn (i + n) t)) as [[c0 r0] |] eqn:E;
        [| discriminate].
      injection H as <- <-. eapply Split_open; eauto.
      intros j' k' Hj. rewrite Hc in Hj. discriminate.
    + injection H as <- <-. now constructor.
Qed.

End ReferenceFacts.

(* ===================================================================== *)
(** ** The buffer loop against the specification's splitter *)
(* ===================================================================== *)

Module LoopFacts.
Import Session Reference Invariants StrFacts TagFacts FindFacts.

Local Abbreviation safe buf := (length buf - 15).

(** *** One step of the loop, read on the text still to come *)

Lemma take_close (buf future c r : str) (i n : nat) :
  closeMatch buf = Some (i, n) ->
  Split true (buf ++ future) c r ->
  exists r0, Split false (skipn (i + n) buf ++ future) c r0 /\ r = firstn i buf ++ r0.
Proof.
  intros Hc HS.
  pose proof (find_Some_inv _ close_TagLike _ _ _ Hc) as (Hlen & _ & _).
  apply (find_app_l _ close_TagLike) with (f := future) in Hc.
  inversion HS as [t Hn | t i0 n0 c0 r0 Hc0 HS0 | |]; subst.
  - unfold closeMatch in *. congruence.
  - unfold closeMatch in *. rewrite Hc in Hc0. injection Hc0 as <- <-.
    exists r0. rewrite skipn_app_le in HS0 by lia.
    rewrite firstn_app_le by lia. auto.
Qed.

Lemma take_open (buf future c r : str) (i n : nat) :
  openMatch buf = Some (i, n) ->
  Split false (buf ++ future) c r ->
  exists c0, Split true (skipn (i + n) buf ++ future) c0 r /\ c = firstn i buf ++ c0.
Proof.
  intros Ho HS.
  pose proof (find_Some_inv _ open_TagLike _ _ _ Ho) as (Hlen & _ & _).
  apply (find_app_l _ open_TagLike) with (f := future) in Ho.
  inversion HS as [| | t Hn Hn' | t i0 n0 c0 r0 Ho0 Hord HS0]; subst.
  - unfold openMatch in *. congruence.
  - unfold openMatch in *. rewrite Ho in Ho0. injection Ho0 as <- <-.
    exists c0. rewrite skipn_app_le in HS0 by lia.
    rewrite firstn_app_le by lia. auto.
Qed.

(** In the content state of a text the specification splits, the buffer
    never shows an end marker ahead of every start marker. *)
Lemma stray_close_absurd (buf future c r : str) (j k : nat) :
  closeMatch buf = Some (j, k) ->
  (forall i n, openMatch buf = Some (i, n) -> j < i) ->
  Split false (buf ++ future) c r -> False.
Proof.
  intros Hc Hopen HS.
  pose proof (find_Some_inv _ close_TagLike _ _ _ Hc) as (Hlen & _ & _).
  apply (find_app_l _ close_TagLike) with (f := future) in Hc.
  inversion HS as [| | t Hn Hn' | t i0 n0 c0 r0 Ho0 Hord HS0]; subst.
  - unfold closeMatch in *. congruence.
  - pose proof (Hord _ _ Hc) as Hlt.
    pose proof (find_Some_inv _ open_TagLike _ _ _ Ho0) as (_ & Hat & _).
    pose proof (find_Some_inv _ close_TagLike _ _ _ Hc) as (_ & Hat' & _).
    pose proof (match_before open_at close_at _ _ _ _ _
                  open_TagLike close_TagLike Hat Hat' Hlt) as Hle.
    apply (find_prefix_Some _ open_TagLike) in Ho0; [| lia].
    apply Hopen in Ho0. lia.
Qed.

Lemma hold_back_reasoning (buf future c r : str) :
  closeMatch buf = None ->
  Split true (buf ++ future) c r ->
  exists r0, Split true (skipn (safe buf) buf ++ future) c r0 /\
             r = firstn (safe buf) buf ++ r0.
Proof.
  intros Hc HS.
  assert (Hs : safe buf <= length buf) by lia.
  inversion HS as [t Hn | t i n c0 r0 Hc0 HS0 | |]; subst.
  - exists (skipn (safe buf) buf ++ future). split.
    + constructor. rewrite <- skipn_app_le by exact Hs.
      now apply (find_skipn_None _ close_TagLike).
    + now rewrite app_assoc, firstn_skipn.
  - pose proof (find_app_keep15 _ close_TagLike _ _ _ _ Hc Hc0) as Hi.
    exists (firstn (i - safe buf) (skipn (safe buf) buf ++ future) ++ r0). split.
    + apply Split_close with (n := n).
      * rewrite <- skipn_app_le by exact Hs.
        now apply (find_skipn _ close_TagLike).
      * rewrite <- skipn_app_le by exact Hs. rewrite skipn_skipn_add.
        now replace (safe buf + (i - safe buf + n)) with (i + n) by lia.
    + rewrite <- skipn_app_le by exact Hs. rewrite app_assoc. f_equal.
      rewrite (firstn_firstn_skipn (safe buf) i (buf ++ future) Hi).
      now rewrite firstn_app_le by exact Hs.
Qed.

Lemma hold_back_content (buf future c r : str) :
  openMatch buf = None -> closeMatch buf = None ->
  includes "<"%char (slice_last 15 buf) = false ->
  Split false (buf ++ future) c r ->
  exists c0, Split false (skipn (safe buf) buf ++ future) c0 r /\
             c = firstn (safe buf) buf ++ c0.
Proof.
  intros Ho Hc Hg HS.
  assert (Hs : safe buf <= length buf) by lia.
  inversion HS as [| | t Hn Hn' | t i n c0 r0 Ho0 Hord HS0]; subst.
  - exists (skipn (safe buf) buf ++ future). split.
    + rewrite <- skipn_app_le by exact Hs. constructor.
      * now apply (find_skipn_None _ open_TagLike).
      * now apply (find_skipn_None _ close_TagLike).
    + now rewrite app_assoc, firstn_skipn.
  - pose proof (find_app_guard _ open_TagLike _ _ _ _ Ho Ho0 Hg) as Hi.
    exists (firstn (i - safe buf) (skipn (safe buf) buf ++ future) ++ c0). split.
    + rewrite <- skipn_app_le by exact Hs.
      apply Split_open with (n := n).
      * apply (find_skipn _ open_TagLike); [exact Ho0 | lia].
      * intros j k Hj.
        destruct (closeMatch (buf ++ future)) as [[j0 k0] |] eqn:Hc0.
        -- pose proof (Hord _ _ eq_refl) as Hlt.
           unfold closeMatch in Hj.
           rewrite (find_skipn _ close_TagLike _ _ _ (safe buf) Hc0) in Hj by lia.
           injection Hj as <- <-. lia.
        -- unfold closeMatch in Hj.
           rewrite (find_skipn_None _ close_TagLike _ (safe buf) Hc0) in Hj.
           discriminate.
      * rewrite skipn_skipn_add.
        now replace (safe buf + (i - safe buf + n)) with (i + n) by lia.
    + rewrite <- skipn_app_le by exact Hs. rewrite app_assoc. f_equal.
      rewrite (firstn_firstn_skipn (safe buf) i (buf ++ future)) by lia.
      now rewrite firstn_app_le by exact Hs.
Qed.

(** No position starts both a start marker and an end marker. *)
Lemma open_close_distinct (s : str) (n k : nat) :
  open_at s = Some n -> close_at s = Some k -> False.
Proof.
  intros Ho Hc.
  destruct (tag_at_inv _ _ _ Ho) as (q & _ & _ & Hp).
  destruct (tag_at_inv _ _ _ Hc) as (q' & _ & _ & Hp').
  rewrite ci_prefix_app in Hp, Hp'. apply andb_prop in Hp, Hp'.
  destruct Hp as (Hp & _), Hp' as (Hp' & _).
  pose proof (ci_prefix_length _ _ Hp) as Hl.
  change (length (lit "<think")) with 6 in Hl.
  destruct s as [| a [| b u]]; cbn [length] in Hl; try lia.
  change (lit "<think") with ("<"%char :: "t"%char :: lit "hink") in Hp.
  change (lit "</think") with ("<"%char :: "/"%char :: lit "think") in Hp'.
  cbn [ci_prefix] in Hp, Hp'. apply andb_prop in Hp, Hp'.
  destruct Hp as (_ & Hp), Hp' as (_ & Hp').
  apply andb_prop in Hp, Hp'. destruct Hp as (Hp & _), Hp' as (Hp' & _).
  rewrite (ci_eqb_trans_l _ "t"%char _ Hp') in Hp. discriminate Hp.
Qed.

(** *** The loop *)

Lemma processLoop_acc (fuel : nat) :
  forall inside buf pc pr,
    processLoop fuel inside buf pc pr = withAcc pc pr (processLoop fuel inside buf [] []).
Proof.
  induction fuel as [| fuel IH]; intros inside buf pc pr.
  - unfold withAcc. cbn. now rewrite !app_nil_r.
  - cbn [processLoop].
    assert (Hstop : forall i b,
      {| inside' := i; buffer' := b; processedContent := pc;
         processedReasoning := pr |}
      = withAcc pc pr {| inside' := i; buffer' := b; processedContent := [];
                         processedReasoning := [] |}).
    { intros. unfold withAcc. cbn. now rewrite !app_nil_r. }
    destruct (0 <? length buf); [| apply Hstop].
    destruct inside.
    + destruct (closeMatch buf) as [[i n] |].
      * rewrite (IH _ _ pc (pr ++ _)), (IH _ _ [] ([] ++ _)).
        unfold withAcc. cbn. now rewrite ?app_nil_r, ?app_assoc.
      * destruct (15 <? length buf); [| apply Hstop].
        unfold withAcc. cbn. now rewrite ?app_nil_r.
    + destruct (openMatch buf) as [[i n] |]; destruct (closeMatch buf) as [[j k] |].
      * destruct (i <? j).
        -- rewrite (IH _ _ (pc ++ _) pr), (IH _ _ ([] ++ _) []).
           unfold withAcc. cbn. now rewrite ?app_nil_r, ?app_assoc.
        -- rewrite (IH _ _ pc (pr ++ _)), (IH _ _ [] ([] ++ _)).
           unfold withAcc. cbn. now rewrite ?app_nil_r, ?app_assoc.
      * rewrite (IH _ _ (pc ++ _) pr), (IH _ _ ([] ++ _) []).
        unfold withAcc. cbn. now rewrite ?app_nil_r, ?app_assoc.
      * rewrite (IH _ _ pc (pr ++ _)), (IH _ _ [] ([] ++ _)).
        unfold withAcc. cbn. now rewrite ?app_nil_r, ?app_assoc.
      * destruct ((15 <? length buf) && negb (includes "<"%char (slice_last 15 buf)));
          [| apply Hstop].
        unfold withAcc. cbn. now rewrite ?app_nil_r.
Qed.

Lemma Resumes_stop (inside : bool) (buf future c r : str) :
  Split inside (buf ++ future) c r ->
  Resumes {| inside' := inside; buffer' := buf; processedContent := [];
             processedReasoning := [] |} future c r.
Proof. intros H. exists c, r. auto. Qed.

Lemma Resumes_acc (p : Processed) (future pc pr c r : str) :
  Resumes p future c r -> Resumes (withAcc pc pr p) future (pc ++ c) (pr ++ r).
Proof.
  intros (c' & r' & HS & -> & ->). exists c', r'. cbn.
  now rewrite !app_assoc.
Qed.

Lemma processLoop_Resumes (fuel : nat) :
  forall inside buf future c r,
    Split inside (buf ++ future) c r ->
    Resumes (processLoop fuel inside buf [] []) future c r.
Proof.
  induction fuel as [| fuel IH]; intros inside buf future c r HS;
    [now apply Resumes_stop |].
  cbn [processLoop].
  destruct (0 <? length buf); [| now apply Resumes_stop].
  destruct inside.
  - destruct (closeMatch buf) as [[i n] |] eqn:Hc.
    + destruct (take_close _ _ _ _ _ _ Hc HS) as (r0 & HS0 & ->).
      rewrite processLoop_acc.
      apply (Resumes_acc _ _ [] ([] ++ firstn i buf) c r0). now apply IH.
    + destruct (15 <? length buf); [| now apply Resumes_stop].
      destruct (hold_back_reasoning _ _ _ _ Hc HS) as (r0 & HS0 & ->).
      exists c, r0. auto.
  - destruct (openMatch buf) as [[i n] |] eqn:Ho;
      destruct (closeMatch buf) as [[j k] |] eqn:Hc.
    + destruct (i <? j) eqn:Hij.
      * destruct (take_open _ _ _ _ _ _ Ho HS) as (c0 & HS0 & ->).
        rewrite processLoop_acc.
        apply (Resumes_acc _ _ ([] ++ firstn i buf) [] c0 r). now apply IH.
      * exfalso. apply (stray_close_absurd buf future c r j k Hc); [| exact HS].
        intros i' n' Ho'. rewrite Ho in Ho'. injection Ho' as <- <-.
        apply Nat.ltb_ge in Hij.
        pose proof (find_Some_inv _ open_TagLike _ _ _ Ho) as (_ & Hat & _).
        pose proof (find_Some_inv _ close_TagLike _ _ _ Hc) as (_ & Hat' & _).
        destruct (Nat.eq_dec i j) as [-> | Hne]; [| lia].
        destruct (open_close_distinct _ _ _ Hat Hat').
    + destruct (take_open _ _ _ _ _ _ Ho HS) as (c0 & HS0 & ->).
      rewrite processLoop_acc.
      apply (Resumes_acc _ _ ([] ++ firstn i buf) [] c0 r). now apply IH.
    + exfalso. apply (stray_close_absurd buf future c r j k Hc); [| exact HS].
      intros i' n' Ho'. rewrite Ho in Ho'. discriminate.
    + destruct ((15 <? length buf) && negb (includes "<"%char (slice_last 15 buf)))
        eqn:Hg; [| now apply Resumes_stop].
      apply andb_prop in Hg. destruct Hg as (_ & Hg).
      apply negb_true_iff in Hg.
      destruct (hold_back_content _ _ _ _ Ho Hc Hg HS) as (c0 & HS0 & ->).
      exists c0, r. auto.
Qed.

End LoopFacts.

(* ===================================================================== *)
(** ** The session against the specification's splitter *)
(* ===================================================================== *)

Module SessionFacts.
Import Session Reference Invariants StrFacts TagFacts FindFacts LoopFacts.

(** *** Fuel *)

Lemma Saturated_nil (inside : bool) : Saturated inside [].
Proof. split; reflexivity. Qed.

Lemma processLoop_Saturated (fuel : nat) :
  forall inside buf pc pr,
    length buf < fuel ->
    Saturated (inside' (processLoop fuel inside buf pc pr))
              (buffer' (processLoop fuel inside buf pc pr)).
Proof.
  induction fuel as [| fuel IH]; intros inside buf pc pr Hfuel; [lia |].
  assert (Hpos : forall m i n, TagLike m -> find m buf = Some (i, n) ->
                               length (slice_from (i + n) buf) < fuel).
  { intros m i n Hm Hf. apply (find_Some_inv _ Hm) in Hf.
    destruct Hf as (Hlen & Hat & _). apply (m_length _ Hm) in Hat.
    unfold slice_from. rewrite length_skipn. lia. }
  cbn [processLoop].
  destruct (0 <? length buf) eqn:Hlen.
  - destruct inside.
    + destruct (closeMatch buf) as [[i n] |] eqn:Hc.
      * apply IH. now apply (Hpos close_at _ _ close_TagLike).
      * destruct (15 <? length buf); cbn; split; try discriminate; try exact Hc.
        now apply (find_skipn_None _ close_TagLike).
    + destruct (openMatch buf) as [[i n] |] eqn:Ho;
        destruct (closeMatch buf) as [[j k] |] eqn:Hc.
      * destruct (i <? j); apply IH.
        -- now apply (Hpos open_at _ _ open_TagLike).
        -- now apply (Hpos close_at _ _ close_TagLike).
      * apply IH. now apply (Hpos open_at _ _ open_TagLike).
      * apply IH. now apply (Hpos close_at _ _ close_TagLike).
      * destruct ((15 <? length buf) && negb (includes "<"%char (slice_last 15 buf)));
          cbn; split; intros; try assumption.
        -- now apply (find_skipn_None _ close_TagLike).
        -- now apply (find_skipn_None _ open_TagLike).
  - apply Nat.ltb_ge in Hlen. destruct buf; [| cbn in Hlen; lia].
    cbn. apply Saturated_nil.
Qed.

(** The loop never runs out of fuel: above the buffer length, the amount
    of fuel does not matter. *)
Lemma processLoop_fuel (fuel1 : nat) :
  forall fuel2 inside buf pc pr,
    length buf < fuel1 -> length buf < fuel2 ->
    processLoop fuel1 inside buf pc pr = processLoop fuel2 inside buf pc pr.
Proof.
  induction fuel1 as [| fuel1 IH]; intros fuel2 inside buf pc pr H1 H2; [lia |].
  destruct fuel2 as [| fuel2]; [lia |].
  assert (Hpos : forall m i n, TagLike m -> find m buf = Some (i, n) ->
                               length (slice_from (i + n) buf) < fuel1 /\
                               length (slice_from (i + n) buf) < fuel2).
  { intros m i n Hm Hf. apply (find_Some_inv _ Hm) in Hf.
    destruct Hf as (Hlen & Hat & _). apply (m_length _ Hm) in Hat.
    unfold slice_from. rewrite length_skipn. lia. }
  cbn [processLoop].
  destruct (0 <? length buf); [| reflexivity].
  destruct inside.
  - destruct (closeMatch buf) as [[i n] |] eqn:Hc; [| reflexivity].
    apply IH; now apply (Hpos close_at _ _ close_TagLike).
  - destruct (openMatch buf) as [[i n] |] eqn:Ho;
      destruct (closeMatch buf) as [[j k] |] eqn:Hc; [| | | reflexivity].
    + destruct (i <? j); apply IH;
        solve [now apply (Hpos open_at _ _ open_TagLike)
              | now apply (Hpos close_at _ _ close_TagLike)].
    + apply IH; now apply (Hpos open_at _ _ open_TagLike).
    + apply IH; now apply (Hpos close_at _ _ close_TagLike).
Qed.

(** *** What a state shows: the splitter variables and the text handed out *)

Lemma rfilter_app (cb : StreamCallbacks) (r1 r2 : str) :
  rfilter cb (r1 ++ r2) = rfilter cb r1 ++ rfilter cb r2.
Proof. unfold rfilter. now destruct (hasOnReasoning cb). Qed.

Lemma contentOf_app (t1 t2 : list Call) :
  contentOf (t1 ++ t2) = contentOf t1 ++ contentOf t2.
Proof.
  induction t1 as [| [] t1 IH]; cbn; rewrite ?IH, ?app_assoc; reflexivity.
Qed.

Lemma reasoningOf_app (t1 t2 : list Call) :
  reasoningOf (t1 ++ t2) = reasoningOf t1 ++ reasoningOf t2.
Proof.
  induction t1 as [| [] t1 IH]; cbn; rewrite ?IH, ?app_assoc; reflexivity.
Qed.

Lemma emitContentIf_splitter (s : str) (st : State) :
  formatDetected (emitContentIf s st) = formatDetected st /\
  isInsideThinkBlock (emitContentIf s st) = isInsideThinkBlock st /\
  pendingBuffer (emitContentIf s st) = pendingBuffer st.
Proof. unfold emitContentIf. now destruct (nonempty s). Qed.

Lemma emitContentIf_out (s : str) (st : State) :
  contentOf (calls (emitContentIf s st)) = contentOf (calls st) ++ s /\
  reasoningOf (calls (emitContentIf s st)) = reasoningOf (calls st).
Proof.
  unfold emitContentIf. destruct (nonempty s) eqn:E.
  - cbn. rewrite contentOf_app, reasoningOf_app. cbn. now rewrite !app_nil_r.
  - apply nonempty_false in E. subst s. now rewrite app_nil_r.
Qed.

Lemma emitReasoningIf_splitter (cb : StreamCallbacks) (s : str) (st : State) :
  formatDetected (emitReasoningIf cb s st) = formatDetected st /\
  isInsideThinkBlock (emitReasoningIf cb s st) = isInsideThinkBlock st /\
  pendingBuffer (emitReasoningIf cb s st) = pendingBuffer st.
Proof. unfold emitReasoningIf. now destruct (nonempty s && hasOnReasoning cb). Qed.

Lemma emitReasoningIf_out (cb : StreamCallbacks) (s : str) (st : State) :
  contentOf (calls (emitReasoningIf cb s st)) = contentOf (calls st) /\
  reasoningOf (calls (emitReasoningIf cb s st)) = reasoningOf (calls st) ++ rfilter cb s.
Proof.
  unfold emitReasoningIf, rfilter. destruct (nonempty s) eqn:E.
  - destruct (hasOnReasoning cb); cbn.
    + rewrite contentOf_app, reasoningOf_app. cbn. now rewrite !app_nil_r.
    + now rewrite app_nil_r.
  - apply nonempty_false in E. subst s. cbn.
    destruct (hasOnReasoning cb); now rewrite app_nil_r.
Qed.

Lemma processBuffer_view (cb : StreamCallbacks) (st : State) :
  let p := processLoop (S (length (pendingBuffer st)))
                       (isInsideThinkBlock st) (pendingBuffer st) [] [] in
  let st' := processBufferWithKnownFormat cb st in
  formatDetected st' = formatDetected st /\
  isInsideThinkBlock st' = inside' p /\
  pendingBuffer st' = buffer' p /\
  contentOf (calls st') = contentOf (calls st) ++ processedContent p /\
  reasoningOf (calls st') = reasoningOf (calls st) ++ rfilter cb (processedReasoning p).
Proof.
  intros p st'. subst st'. unfold processBufferWithKnownFormat. fold p.
  destruct (emitReasoningIf_splitter cb (processedReasoning p)
              (emitContentIf (processedContent p)
                 (setSplitter (formatDetected st) (inside' p) (buffer' p) st)))
    as (-> & -> & ->).
  destruct (emitReasoningIf_out cb (processedReasoning p)
              (emitContentIf (processedContent p)
                 (setSplitter (formatDetected st) (inside' p) (buffer' p) st)))
    as (-> & ->).
  destruct (emitContentIf_splitter (processedContent p)
              (setSplitter (formatDetected st) (inside' p) (buffer' p) st))
    as (-> & -> & ->).
  destruct (emitContentIf_out (processedContent p)
              (setSplitter (formatDetected st) (inside' p) (buffer' p) st))
    as (-> & ->).
  cbn. auto.
Qed.

(** *** Invariants of a run *)

Section KnownFormat.
Variable cb : StreamCallbacks.

Lemma resumed_Known (st : State) (future c r c0 r0 : str) :
  formatDetected st = true ->
  Resumes (processLoop (S (length (pendingBuffer st)))
             (isInsideThinkBlock st) (pendingBuffer st) [] []) future c0 r0 ->
  c = contentOf (calls st) ++ c0 ->
  rfilter cb r = reasoningOf (calls st) ++ rfilter cb r0 ->
  Known cb (processBufferWithKnownFormat cb st) future c r.
Proof.
  intros Hd (c1 & r1 & HS1 & -> & ->) Hc Hr.
  destruct (processBuffer_view cb st) as (Hd' & Hi' & Hb' & Hc' & Hr').
  pose proof (processLoop_Saturated (S (length (pendingBuffer st)))
                (isInsideThinkBlock st) (pendingBuffer st) [] []
                (Nat.lt_succ_diag_r _)) as Hsat.
  unfold Known. rewrite Hd', Hi', Hb', Hc', Hr'.
  split; [exact Hd |]. split; [exact Hsat |].
  exists c1, r1. split; [exact HS1 |].
  rewrite Hc, Hr, rfilter_app, !app_assoc. auto.
Qed.

Lemma process_Known (st : State) (future c r c0 r0 : str) :
  formatDetected st = true ->
  Split (isInsideThinkBlock st) (pendingBuffer st ++ future) c0 r0 ->
  c = contentOf (calls st) ++ c0 ->
  rfilter cb r = reasoningOf (calls st) ++ rfilter cb r0 ->
  Known cb (processBufferWithKnownFormat cb st) future c r.
Proof.
  intros Hd HS. apply resumed_Known; [exact Hd |].
  now apply processLoop_Resumes.
Qed.

Lemma Known_feed (st : State) (x future c r : str) :
  Known cb st (x ++ future) c r -> Known cb (feedContent cb x st) future c r.
Proof.
  intros (Hd & _ & c' & r' & HS & Hc & Hr).
  unfold feedContent. cbn [formatDetected setSplitter]. rewrite Hd. cbn [negb].
  apply process_Known with (c0 := c') (r0 := r'); cbn; auto.
  now rewrite <- app_assoc.
Qed.

Lemma Detecting_feed (st : State) (x future c r : str) :
  Detecting st (x ++ future) c r ->
  Detecting (feedContent cb x st) future c r \/
  Known cb (feedContent cb x st) future c r.
Proof.
  intros (Hd & Hi & _ & _ & Hc & Hr & HS).
  rewrite app_assoc in HS.
  unfold feedContent. cbn [formatDetected setSplitter]. rewrite Hd. cbn [negb].
  set (buf := pendingBuffer st ++ x) in *.
  destruct (openMatch buf) as [[i n] |] eqn:Ho.
  - right. destruct (take_open _ _ _ _ _ _ Ho HS) as (c0 & HS0 & ->).
    apply process_Known with (c0 := c0) (r0 := r); cbn; auto.
    + destruct (emitContentIf_out (slice_to i buf)
                  (setSplitter false (isInsideThinkBlock st) buf st)) as (-> & _).
      cbn. now rewrite Hc.
    + destruct (emitContentIf_out (slice_to i buf)
                  (setSplitter false (isInsideThinkBlock st) buf st)) as (_ & ->).
      cbn. now rewrite Hr.
  - destruct (closeMatch buf) as [[j k] |] eqn:Hcl.
    + exfalso. apply (stray_close_absurd buf future c r j k Hcl); [| exact HS].
      intros i n Ho'. rewrite Ho in Ho'. discriminate.
    + destruct (FORMAT_DETECTION_THRESHOLD <=? length buf).
      * right. apply process_Known with (c0 := c) (r0 := r); cbn; auto.
        -- now rewrite Hi.
        -- now rewrite Hc.
        -- now rewrite Hr.
      * left. unfold Detecting. cbn. auto 10.
Qed.

Lemma Known_flush (st : State) (c r : str) :
  Known cb st [] c r ->
  contentOf (calls (flushBufferAndComplete cb st)) = c /\
  reasoningOf (calls (flushBufferAndComplete cb st)) = rfilter cb r.
Proof.
  intros (Hd & (Hsc & Hso) & c' & r' & HS & -> & ->).
  rewrite app_nil_r in HS.
  unfold flushBufferAndComplete. rewrite Hd. cbn [negb andb].
  assert (Hout : c' = (if isInsideThinkBlock st then [] else pendingBuffer st) /\
                 r' = (if isInsideThinkBlock st then pendingBuffer st else [])).
  { inversion HS as [t Hn E | t i n c0 r0 Hc0 HS0 E | t Hn Hn' E | t i n c0 r0 Ho0 Hord HS0 E];
      subst; rewrite <- E in *; auto.
    - unfold closeMatch in *. congruence.
    - rewrite (Hso eq_refl) in Ho0. discriminate. }
  destruct Hout as (-> & ->).
  destruct (0 <? length (pendingBuffer st)) eqn:Hlen.
  - destruct (isInsideThinkBlock st); cbn.
    + unfold rfilter. destruct (hasOnReasoning cb); cbn;
        rewrite ?contentOf_app, ?reasoningOf_app; cbn; now rewrite ?app_nil_r.
    + rewrite !contentOf_app, !reasoningOf_app. cbn.
      unfold rfilter. destruct (hasOnReasoning cb); now rewrite ?app_nil_r.
  - apply Nat.ltb_ge in Hlen.
    destruct (pendingBuffer st); [| cbn in Hlen; lia].
    cbn. rewrite contentOf_app, reasoningOf_app. cbn.
    unfold rfilter. destruct (isInsideThinkBlock st), (hasOnReasoning cb);
      now rewrite ?app_nil_r.
Qed.

Lemma Detecting_flush (st : State) (c r : str) :
  Detecting st [] c r ->
  contentOf (calls (flushBufferAndComplete cb st)) = c /\
  reasoningOf (calls (flushBufferAndComplete cb st)) = rfilter cb r.
Proof.
  intros (Hd & Hi & Ho & Hcl & Hc & Hr & HS).
  rewrite app_nil_r in HS.
  assert (Hout : c = pendingBuffer st /\ r = []).
  { inversion HS as [| | t Hn Hn' E | t i n c0 r0 Ho0 Hord HS0 E]; subst; auto.
    rewrite Ho in Ho0. discriminate. }
  destruct Hout as (-> & ->).
  unfold flushBufferAndComplete. rewrite Hd, Ho, Hcl. cbn [negb andb].
  destruct (0 <? length (pendingBuffer st)) eqn:Hlen.
  - cbn. rewrite !contentOf_app, !reasoningOf_app, Hc, Hr. cbn.
    unfold rfilter. destruct (hasOnReasoning cb); now rewrite ?app_nil_r.
  - apply Nat.ltb_ge in Hlen.
    destruct (pendingBuffer st); [| cbn in Hlen; lia].
    cbn. rewrite contentOf_app, reasoningOf_app, Hc, Hr. cbn.
    unfold rfilter. now destruct (hasOnReasoning cb).
Qed.

End KnownFormat.

(** *** Implicit mode: the text opens with reasoning *)

Section ImplicitMode.
Variable cb : StreamCallbacks.
Variables (t : str) (i n : nat).
Hypothesis Hclose : closeMatch t = Some (i, n).
Hypothesis Hopen : openMatch t = None.
Hypothesis Hrest : closeMatch (skipn (i + n) t) = None.
Hypothesis Hthreshold : i < FORMAT_DETECTION_THRESHOLD.

Lemma rest_Split (buf future : str) :
  i + n <= length buf -> buf ++ future = t ->
  Split false (skipn (i + n) buf ++ future) (skipn (i + n) t) [].
Proof.
  intros Hlen Ht. rewrite <- skipn_app_le, Ht by exact Hlen.
  constructor; [| exact Hrest].
  now apply (find_skipn_None _ open_TagLike).
Qed.

Lemma marker_in_guard (buf future : str) :
  buf ++ future = t -> i < length buf -> length buf < i + n ->
  includes "<"%char (slice_last 15 buf) = true.
Proof.
  intros Ht Hi Hlen.
  destruct (find_at_lt _ close_TagLike _ _ _ Hclose) as (u & Hu).
  pose proof (find_Some_inv _ close_TagLike _ _ _ Hclose) as (_ & Hat & _).
  pose proof (tag_bound _ close_TagLike _ _ Hat) as Hn.
  rewrite <- Ht, skipn_app_le in Hu by lia.
  destruct (skipn i buf) as [| a v] eqn:E.
  - apply (f_equal (@length ascii)) in E. rewrite length_skipn in E. cbn in E. lia.
  - cbn [app] in Hu. injection Hu as -> _.
    apply (includes_slice_last "<"%char 15 i buf v E). lia.
Qed.

Lemma processLoop_hold (fuel : nat) (buf : str) :
  openMatch buf = None -> closeMatch buf = None ->
  includes "<"%char (slice_last 15 buf) = true ->
  processLoop fuel false buf [] []
  = {| inside' := false; buffer' := buf; processedContent := [];
       processedReasoning := [] |}.
Proof.
  intros Ho Hc Hg. destruct fuel as [| fuel]; [reflexivity |].
  cbn [processLoop]. rewrite Ho, Hc, Hg. cbn [negb]. rewrite andb_false_r.
  now destruct (0 <? length buf).
Qed.

Lemma Implicit_feed (st : State) (x future : str) :
  Implicit t i n st (x ++ future) ->
  Implicit t i n (feedContent cb x st) future \/
  Known cb (feedContent cb x st) future (skipn (i + n) t) (firstn i t).
Proof.
  intros (Hi & Hc & Hr & Ht & Hlen & Hdet).
  rewrite app_assoc in Ht.
  assert (Ho : openMatch (pendingBuffer st ++ x) = None).
  { apply (find_prefix_None _ open_TagLike) with (f := future). now rewrite Ht. }
  assert (Hrf : rfilter cb [] = []) by (unfold rfilter; now destruct (hasOnReasoning cb)).
  unfold feedContent. cbn [formatDetected setSplitter isInsideThinkBlock].
  set (buf := pendingBuffer st ++ x) in *.
  assert (Hbuf : length (pendingBuffer st) <= length buf)
    by (subst buf; rewrite length_app; lia).
  destruct (le_lt_dec (i + n) (length buf)) as [Hfull | Hpart].
  - (* the end marker is complete *)
    right.
    assert (Hcl : closeMatch buf = Some (i, n)).
    { apply (find_prefix_Some _ close_TagLike) with (f := future); [| exact Hfull].
      now rewrite Ht. }
    assert (Hpre : firstn i buf = firstn i t)
      by (rewrite <- Ht, firstn_app_le by lia; reflexivity).
    destruct (formatDetected st) eqn:Hd; cbn [negb].
    + apply resumed_Known with (c0 := skipn (i + n) t) (r0 := firstn i t);
        [reflexivity | | cbn; now rewrite Hc | cbn; now rewrite Hr].
      cbn [pendingBuffer isInsideThinkBlock setSplitter processLoop].
      destruct (0 <? length buf) eqn:E; [| apply Nat.ltb_ge in E; lia].
      rewrite Hi, Ho, Hcl, processLoop_acc.
      replace (firstn i t) with (([] ++ slice_to i buf) ++ [])
        by (unfold slice_to; now rewrite app_nil_r, Hpre).
      apply (Resumes_acc _ _ [] ([] ++ slice_to i buf) (skipn (i + n) t) []).
      apply processLoop_Resumes. now apply rest_Split.
    + rewrite Ho, Hcl.
      apply process_Known with (c0 := skipn (i + n) t) (r0 := []); cbn; auto.
      * now apply rest_Split.
      * destruct (emitReasoningIf_out cb (slice_to i buf)
                    (setSplitter false (isInsideThinkBlock st) buf st)) as (-> & _).
        cbn. now rewrite Hc.
      * destruct (emitReasoningIf_out cb (slice_to i buf)
                    (setSplitter false (isInsideThinkBlock st) buf st)) as (_ & ->).
        cbn. unfold slice_to. now rewrite Hr, Hrf, Hpre, app_nil_r.
  - (* still waiting for the end of the marker *)
    left.
    assert (Hcl : closeMatch buf = None).
    { apply (find_prefix_short _ close_TagLike) with (f := future) (i := i) (n := n);
        [| exact Hpart]. now rewrite Ht. }
    assert (Hheld : forall st', formatDetected st' = true ->
              isInsideThinkBlock st' = false -> pendingBuffer st' = buf ->
              contentOf (calls st') = [] -> reasoningOf (calls st') = [] ->
              i < length buf ->
              Implicit t i n (processBufferWithKnownFormat cb st') future).
    { intros st' Hd' Hi' Hb' Hc' Hr' Hilen.
      destruct (processBuffer_view cb st') as (Hd1 & Hi1 & Hb1 & Hc1 & Hr1).
      rewrite Hi', Hb' in *.
      rewrite (processLoop_hold _ buf Ho Hcl
                 (marker_in_guard buf future Ht Hilen Hpart)) in *.
      cbn in Hi1, Hb1, Hc1, Hr1.
      unfold Implicit. rewrite Hi1, Hb1, Hc1, Hr1, Hc', Hr', Hrf.
      repeat split; auto. }
    destruct (formatDetected st) eqn:Hd; cbn [negb].
    + apply Hheld; cbn; auto. specialize (Hdet eq_refl). lia.
    + rewrite Ho, Hcl.
      destruct (FORMAT_DETECTION_THRESHOLD <=? length buf) eqn:Hth.
      * apply Nat.leb_le in Hth. apply Hheld; cbn; auto. lia.
      * unfold Implicit. cbn. repeat split; auto. discriminate.
Qed.

Lemma Implicit_flush (st : State) : Implicit t i n st [] -> False.
Proof.
  intros (_ & _ & _ & Ht & Hlen & _). rewrite app_nil_r in Ht.
  pose proof (find_Some_inv _ close_TagLike _ _ _ Hclose) as (Hfull & _ & _).
  rewrite Ht in Hlen. lia.
Qed.

End ImplicitMode.

(** *** A run of the splitter over content fragments *)

Lemma handleEvent_contentFrame (cb : StreamCallbacks) (x : str) (st : State) :
  handleEvent cb (Driver.contentFrame x) st
  = if nonempty x then feedContent cb x st else st.
Proof.
  unfold handleEvent, Driver.contentFrame, handleJson. cbn.
  now destruct (nonempty x).
Qed.

Lemma run_fragments (cb : StreamCallbacks) (I : State -> str -> Prop) :
  (forall st x future, I st (x ++ future) -> I (feedContent cb x st) future) ->
  forall fragments st,
    I st (concat fragments) ->
    I (handleEvents cb (map Driver.contentFrame fragments) st) [].
Proof.
  intros Hfeed. induction fragments as [| x fragments IH]; intros st HI; [exact HI |].
  cbn [map concat] in *. unfold handleEvents in *. cbn [fold_left].
  apply IH. rewrite handleEvent_contentFrame.
  destruct (nonempty x) eqn:E; [now apply Hfeed |].
  apply nonempty_false in E. now subst x.
Qed.

Lemma split_unfold (cb : StreamCallbacks) (fragments : list str) :
  Driver.split cb fragments
  = calls (flushBufferAndComplete cb
             (handleEvents cb (map Driver.contentFrame fragments) initial)).
Proof. reflexivity. Qed.

(** A text the specification's state machine splits, under any chunking. *)
Lemma split_of_Split (cb : StreamCallbacks) (t c r : str) (fragments : list str) :
  Split false t c r -> concat fragments = t ->
  contentOf (Driver.split cb fragments) = c /\
  reasoningOf (Driver.split cb fragments) = rfilter cb r.
Proof.
  intros HS Ht. rewrite split_unfold.
  pose proof (run_fragments cb
    (fun st future => Detecting st future c r \/ Known cb st future c r)) as Hrun.
  destruct (Hrun) with (fragments := fragments) (st := initial) as [H | H].
  - intros st x future [H | H].
    + now apply Detecting_feed.
    + right. now apply Known_feed.
  - left. rewrite Ht. unfold Detecting. cbn. auto 10.
  - now apply Detecting_flush.
  - now apply Known_flush.
Qed.

(** A text in implicit mode, under any chunking. *)
Lemma split_of_implicit (cb : StreamCallbacks) (t : str) (i n : nat)
                        (fragments : list str) :
  closeMatch t = Some (i, n) -> openMatch t = None ->
  closeMatch (skipn (i + n) t) = None -> i < FORMAT_DETECTION_THRESHOLD ->
  concat fragments = t ->
  contentOf (Driver.split cb fragments) = skipn (i + n) t /\
  reasoningOf (Driver.split cb fragments) = rfilter cb (firstn i t).
Proof.
  intros Hc Ho Hr Hth Ht. rewrite split_unfold.
  pose proof (run_fragments cb
    (fun st future => Implicit t i n st future \/
                      Known cb st future (skipn (i + n) t) (firstn i t))) as Hrun.
  destruct (Hrun) with (fragments := fragments) (st := initial) as [H | H].
  - intros st x future [H | H].
    + now apply Implicit_feed.
    + right. now apply Known_feed.
  - left. rewrite Ht. unfold Implicit. cbn. repeat split; auto; try discriminate.
    pose proof (find_Some_inv _ close_TagLike _ _ _ Hc) as (_ & Hat & _).
    apply (m_length _ close_TagLike) in Hat. lia.
  - destruct (Implicit_flush t i n Hc Hth _ H).
  - now apply Known_flush.
Qed.

End SessionFacts.

(* ===================================================================== *)
(** ** The accumulator *)
(* ===================================================================== *)

Module AccumulatorFacts.
Import Accumulator AccumulatorSpec StrFacts.

Lemma get_app (m1 m2 : ToolCallMap) (k : Z) :
  get (m1 ++ m2) k = match get m1 k with Some v => Some v | None => get m2 k end.
Proof.
  induction m1 as [| [k' v'] m1 IH]; cbn; [reflexivity |].
  now destruct (Z.eqb k k').
Qed.

Lemma get_None_keys (m : ToolCallMap) (k : Z) :
  get m k = None <-> existsb (Z.eqb k) (keys m) = false.
Proof.
  induction m as [| [k' v'] m IH]; cbn; [tauto |].
  destruct (Z.eqb k k'); cbn; [split; discriminate | exact IH].
Qed.

Lemma set_fresh (m : ToolCallMap) (k : Z) (v : ToolCall) :
  get m k = None -> set m k v = m ++ [(k, v)].
Proof.
  induction m as [| [k' v'] m IH]; cbn; [reflexivity |].
  destruct (Z.eqb k k'); [discriminate |]. intros H. now rewrite IH.
Qed.

Lemma keys_tabulate (f : Z -> ToolCall) (ks : list Z) : keys (tabulate f ks) = ks.
Proof.
  unfold keys, tabulate. rewrite map_map. cbn. apply map_id.
Qed.

Lemma get_tabulate (f : Z -> ToolCall) (ks : list Z) (k : Z) :
  get (tabulate f ks) k = if existsb (Z.eqb k) ks then Some (f k) else None.
Proof.
  induction ks as [| k' ks IH]; cbn; [reflexivity |].
  destruct (Z.eqb k k') eqn:E; cbn; [| exact IH].
  apply Z.eqb_eq in E. now subst.
Qed.

Lemma tabulate_ext (f g : Z -> ToolCall) (ks : list Z) :
  (forall k, In k ks -> f k = g k) -> tabulate f ks = tabulate g ks.
Proof.
  intros H. unfold tabulate. apply map_ext_in. intros k Hk. now rewrite H.
Qed.

Lemma set_tabulate (f : Z -> ToolCall) (ks : list Z) (k : Z) (v : ToolCall) :
  NoDup ks ->
  set (tabulate f ks) k v
  = if existsb (Z.eqb k) ks
    then tabulate (fun k' => if Z.eqb k' k then v else f k') ks
    else tabulate f ks ++ [(k, v)].
Proof.
  induction ks as [| k' ks IH]; intros Hnd; [reflexivity |].
  inversion Hnd as [| ? ? Hnotin Hnd']; subst.
  change (tabulate f (k' :: ks)) with ((k', f k') :: tabulate f ks).
  cbn [set existsb].
  destruct (Z.eqb k k') eqn:E; cbn [orb].
  - apply Z.eqb_eq in E. subst k'.
    change (tabulate (fun k' => if Z.eqb k' k then v else f k') (k :: ks))
      with ((k, if Z.eqb k k then v else f k)
              :: tabulate (fun k' => if Z.eqb k' k then v else f k') ks).
    rewrite Z.eqb_refl. f_equal.
    apply tabulate_ext. intros k1 Hk1.
    destruct (Z.eqb k1 k) eqn:E1; [| reflexivity].
    apply Z.eqb_eq in E1. subst. contradiction.
  - rewrite (IH Hnd').
    destruct (existsb (Z.eqb k) ks); [| reflexivity].
    change (tabulate (fun k'0 => if Z.eqb k'0 k then v else f k'0) (k' :: ks))
      with ((k', if Z.eqb k' k then v else f k')
              :: tabulate (fun k'0 => if Z.eqb k'0 k then v else f k'0) ks).
    now rewrite Z.eqb_sym, E.
Qed.

Lemma firstSeen_snoc (ks : list Z) (k : Z) :
  firstSeen (ks ++ [k])
  = if existsb (Z.eqb k) (firstSeen ks) then firstSeen ks else firstSeen ks ++ [k].
Proof. unfold firstSeen. now rewrite fold_left_app. Qed.

Lemma existsb_eqb_In (k : Z) (ks : list Z) :
  existsb (Z.eqb k) ks = true <-> In k ks.
Proof.
  rewrite existsb_exists. split.
  - intros (x & Hx & E). apply Z.eqb_eq in E. now subst.
  - intros H. exists k. split; [exact H | apply Z.eqb_refl].
Qed.

Lemma firstSeen_In (ks : list Z) (k : Z) : In k (firstSeen ks) <-> In k ks.
Proof.
  induction ks as [| k' ks IH] using rev_ind; [reflexivity |].
  rewrite firstSeen_snoc, in_app_iff.
  destruct (existsb (Z.eqb k') (firstSeen ks)) eqn:E.
  - apply existsb_eqb_In in E. rewrite IH. cbn. intuition (subst; tauto).
  - rewrite in_app_iff, IH. reflexivity.
Qed.

Lemma firstSeen_NoDup (ks : list Z) : NoDup (firstSeen ks).
Proof.
  induction ks as [| k ks IH] using rev_ind; [constructor |].
  rewrite firstSeen_snoc.
  destruct (existsb (Z.eqb k) (firstSeen ks)) eqn:E; [exact IH |].
  apply NoDup_app; [exact IH | repeat constructor; intros [] |].
  intros x Hx [<- | []].
  apply existsb_eqb_In in Hx. congruence.
Qed.

Lemma group_snoc (k : Z) (ds : list ToolCallDelta) (d : ToolCallDelta) :
  group k (ds ++ [d]) = group k ds ++ (if Z.eqb (index d) k then [d] else []).
Proof. unfold group. rewrite filter_app. reflexivity. Qed.

Lemma group_nil_iff (k : Z) (ds : list ToolCallDelta) :
  group k ds = [] <-> ~ In k (map index ds).
Proof.
  induction ds as [| d ds IH]; cbn; [tauto |].
  destruct (Z.eqb (index d) k) eqn:E.
  - apply Z.eqb_eq in E. split; [discriminate | intros H; exfalso; apply H; now left].
  - apply Z.eqb_neq in E. rewrite IH. tauto.
Qed.

Lemma firstNonEmpty_snoc (l : list (option str)) (o : option str) :
  firstNonEmpty (l ++ [o])
  = if nonempty (firstNonEmpty l) then firstNonEmpty l else orElse o [].
Proof.
  induction l as [| o' l IH]; cbn.
  - destruct o as [[| c s] |]; reflexivity.
  - destruct o' as [[| c s] |]; cbn; auto.
Qed.

Lemma orElse_truthy (o : option str) :
  truthy o = nonempty (orElse o []).
Proof. destruct o as [[| c s] |]; reflexivity. Qed.

(** The map after a delta sequence, entry by entry. *)
Lemma accumulateAll_tabulate (ds : list ToolCallDelta) :
  accumulateAll [] ds = tabulate (fun k => merged k ds) (firstSeen (map index ds)).
Proof.
  induction ds as [| d ds IH] using rev_ind; [reflexivity |].
  unfold accumulateAll in *. rewrite fold_left_app. cbn [fold_left].
  rewrite IH, map_app. cbn [map]. rewrite firstSeen_snoc.
  unfold accumulate. rewrite get_tabulate.
  destruct (existsb (Z.eqb (index d)) (firstSeen (map index ds))) eqn:E;
    rewrite set_tabulate, E by apply firstSeen_NoDup.
  - (* a known index *)
    apply tabulate_ext. intros k Hk.
    destruct (Z.eqb k (index d)) eqn:Ek.
    + apply Z.eqb_eq in Ek. subst k.
      apply -> firstSeen_In in Hk.
      unfold merged. rewrite group_snoc, Z.eqb_refl, !map_app. cbn [map].
      rewrite !firstNonEmpty_snoc, concat_app. cbn [concat]. rewrite app_nil_r.
      destruct (group (index d) ds) as [| d0 g] eqn:Hg;
        [apply group_nil_iff in Hg; contradiction |].
      cbn [arguments function id name type app].
      f_equal.
      * rewrite orElse_truthy.
        destruct (nonempty (orElse (delta_id d) [])) eqn:E1;
          destruct (nonempty (firstNonEmpty (map delta_id (d0 :: g)))) eqn:E2;
          cbn [andb negb]; try reflexivity.
        apply nonempty_false in E1. apply nonempty_false in E2. congruence.
      * f_equal.
        -- rewrite orElse_truthy.
           destruct (nonempty (orElse (fnName d) [])) eqn:E1;
             destruct (nonempty (firstNonEmpty (map fnName (d0 :: g)))) eqn:E2;
             cbn [andb negb]; try reflexivity.
           apply nonempty_false in E1. apply nonempty_false in E2. congruence.
        -- rewrite orElse_truthy.
           destruct (nonempty (orElse (fnArguments d) [])) eqn:E1; [reflexivity |].
           apply nonempty_false in E1. now rewrite E1, app_nil_r.
    + unfold merged. rewrite group_snoc, Z.eqb_sym, Ek, app_nil_r. reflexivity.
  - (* a fresh index *)
    unfold tabulate. rewrite map_app. cbn [map]. f_equal.
    + apply map_ext_in. intros k Hk.
      assert (Hne : Z.eqb (index d) k = false).
      { destruct (Z.eqb (index d) k) eqn:Ek; [| reflexivity].
        apply Z.eqb_eq in Ek. subst k.
        apply existsb_eqb_In in Hk. congruence. }
      unfold merged. now rewrite group_snoc, Hne, app_nil_r.
    + f_equal. f_equal.
      assert (Hg : group (index d) ds = []).
      { apply group_nil_iff. intros Hin. apply <- firstSeen_In in Hin.
        apply existsb_eqb_In in Hin. congruence. }
      unfold merged. rewrite group_snoc, Z.eqb_refl, Hg. cbn.
      rewrite app_nil_r.
      destruct (delta_id d) as [[| ? ?] |], (fnName d) as [[| ? ?] |]; reflexivity.
Qed.

End AccumulatorFacts.

(* ===================================================================== *)
(** ** The callbacks of a run *)
(* ===================================================================== *)

Module TraceFacts.
Import Accumulator Session Driver TraceSpec StrFacts.

Lemma Extends_refl (st : State) : Extends st st.
Proof. split; [reflexivity |]. exists []. now rewrite app_nil_r. Qed.

Lemma Extends_trans (st1 st2 st3 : State) :
  Extends st1 st2 -> Extends st2 st3 -> Extends st1 st3.
Proof.
  intros (Ha & l & Hl & Ht) (Ha' & l' & Hl' & Ht'). split; [congruence |].
  exists (l ++ l'). rewrite Hl', Hl, app_assoc. split; [reflexivity |].
  unfold textOnly in *. now rewrite forallb_app, Ht, Ht'.
Qed.

Lemma Extends_setSplitter (d i : bool) (b : str) (st : State) :
  Extends st (setSplitter d i b st).
Proof. split; [reflexivity |]. exists []. cbn. now rewrite app_nil_r. Qed.

Lemma Extends_emitContent (s : str) (st : State) : Extends st (emitContent s st).
Proof. split; [reflexivity |]. now exists [onChunk s]. Qed.

Lemma Extends_emitReasoning (s : str) (st : State) : Extends st (emitReasoning s st).
Proof. split; [reflexivity |]. now exists [onReasoning s]. Qed.

Lemma Extends_emitContentIf (s : str) (st : State) : Extends st (emitContentIf s st).
Proof.
  unfold emitContentIf. destruct (nonempty s);
    [apply Extends_emitContent | apply Extends_refl].
Qed.

Lemma Extends_emitReasoningIf (cb : StreamCallbacks) (s : str) (st : State) :
  Extends st (emitReasoningIf cb s st).
Proof.
  unfold emitReasoningIf. destruct (nonempty s && hasOnReasoning cb);
    [apply Extends_emitReasoning | apply Extends_refl].
Qed.

Ltac extends :=
  repeat first
    [ apply Extends_refl
    | eapply Extends_trans; [| apply Extends_emitReasoningIf]
    | eapply Extends_trans; [| apply Extends_emitContentIf]
    | eapply Extends_trans; [| apply Extends_emitReasoning]
    | eapply Extends_trans; [| apply Extends_emitContent]
    | eapply Extends_trans; [| apply Extends_setSplitter] ].

Lemma Extends_processBuffer (cb : StreamCallbacks) (st : State) :
  Extends st (processBufferWithKnownFormat cb st).
Proof. unfold processBufferWithKnownFormat. extends. Qed.

Lemma Extends_feedContent (cb : StreamCallbacks) (c : str) (st : State) :
  Extends st (feedContent cb c st).
Proof.
  unfold feedContent.
  destruct (negb (formatDetected
                    (setSplitter (formatDetected st) (isInsideThinkBlock st)
                       (pendingBuffer st ++ c) st))).
  - destruct (openMatch (pendingBuffer st ++ c)) as [[i n] |].
    + eapply Extends_trans; [| apply Extends_processBuffer]. extends.
    + destruct (closeMatch (pendingBuffer st ++ c)) as [[j k] |].
      * eapply Extends_trans; [| apply Extends_processBuffer]. extends.
      * destruct (FORMAT_DETECTION_THRESHOLD <=? length (pendingBuffer st ++ c)).
        -- eapply Extends_trans; [| apply Extends_processBuffer]. extends.
        -- extends.
  - eapply Extends_trans; [| apply Extends_processBuffer]. extends.
Qed.

(** [flushBufferAndComplete] hands out text, then calls [onComplete]. *)
Lemma flush_calls (cb : StreamCallbacks) (st : State) :
  exists l, calls (flushBufferAndComplete cb st) = calls st ++ l ++ [onComplete] /\
            textOnly l = true.
Proof.
  unfold flushBufferAndComplete.
  set (buf := pendingBuffer st).
  match goal with
  | |- context [call onComplete ?X] =>
      assert (H : Extends st X); [| destruct H as (_ & l & Hl & Ht)]
  end.
  - destruct (negb (formatDetected st) && (0 <? length buf)).
    + destruct (openMatch buf) as [[i n] |].
      * destruct (closeMatch (slice_from (i + n) buf)) as [[j k] |]; extends.
      * destruct (closeMatch buf) as [[j k] |]; extends.
    + destruct (0 <? length buf); [| extends].
      destruct (isInsideThinkBlock st); [destruct (hasOnReasoning cb) |]; extends.
  - exists l. cbn [calls call]. rewrite Hl, app_assoc. auto.
Qed.

(** A frame that carries a finish reason: text, then the usage, then the
    accumulated tool calls. *)
Lemma handleJson_finish_calls (cb : StreamCallbacks) (json : Chunk) (st : State) :
  truthy (finish_reason json) = true ->
  exists text,
    textOnly text = true /\
    calls (handleJson cb json st)
    = calls st ++ text ++ usageCalls cb json
        ++ toolCallsCall cb (mergedToolCalls cb json st).
Proof.
  intros Hfin. unfold handleJson. rewrite Hfin.
  set (st1 := match content json with
              | Some c => if nonempty c then feedContent cb c st else st
              | None => st
              end).
  assert (H1 : Extends st st1).
  { subst st1. destruct (content json) as [c |]; [| apply Extends_refl].
    destruct (nonempty c); [apply Extends_feedContent | apply Extends_refl]. }
  set (st2 := match reasoning json with
              | Some r => if nonempty r && hasOnReasoning cb
                          then emitReasoning r st1 else st1
              | None => st1
              end).
  assert (H2 : Extends st st2).
  { eapply Extends_trans; [exact H1 |]. subst st2.
    destruct (reasoning json) as [r |]; [| apply Extends_refl].
    destruct (nonempty r && hasOnReasoning cb);
      [apply Extends_emitReasoning | apply Extends_refl]. }
  destruct H2 as (Hacc & text & Hcalls & Htext).
  exists text. split; [exact Htext |].
  unfold usageCalls, toolCallsCall, mergedToolCalls.
  destruct (usage json) as [u |], (hasOnUsage cb), (tool_calls json) as [ds |],
    (hasOnToolCalls cb); cbn [calls call setToolCalls accumulatedToolCalls andb];
    rewrite ?andb_false_r, ?andb_true_r, ?Hacc;
    try match goal with
        | |- context [0 <? length ?m] => destruct (0 <? length m)
        end;
    cbn [calls call setToolCalls accumulatedToolCalls];
    rewrite Hcalls, <- ?app_assoc; cbn [app]; rewrite ?app_nil_r; reflexivity.
Qed.

(** No frame but the sentinel calls [onComplete] or [onError]. *)
Lemma handleJson_calls (cb : StreamCallbacks) (json : Chunk) (st : State) :
  exists l, calls (handleJson cb json st) = calls st ++ l /\
            filter isComplete l = [] /\ filter isError l = [].
Proof.
  unfold handleJson.
  set (st1 := match content json with
              | Some c => if nonempty c then feedContent cb c st else st
              | None => st
              end).
  assert (H1 : Extends st st1).
  { subst st1. destruct (content json) as [c |]; [| apply Extends_refl].
    destruct (nonempty c); [apply Extends_feedContent | apply Extends_refl]. }
  set (st2 := match reasoning json with
              | Some r => if nonempty r && hasOnReasoning cb
                          then emitReasoning r st1 else st1
              | None => st1
              end).
  assert (H2 : Extends st st2).
  { eapply Extends_trans; [exact H1 |]. subst st2.
    destruct (reasoning json) as [r |]; [| apply Extends_refl].
    destruct (nonempty r && hasOnReasoning cb);
      [apply Extends_emitReasoning | apply Extends_refl]. }
  destruct H2 as (Hacc & text & Hcalls & Htext).
  assert (Hc : filter isComplete text = [] /\ filter isError text = []).
  { clear - Htext. induction text as [| c text IH]; [auto |].
    cbn in Htext. apply andb_prop in Htext. destruct Htext as (Hc & Ht).
    destruct (IH Ht) as (IH1 & IH2). destruct c; try discriminate Hc; cbn; auto. }
  destruct Hc as (Hc1 & Hc2).
  destruct (truthy (finish_reason json)), (usage json) as [u |], (hasOnUsage cb),
    (tool_calls json) as [ds |], (hasOnToolCalls cb);
    cbn [calls call setToolCalls accumulatedToolCalls andb];
    rewrite ?andb_false_r, ?andb_true_r;
    try match goal with
        | |- context [0 <? length ?m] => destruct (0 <? length m)
        end;
    cbn [calls call setToolCalls accumulatedToolCalls];
    rewrite Hcalls, <- ?app_assoc;
    eexists; (split; [reflexivity |]);
    rewrite ?filter_app, ?Hc1, ?Hc2; cbn; auto.
Qed.

Lemma countComplete_app (l1 l2 : list Call) :
  countComplete (l1 ++ l2) = countComplete l1 + countComplete l2.
Proof. unfold countComplete. now rewrite filter_app, length_app. Qed.

Lemma countError_app (l1 l2 : list Call) :
  countError (l1 ++ l2) = countError l1 + countError l2.
Proof. unfold countError. now rewrite filter_app, length_app. Qed.

Lemma textOnly_counts (l : list Call) :
  textOnly l = true -> countComplete l = 0 /\ countError l = 0.
Proof.
  induction l as [| c l IH]; [auto |]. cbn. intros H.
  apply andb_prop in H. destruct H as (Hc & Hl). destruct (IH Hl) as (IH1 & IH2).
  unfold countComplete, countError in *.
  destruct c; try discriminate Hc; cbn; auto.
Qed.

Lemma flush_counts (cb : StreamCallbacks) (st : State) :
  countComplete (calls (flushBufferAndComplete cb st)) = countComplete (calls st) + 1 /\
  countError (calls (flushBufferAndComplete cb st)) = countError (calls st).
Proof.
  destruct (flush_calls cb st) as (l & -> & Hl).
  destruct (textOnly_counts l Hl) as (H1 & H2).
  rewrite !countComplete_app, !countError_app, H1, H2. cbn. lia.
Qed.

Lemma handleEvent_counts (cb : StreamCallbacks) (e : SseData) (st : State) :
  countComplete (calls (handleEvent cb e st))
  = countComplete (calls st) + (if isDONE e then 1 else 0) /\
  countError (calls (handleEvent cb e st)) = countError (calls st).
Proof.
  destruct e as [| json | d]; cbn [handleEvent isDONE].
  - apply flush_counts.
  - destruct (handleJson_calls cb json st) as (l & -> & H1 & H2).
    rewrite countComplete_app, countError_app.
    unfold countComplete, countError. rewrite H1, H2. cbn. lia.
  - lia.
Qed.

Lemma handleEvents_counts (cb : StreamCallbacks) (es : list SseData) :
  forall st,
    countComplete (calls (handleEvents cb es st)) = countComplete (calls st) + countDONE es /\
    countError (calls (handleEvents cb es st)) = countError (calls st).
Proof.
  induction es as [| e es IH]; intros st; [cbn; lia |].
  unfold handleEvents in *. cbn [fold_left].
  destruct (IH (handleEvent cb e st)) as (-> & ->).
  destruct (handleEvent_counts cb e st) as (-> & ->).
  unfold countDONE. cbn [filter]. destruct (isDONE e); cbn [length]; lia.
Qed.

(** The calls of a run over a response body. *)
Lemma readStream_counts (cb : StreamCallbacks) (b : Body) :
  countComplete (calls (readStream cb b))
  = countDONE (events b) + (if endsQuietly (ending b) then 1 else 0) /\
  countError (calls (readStream cb b)) = (if endsQuietly (ending b) then 0 else 1).
Proof.
  unfold readStream.
  destruct (handleEvents_counts cb (events b) initial) as (Hc & He).
  cbn in Hc, He.
  destruct (ending b) as [| [| m |]]; cbn [endsQuietly outerCatch].
  - destruct (flush_counts cb (handleEvents cb (events b) initial)) as (-> & ->). lia.
  - destruct (flush_counts cb (handleEvents cb (events b) initial)) as (-> & ->). lia.
  - cbn [calls call]. rewrite countComplete_app, countError_app, Hc, He. cbn. lia.
  - cbn [calls call]. rewrite countComplete_app, countError_app, Hc, He. cbn. lia.
Qed.

(** The [onError] calls of a run over a response body. *)
Lemma readStream_errors (cb : StreamCallbacks) (b : Body) :
  filter isError (calls (readStream cb b))
  = match ending b with
    | EndOfStream => []
    | ReadThrows e =>
        match thrownMessage e with Some m => [onError m] | None => [] end
    end.
Proof.
  assert (Hnone : forall l : list Call, countError l = 0 -> filter isError l = []).
  { intros l H. unfold countError in H. now destruct (filter isError l). }
  pose proof (handleEvents_counts cb (events b) initial) as (_ & He). cbn in He.
  unfold readStream.
  destruct (ending b) as [| [| m |]]; cbn [outerCatch thrownMessage].
  - apply Hnone.
    destruct (flush_counts cb (handleEvents cb (events b) initial)) as (_ & ->). exact He.
  - apply Hnone.
    destruct (flush_counts cb (handleEvents cb (events b) initial)) as (_ & ->). exact He.
  - cbn [calls call]. rewrite filter_app, (Hnone _ He). reflexivity.
  - cbn [calls call]. rewrite filter_app, (Hnone _ He). reflexivity.
Qed.

End TraceFacts.

(* ===================================================================== *)
(** ** The request URL *)
(* ===================================================================== *)

Module UrlFacts.
Import Driver UrlSpec StrFacts.

Lemma removeFirst_cons (m : matcher) (c : ascii) (s : str) :
  m (c :: s) = None -> removeFirst m (c :: s) = c :: removeFirst m s.
Proof.
  intros H. unfold removeFirst. cbn [find]. rewrite H.
  destruct (find m s) as [[i n] |]; reflexivity.
Qed.

Lemma removeFirst_here (m : matcher) (s : str) (n : nat) :
  m s = Some n -> removeFirst m s = skipn n s.
Proof.
  intros H. unfold removeFirst. destruct s; cbn [find]; now rewrite H.
Qed.

Lemma removeFirst_nil (m : matcher) : m [] = None -> removeFirst m [] = [].
Proof. intros H. unfold removeFirst. cbn. now rewrite H. Qed.

Lemma strip_nil_iff (s : str) :
  stripTrailingSlashes s = [] <-> forallb isSlash s = true.
Proof.
  induction s as [| c s IH]; cbn [stripTrailingSlashes forallb]; [tauto |].
  destruct (stripTrailingSlashes s) as [| a r] eqn:E.
  - destruct (isSlash c); cbn [andb].
    + split; [intros _; now apply IH | reflexivity].
    + split; discriminate.
  - split; [discriminate |]. intros H. apply andb_prop in H.
    destruct H as (_ & H). apply IH in H. discriminate.
Qed.

Lemma removeFirst_slashes (s : str) :
  removeFirst slashes_to_end_at s = stripTrailingSlashes s.
Proof.
  induction s as [| c s IH]; [reflexivity |].
  destruct (slashes_to_end_at (c :: s)) as [n |] eqn:E.
  - rewrite (removeFirst_here _ _ _ E).
    unfold slashes_to_end_at in E. cbn [nonempty andb] in E.
    destruct (forallb (Ascii.eqb "/"%char) (c :: s)) eqn:F; [| discriminate].
    injection E as <-. change (S (length s)) with (length (c :: s)). rewrite skipn_all.
    symmetry. now apply strip_nil_iff.
  - rewrite (removeFirst_cons _ _ _ E), IH.
    unfold slashes_to_end_at in E. cbn [nonempty andb] in E.
    destruct (forallb (Ascii.eqb "/"%char) (c :: s)) eqn:F; [discriminate |].
    cbn [stripTrailingSlashes].
    destruct (stripTrailingSlashes s) as [| a r] eqn:G; [| reflexivity].
    apply strip_nil_iff in G. cbn [forallb] in F. unfold isSlash in *.
    destruct (Ascii.eqb "/"%char c); [| reflexivity].
    cbn [andb] in F. congruence.
Qed.

Lemma api_at_iff (s : str) :
  api_to_end_at s = (if (length s =? 4) && ci_prefix (lit "/api") s then Some 4 else None).
Proof. unfold api_to_end_at. now rewrite andb_comm. Qed.

Lemma find_api (s : str) :
  find api_to_end_at s = if endsWithApi s then Some (length s - 4, 4) else None.
Proof.
  induction s as [| c s IH]; [reflexivity |].
  cbn [find]. rewrite api_at_iff, IH. clear IH.
  unfold endsWithApi. cbn [length].
  destruct (length s =? 3) eqn:E3.
  - apply Nat.eqb_eq in E3.
    replace (S (length s) =? 4) with true by (symmetry; apply Nat.eqb_eq; lia).
    replace (4 <=? S (length s)) with true by (symmetry; apply Nat.leb_le; lia).
    replace (S (length s) - 4) with 0 by lia.
    replace (4 <=? length s) with false by (symmetry; apply Nat.leb_gt; lia).
    cbn [andb skipn]. now destruct (ci_prefix (lit "/api") (c :: s)).
  - apply Nat.eqb_neq in E3.
    replace (S (length s) =? 4) with false by (symmetry; apply Nat.eqb_neq; lia).
    cbn [andb].
    destruct (4 <=? length s) eqn:E4.
    + apply Nat.leb_le in E4.
      replace (4 <=? S (length s)) with true by (symmetry; apply Nat.leb_le; lia).
      replace (S (length s) - 4) with (S (length s - 4)) by lia.
      cbn [andb skipn].
      now destruct (ci_prefix (lit "/api") (skipn (length s - 4) s)).
    + apply Nat.leb_gt in E4.
      replace (4 <=? S (length s)) with false by (symmetry; apply Nat.leb_gt; lia).
      reflexivity.
Qed.

Lemma removeFirst_api (s : str) :
  removeFirst api_to_end_at s = stripApiSuffix s.
Proof.
  unfold removeFirst, stripApiSuffix. rewrite find_api.
  destruct (endsWithApi s) eqn:E; [| reflexivity].
  unfold endsWithApi in E. apply andb_prop in E. destruct E as (E & _).
  apply Nat.leb_le in E. unfold slice_to, slice_from.
  rewrite skipn_all2 by lia. apply app_nil_r.
Qed.

Lemma requestUrl_specUrl (baseUrl : str) : requestUrl baseUrl = specUrl baseUrl.
Proof.
  unfold requestUrl, normalizedBaseUrl, specUrl.
  now rewrite removeFirst_slashes, removeFirst_api.
Qed.

Lemma strip_app_slashes (s : str) (k : nat) :
  stripTrailingSlashes (s ++ repeat "/"%char k) = stripTrailingSlashes s.
Proof.
  induction s as [| c s IH]; cbn [app stripTrailingSlashes].
  - apply strip_nil_iff. induction k; [reflexivity | exact IHk].
  - now rewrite IH.
Qed.

(** A string that ends in a code unit other than a slash has nothing to
    strip. *)
Lemma strip_app_fixed (s a : str) :
  stripTrailingSlashes a = a -> a <> [] -> stripTrailingSlashes (s ++ a) = s ++ a.
Proof.
  intros Ha Hne. induction s as [| c s IH]; [exact Ha |].
  cbn [app stripTrailingSlashes]. rewrite IH.
  destruct (s ++ a) eqn:E; [| reflexivity].
  apply app_eq_nil in E. destruct E as (_ & E). contradiction.
Qed.

Lemma ci_suffix_api_fixed (a : str) :
  length a = 4 -> ci_prefix (lit "/api") a = true -> stripTrailingSlashes a = a.
Proof.
  intros Hlen Hp.
  destruct a as [| a0 [| a1 [| a2 [| a3 [| a4 a]]]]]; try discriminate Hlen.
  change (lit "/api") with ["/"; "a"; "p"; "i"]%char in Hp.
  cbn [ci_prefix] in Hp.
  apply andb_prop in Hp. destruct Hp as (_ & Hp).
  apply andb_prop in Hp. destruct Hp as (_ & Hp).
  apply andb_prop in Hp. destruct Hp as (_ & Hp).
  apply andb_prop in Hp. destruct Hp as (Hp & _).
  assert (H3 : isSlash a3 = false).
  { unfold isSlash. destruct (Ascii.eqb "/"%char a3) eqn:E; [| reflexivity].
    apply Ascii.eqb_eq in E. subst a3. discriminate Hp. }
  cbn [stripTrailingSlashes]. now rewrite H3.
Qed.

End UrlFacts.

(* ===================================================================== *)
(** ** The orchestration loop *)
(* ===================================================================== *)

Module ThunkFacts.
Import Thunk ThunkSpec StrFacts.

Lemma settle_settle (p s1 s2 : Settled) :
  settle (settle p s1) s2 = settle p (settle s1 s2).
Proof. now destruct p. Qed.

(** What the callbacks of a streaming call leave behind. *)
Lemma awaitStream_spec (cs : list Call) :
  forall p tcs st,
    exists st',
      awaitStream cs p tcs st = (settle p (settled cs), delivered cs tcs, st') /\
      Slice.messages st' = Slice.messages st /\
      Slice.streamingMessageId st' = Slice.streamingMessageId st /\
      Slice.error st' = errorAfter cs (Slice.error st) /\
      Slice.streamingContent st' = Slice.streamingContent st ++ contentOf cs.
Proof.
  induction cs as [| c cs IH]; intros p tcs st.
  - exists st. cbn. rewrite app_nil_r. now destruct p.
  - destruct c as [chunk | | m | toolCalls | r | u];
      cbn [awaitStream settled delivered errorAfter contentOf].
    + destruct (IH p tcs (if nonempty chunk then Slice.appendStreamingContent chunk st else st))
        as (st' & -> & Hm & Hid & He & Hc).
      exists st'. split; [reflexivity |].
      destruct (nonempty chunk) eqn:E.
      * do 3 (split; [assumption |]). rewrite Hc. cbn. now rewrite app_assoc.
      * apply nonempty_false in E. subst chunk. auto.
    + destruct (IH (settle p Resolved) tcs st) as (st' & -> & Hm & Hid & He & Hc).
      exists st'. rewrite settle_settle. cbn [settle]. auto.
    + destruct (IH (settle p (RejectedWith m)) tcs (Slice.setError (Some m) st))
        as (st' & -> & Hm & Hid & He & Hc).
      exists st'. rewrite settle_settle. cbn [settle]. auto.
    + destruct (IH p toolCalls (Slice.setToolCalls toolCalls st))
        as (st' & -> & Hm & Hid & He & Hc).
      exists st'. auto.
    + destruct (IH p tcs st) as (st' & -> & Hm & Hid & He & Hc). exists st'. auto.
    + destruct (IH p tcs st) as (st' & -> & Hm & Hid & He & Hc). exists st'. auto.
Qed.

Lemma addToolResult_fold (env : Env) (results : list Msg.ToolResult) :
  forall l st,
    let r := fold_left (addToolResult env) results (l, st) in
    messages (fst r) = messages l ++ map toolApi results /\
    iteration (fst r) = iteration l /\
    requests (fst r) = requests l /\
    uuids (fst r) = uuids l + length results.
Proof.
  induction results as [| x results IH]; intros l st; cbn [fold_left map length].
  - cbn. rewrite app_nil_r. auto.
  - cbn zeta in IH.
    match goal with
    | |- context [fold_left _ _ (addToolResult env (l, st) x)] =>
        destruct (addToolResult env (l, st) x) as (l1, st1) eqn:E
    end.
    cbn in E. injection E as <- <-.
    specialize (IH
      {| messages := messages l ++ [toolApi x]; iteration := iteration l;
         uuids := S (uuids l); requests := requests l |}
      (Slice.addToolCallMessage
         {| Msg.id := uuidv4 env (uuids l); Msg.role := Msg.tool;
            Msg.content := contentString x; Msg.attachments := None;
            Msg.toolCalls := None;
            Msg.tool_call_id := Some (Msg.result_tool_call_id x);
            Msg.name := Some (Msg.result_name x);
            Msg.toolResults := Some [x] |} st)).
    unfold toolApi in *. cbn zeta.
    destruct IH as (H1 & H2 & H3 & H4). cbn in H1, H2, H3, H4.
    rewrite H1, H2, H3, H4. rewrite <- app_assoc. cbn. repeat split; auto; lia.
Qed.

Section Round.
Variables (env : Env) (l : Local) (st : Slice.ChatState).




End Round.

(** *** The loop *)


Lemma toolLoop_stopped (fuel : nat) (env : Env) (l : Local) (st : Slice.ChatState) :
  toolLoop fuel env false l st = afterLoop false l st.
Proof. now destruct fuel. Qed.

Lemma loopBody_Continue_iteration (env : Env) (l l' : Local) (st st' : Slice.ChatState) :
  loopBody env l st = Continue l' st' -> iteration l' = S (iteration l).
Proof.
  unfold loopBody. cbn [iteration messages uuids requests].
  destruct (awaitStream _ _ _ _) as [[[| m |] tcs] st1]; try discriminate.
  destruct (parseArguments env tcs); [discriminate |].
  destruct (0 <? length tcs); [| discriminate].
  destruct (executeToolCalls env tcs) as [results | m]; [| discriminate].
  match goal with
  | |- context [fold_left (addToolResult env) results (?L, ?S)] =>
      pose proof (addToolResult_fold env results L S) as Hfold;
      destruct (fold_left (addToolResult env) results (L, S)) as (l2, st2)
  end.
  cbn in Hfold. destruct Hfold as (_ & H2 & _ & _).
  intros H. injection H as <- _. cbn. now rewrite H2.
Qed.

(** Above [MAX_TOOL_ITERATIONS - iteration] the amount of fuel does not
    matter: the loop ends by its own condition. *)
Lemma toolLoop_fuel (fuel1 : nat) :
  forall fuel2 env shouldContinue l st,
    MAX_TOOL_ITERATIONS - iteration l < fuel1 ->
    MAX_TOOL_ITERATIONS - iteration l < fuel2 ->
    toolLoop fuel1 env shouldContinue l st = toolLoop fuel2 env shouldContinue l st.
Proof.
  induction fuel1 as [| fuel1 IH]; intros fuel2 env sc l st H1 H2; [lia |].
  destruct fuel2 as [| fuel2]; [lia |].
  cbn [toolLoop].
  destruct sc; cbn [andb]; [| reflexivity].
  destruct (iteration l <? MAX_TOOL_ITERATIONS) eqn:E; [| reflexivity].
  apply Nat.ltb_lt in E.
  destruct (loopBody env l st) as [l' st' | l' st' | m l' st' | l' st'] eqn:B;
    try reflexivity.
  - apply loopBody_Continue_iteration in B. apply IH; lia.
  - now rewrite !toolLoop_stopped.
Qed.

Lemma toolChoice_expected (env : Env) (k : nat) :
  toolChoice (hasTools env) k = expectedChoice env k.
Proof.
  unfold toolChoice, expectedChoice.
  now destruct (hasTools env), (MAX_TOOL_ITERATIONS - 1 <=? k).
Qed.


Section Cap.
Variables (env : Env) (N : nat).
Hypothesis Hcalls :
  forall k req, k < N ->
    settled (provider env k req) = Resolved /\
    0 < length (delivered (provider env k req) []) /\
    parseArguments env (delivered (provider env k req) []) = None /\
    exists results,
      executeToolCalls env (delivered (provider env k req) []) = Returned results.
Hypothesis Hlast :
  N < MAX_TOOL_ITERATIONS ->
  forall req, settled (provider env N req) = Resolved /\
              delivered (provider env N req) [] = [].


End Cap.

End ThunkFacts.

(* ===================================================================== *)
(** ** The driver's callbacks *)
(* ===================================================================== *)

Module DriverFacts.
Import Accumulator Session Driver TraceSpec DriverSpec StrFacts.

Lemma forallb_snoc {A : Type} (P : A -> bool) (l : list A) (x : A) :
  forallb P (l ++ [x]) = forallb P l && P x.
Proof. rewrite forallb_app. cbn. now rewrite andb_true_r. Qed.

(** *** An invariant of the calls made *)

Section Calls.
Variables (cb : StreamCallbacks) (P : Call -> bool).
Hypothesis P_chunk : forall s, nonempty s = true -> P (onChunk s) = true.
Hypothesis P_reasoning :
  forall s, nonempty s = true -> hasOnReasoning cb = true -> P (onReasoning s) = true.
Hypothesis P_toolCalls :
  forall l, (0 <? length l) = true -> hasOnToolCalls cb = true -> P (onToolCalls l) = true.
Hypothesis P_usage : forall u, hasOnUsage cb = true -> P (onUsage u) = true.
Hypothesis P_complete : P onComplete = true.
Hypothesis P_error : forall m, P (onError m) = true.

Let Good (st : State) : Prop := forallb P (calls st) = true.

Lemma Good_emitContentIf (s : str) (st : State) : Good st -> Good (emitContentIf s st).
Proof.
  unfold Good, emitContentIf. intros H. destruct (nonempty s) eqn:E; [| exact H].
  cbn. rewrite forallb_snoc, H. now apply P_chunk.
Qed.

Lemma Good_emitReasoningIf (s : str) (st : State) :
  Good st -> Good (emitReasoningIf cb s st).
Proof.
  unfold Good, emitReasoningIf. intros H.
  destruct (nonempty s) eqn:E, (hasOnReasoning cb) eqn:R; try exact H.
  cbn. rewrite forallb_snoc, H. apply P_reasoning; auto.
Qed.

Lemma Good_setSplitter (d i : bool) (b : str) (st : State) :
  Good st -> Good (setSplitter d i b st).
Proof. exact (fun H => H). Qed.

Lemma Good_processBuffer (st : State) :
  Good st -> Good (processBufferWithKnownFormat cb st).
Proof.
  intros H. unfold processBufferWithKnownFormat.
  now apply Good_emitReasoningIf, Good_emitContentIf, Good_setSplitter.
Qed.

Lemma Good_feedContent (c : str) (st : State) : Good st -> Good (feedContent cb c st).
Proof.
  intros H. unfold feedContent. cbn [formatDetected setSplitter].
  destruct (formatDetected st); cbn [negb].
  - now apply Good_processBuffer, Good_setSplitter.
  - destruct (openMatch _) as [[i n] |].
    + now apply Good_processBuffer, Good_setSplitter, Good_emitContentIf, Good_setSplitter.
    + destruct (closeMatch _) as [[j k] |].
      * now apply Good_processBuffer, Good_setSplitter, Good_emitReasoningIf,
                  Good_setSplitter.
      * destruct (_ <=? _); [| now apply Good_setSplitter].
        now apply Good_processBuffer, Good_setSplitter, Good_setSplitter.
Qed.

Lemma Good_emitContent (s : str) (st : State) :
  (0 <? length s) = true -> Good st -> Good (emitContent s st).
Proof.
  unfold Good. intros Hs H. cbn. rewrite forallb_snoc, H.
  apply P_chunk. now rewrite nonempty_length.
Qed.

Lemma Good_call (c : Call) (st : State) : P c = true -> Good st -> Good (call c st).
Proof. unfold Good. intros Hc H. cbn. now rewrite forallb_snoc, H. Qed.

Lemma Good_flush (st : State) : Good st -> Good (flushBufferAndComplete cb st).
Proof.
  intros H. unfold flushBufferAndComplete. apply Good_call; [exact P_complete |].
  destruct (formatDetected st); cbn [negb andb].
  - destruct (0 <? length (pendingBuffer st)) eqn:E; [| exact H].
    apply Good_setSplitter.
    destruct (isInsideThinkBlock st).
    + destruct (hasOnReasoning cb) eqn:R; [| exact H].
      unfold Good. cbn. rewrite forallb_snoc, H.
      apply P_reasoning; [now rewrite nonempty_length | auto].
    + now apply Good_emitContent.
  - destruct (0 <? length (pendingBuffer st)) eqn:E; [| exact H].
    destruct (openMatch _) as [[i n] |].
    + apply Good_setSplitter.
      destruct (closeMatch (slice_from _ _)) as [[j k] |].
      * now apply Good_emitContentIf, Good_emitReasoningIf, Good_emitContentIf.
      * now apply Good_emitReasoningIf, Good_emitContentIf.
    + destruct (closeMatch _) as [[j k] |]; apply Good_setSplitter.
      * now apply Good_emitContentIf, Good_emitReasoningIf.
      * now apply Good_emitContent.
Qed.

Lemma Good_handleJson (json : Chunk) (st : State) : Good st -> Good (handleJson cb json st).
Proof.
  intros H. unfold handleJson.
  set (st1 := match content json with
              | Some c => if nonempty c then feedContent cb c st else st
              | None => st end).
  assert (H1 : Good st1).
  { subst st1. destruct (content json) as [c |]; [| exact H].
    destruct (nonempty c); [now apply Good_feedContent | exact H]. }
  set (st2 := match reasoning json with
              | Some r => if nonempty r && hasOnReasoning cb then emitReasoning r st1 else st1
              | None => st1 end).
  assert (H2 : Good st2).
  { subst st2. destruct (reasoning json) as [r |]; [| exact H1].
    destruct (nonempty r) eqn:E, (hasOnReasoning cb) eqn:R; try exact H1.
    unfold Good. cbn. rewrite forallb_snoc. rewrite H1. apply P_reasoning; auto. }
  set (st3 := match usage json with
              | Some u => if hasOnUsage cb then call (onUsage u) st2 else st2
              | None => st2 end).
  assert (H3 : Good st3).
  { subst st3. destruct (usage json) as [u |]; [| exact H2].
    destruct (hasOnUsage cb) eqn:U; [| exact H2].
    apply Good_call; [apply P_usage; auto | exact H2]. }
  set (st4 := match tool_calls json with
              | Some ds =>
                  if hasOnToolCalls cb
                  then setToolCalls (accumulateAll (accumulatedToolCalls st3) ds) st3
                  else st3
              | None => st3 end).
  assert (H4 : Good st4).
  { subst st4. destruct (tool_calls json) as [ds |]; [| exact H3].
    destruct (hasOnToolCalls cb); exact H3. }
  destruct (truthy (finish_reason json)); [| exact H4].
  set (st5 := match usage json with
              | Some u => if hasOnUsage cb then call (onUsage u) st4 else st4
              | None => st4 end).
  assert (H5 : Good st5).
  { subst st5. destruct (usage json) as [u |]; [| exact H4].
    destruct (hasOnUsage cb) eqn:U; [| exact H4].
    apply Good_call; [apply P_usage; auto | exact H4]. }
  destruct (0 <? length (accumulatedToolCalls st5)) eqn:E; cbn [andb]; [| exact H5].
  destruct (hasOnToolCalls cb) eqn:T; [| exact H5].
  apply Good_call; [| exact H5].
  apply P_toolCalls; [| auto].
  unfold finalize, values. now rewrite !length_map.
Qed.

Lemma Good_handleEvents (es : list SseData) :
  forall st, Good st -> Good (handleEvents cb es st).
Proof.
  induction es as [| e es IH]; intros st H; [exact H |].
  unfold handleEvents in *. cbn [fold_left]. apply IH.
  destruct e as [| json | d]; cbn [handleEvent].
  - now apply Good_flush.
  - now apply Good_handleJson.
  - exact H.
Qed.

Lemma Good_outerCatch (e : Thrown) (st : State) : Good st -> Good (outerCatch e st).
Proof. intros H. destruct e; cbn [outerCatch]; apply Good_call; auto. Qed.

Lemma calls_invariant (f : Fetch) : forallb P (streamChatCompletion cb f) = true.
Proof.
  assert (H0 : Good initial) by reflexivity.
  unfold streamChatCompletion.
  destruct f as [e | status statusText errorMessage body].
  - now apply Good_outerCatch.
  - destruct (negb (ok status)); [now apply Good_outerCatch |].
    destruct body as [b |]; [| now apply Good_outerCatch].
    unfold readStream.
    pose proof (Good_handleEvents (events b) initial H0) as H.
    destruct (ending b) as [| [| m |]].
    + now apply Good_flush.
    + now apply Good_flush.
    + now apply Good_outerCatch.
    + now apply Good_outerCatch.
Qed.

End Calls.

(** *** Text that is only buffered *)

(** While the text received is shorter than the detection threshold and
    holds no marker, every variable but the buffer is as at the start. *)
Lemma buffering_feed (cb : StreamCallbacks) (t x future : str) (st : State) :
  length t < FORMAT_DETECTION_THRESHOLD -> openMatch t = None -> closeMatch t = None ->
  st = setSplitter false false (pendingBuffer st) initial /\
  pendingBuffer st ++ x ++ future = t ->
  feedContent cb x st = setSplitter false false (pendingBuffer (feedContent cb x st)) initial /\
  pendingBuffer (feedContent cb x st) ++ future = t.
Proof.
  intros Hlen Ho Hc (Hst & Ht).
  rewrite app_assoc in Ht.
  assert (Ho' : openMatch (pendingBuffer st ++ x) = None).
  { apply (FindFacts.find_prefix_None _ TagFacts.open_TagLike _ future).
    unfold openMatch in Ho. now rewrite Ht. }
  assert (Hc' : closeMatch (pendingBuffer st ++ x) = None).
  { apply (FindFacts.find_prefix_None _ TagFacts.close_TagLike _ future).
    unfold closeMatch in Hc. now rewrite Ht. }
  assert (Hshort : (FORMAT_DETECTION_THRESHOLD <=? length (pendingBuffer st ++ x)) = false).
  { apply Nat.leb_gt. rewrite <- Ht, length_app in Hlen. lia. }
  unfold feedContent. rewrite Hst. cbn [formatDetected setSplitter initial negb
    isInsideThinkBlock pendingBuffer].
  rewrite Hst in Ho', Hc', Hshort, Ht. cbn [pendingBuffer setSplitter] in Ho', Hc', Hshort, Ht.
  rewrite Ho', Hc', Hshort. cbn [pendingBuffer setSplitter]. auto.
Qed.

(** *** The text handed out is no longer than the text received *)

Lemma processLoop_length (fuel : nat) :
  forall inside buf pc pr,
    let p := processLoop fuel inside buf pc pr in
    length (processedContent p) + length (processedReasoning p) + length (buffer' p)
    <= length pc + length pr + length buf.
Proof.
  induction fuel as [| fuel IH]; intros inside buf pc pr; cbn zeta; [cbn; lia |].
  cbn [processLoop].
  destruct (0 <? length buf); [| cbn; lia].
  destruct inside.
  - destruct (closeMatch buf) as [[i n] |] eqn:Hc.
    + apply (FindFacts.find_Some_inv _ TagFacts.close_TagLike) in Hc.
      destruct Hc as (Hlen & _ & _).
      specialize (IH false (slice_from (i + n) buf) pc (pr ++ slice_to i buf)).
      cbn zeta in IH. unfold slice_from, slice_to in *.
      rewrite length_app, length_firstn, length_skipn in IH. lia.
    + destruct (15 <? length buf) eqn:E; cbn; [| lia].
      unfold slice_from, slice_to. rewrite length_app, length_firstn, length_skipn. lia.
  - destruct (openMatch buf) as [[i n] |] eqn:Ho; destruct (closeMatch buf) as [[j k] |] eqn:Hc.
    + apply (FindFacts.find_Some_inv _ TagFacts.open_TagLike) in Ho.
      apply (FindFacts.find_Some_inv _ TagFacts.close_TagLike) in Hc.
      destruct Ho as (Hlen & _ & _), Hc as (Hlen' & _ & _).
      destruct (i <? j).
      * specialize (IH true (slice_from (i + n) buf) (pc ++ slice_to i buf) pr).
        cbn zeta in IH. unfold slice_from, slice_to in *.
        rewrite length_app, length_firstn, length_skipn in IH. lia.
      * specialize (IH false (slice_from (j + k) buf) pc (pr ++ slice_to j buf)).
        cbn zeta in IH. unfold slice_from, slice_to in *.
        rewrite length_app, length_firstn, length_skipn in IH. lia.
    + apply (FindFacts.find_Some_inv _ TagFacts.open_TagLike) in Ho.
      destruct Ho as (Hlen & _ & _).
      specialize (IH true (slice_from (i + n) buf) (pc ++ slice_to i buf) pr).
      cbn zeta in IH. unfold slice_from, slice_to in *.
      rewrite length_app, length_firstn, length_skipn in IH. lia.
    + apply (FindFacts.find_Some_inv _ TagFacts.close_TagLike) in Hc.
      destruct Hc as (Hlen' & _ & _).
      specialize (IH false (slice_from (j + k) buf) pc (pr ++ slice_to j buf)).
      cbn zeta in IH. unfold slice_from, slice_to in *.
      rewrite length_app, length_firstn, length_skipn in IH. lia.
    + destruct ((15 <? length buf) && _) eqn:E; cbn; [| lia].
      unfold slice_from, slice_to. rewrite length_app, length_firstn, length_skipn. lia.
Qed.

Lemma rfilter_length (cb : StreamCallbacks) (r : str) :
  length (Invariants.rfilter cb r) <= length r.
Proof. unfold Invariants.rfilter. destruct (hasOnReasoning cb); cbn; lia. Qed.

Lemma processBuffer_length (cb : StreamCallbacks) (st : State) :
  handedOut (processBufferWithKnownFormat cb st)
    + length (pendingBuffer (processBufferWithKnownFormat cb st))
  <= handedOut st + length (pendingBuffer st).
Proof.
  destruct (SessionFacts.processBuffer_view cb st) as (_ & _ & Hb & Hc & Hr).
  pose proof (processLoop_length (S (length (pendingBuffer st)))
                (isInsideThinkBlock st) (pendingBuffer st) [] []) as Hl.
  cbn zeta in Hl. cbn [length] in Hl.
  unfold handedOut. rewrite Hb, Hc, Hr, !length_app.
  pose proof (rfilter_length cb
    (processedReasoning (processLoop (S (length (pendingBuffer st)))
                           (isInsideThinkBlock st) (pendingBuffer st) [] []))).
  lia.
Qed.

Lemma emitContentIf_length (s : str) (st : State) :
  handedOut (emitContentIf s st) = handedOut st + length s /\
  pendingBuffer (emitContentIf s st) = pendingBuffer st.
Proof.
  destruct (SessionFacts.emitContentIf_out s st) as (Hc & Hr).
  destruct (SessionFacts.emitContentIf_splitter s st) as (_ & _ & Hb).
  unfold handedOut. rewrite Hc, Hr, length_app. split; [lia | exact Hb].
Qed.

Lemma emitReasoningIf_length (cb : StreamCallbacks) (s : str) (st : State) :
  handedOut (emitReasoningIf cb s st) <= handedOut st + length s /\
  pendingBuffer (emitReasoningIf cb s st) = pendingBuffer st.
Proof.
  destruct (SessionFacts.emitReasoningIf_out cb s st) as (Hc & Hr).
  destruct (SessionFacts.emitReasoningIf_splitter cb s st) as (_ & _ & Hb).
  unfold handedOut. rewrite Hc, Hr, length_app.
  pose proof (rfilter_length cb s). split; [lia | exact Hb].
Qed.

Lemma cut_length (i n : nat) (buf : str) :
  i + n <= length buf ->
  length (slice_to i buf) + length (slice_from (i + n) buf) <= length buf.
Proof.
  intros H. unfold slice_to, slice_from. rewrite length_firstn, length_skipn. lia.
Qed.

Lemma feedContent_length (cb : StreamCallbacks) (x : str) (st : State) :
  handedOut (feedContent cb x st) + length (pendingBuffer (feedContent cb x st))
  <= handedOut st + length (pendingBuffer st) + length x.
Proof.
  unfold feedContent. cbn [formatDetected setSplitter].
  set (buf := pendingBuffer st ++ x).
  assert (Hbuf : length buf = length (pendingBuffer st) + length x)
    by (subst buf; apply length_app).
  destruct (formatDetected st); cbn [negb].
  - etransitivity; [apply processBuffer_length |]. cbn. unfold handedOut. cbn. lia.
  - destruct (openMatch buf) as [[i n] |] eqn:Ho.
    + apply (FindFacts.find_Some_inv _ TagFacts.open_TagLike) in Ho.
      destruct Ho as (Hlen & _ & _).
      etransitivity; [apply processBuffer_length |].
      cbn [pendingBuffer setSplitter].
      change (handedOut (setSplitter true true (slice_from (i + n) buf)
                (emitContentIf (slice_to i buf)
                   (setSplitter false (isInsideThinkBlock st) buf st))))
        with (handedOut (emitContentIf (slice_to i buf)
                (setSplitter false (isInsideThinkBlock st) buf st))).
      destruct (emitContentIf_length (slice_to i buf)
                  (setSplitter false (isInsideThinkBlock st) buf st)) as (-> & _).
      pose proof (cut_length i n buf Hlen).
      change (handedOut (setSplitter false (isInsideThinkBlock st) buf st))
        with (handedOut st). lia.
    + destruct (closeMatch buf) as [[j k] |] eqn:Hc.
      * apply (FindFacts.find_Some_inv _ TagFacts.close_TagLike) in Hc.
        destruct Hc as (Hlen & _ & _).
        etransitivity; [apply processBuffer_length |].
        cbn [pendingBuffer setSplitter].
        change (handedOut (setSplitter true false (slice_from (j + k) buf)
                  (emitReasoningIf cb (slice_to j buf)
                     (setSplitter false (isInsideThinkBlock st) buf st))))
          with (handedOut (emitReasoningIf cb (slice_to j buf)
                  (setSplitter false (isInsideThinkBlock st) buf st))).
        destruct (emitReasoningIf_length cb (slice_to j buf)
                    (setSplitter false (isInsideThinkBlock st) buf st)) as (H1 & _).
        pose proof (cut_length j k buf Hlen).
        change (handedOut (setSplitter false (isInsideThinkBlock st) buf st))
          with (handedOut st) in H1. lia.
      * destruct (_ <=? _).
        -- etransitivity; [apply processBuffer_length |].
           cbn [pendingBuffer setSplitter]. unfold handedOut. cbn. lia.
        -- cbn [pendingBuffer setSplitter]. unfold handedOut. cbn. lia.
Qed.

Lemma flush_length (cb : StreamCallbacks) (st : State) :
  handedOut (flushBufferAndComplete cb st) <= handedOut st + length (pendingBuffer st).
Proof.
  unfold flushBufferAndComplete.
  match goal with
  | |- handedOut (call onComplete ?S) <= _ =>
      assert (Hcall : handedOut (call onComplete S) = handedOut S)
  end.
  { unfold handedOut. cbn [calls call].
    rewrite SessionFacts.contentOf_app, SessionFacts.reasoningOf_app. cbn.
    now rewrite !app_nil_r. }
  rewrite Hcall. clear Hcall.
  set (buf := pendingBuffer st).
  assert (Hemit : forall s st0, handedOut (emitContent s st0) = handedOut st0 + length s).
  { intros s st0. unfold handedOut. cbn [calls emitContent].
    rewrite SessionFacts.contentOf_app, SessionFacts.reasoningOf_app. cbn.
    rewrite !app_nil_r, length_app. lia. }
  assert (Hemr : forall s st0, handedOut (emitReasoning s st0) = handedOut st0 + length s).
  { intros s st0. unfold handedOut. cbn [calls emitReasoning].
    rewrite SessionFacts.contentOf_app, SessionFacts.reasoningOf_app. cbn.
    rewrite !app_nil_r, length_app. lia. }
  destruct (formatDetected st); cbn [negb andb].
  - destruct (0 <? length buf); [| lia].
    match goal with
    | |- handedOut (setSplitter _ _ _ ?S) <= _ =>
        change (handedOut (setSplitter _ _ _ S)) with (handedOut S)
    end.
    destruct (isInsideThinkBlock st).
    + destruct (hasOnReasoning cb); [rewrite Hemr |]; lia.
    + rewrite Hemit. lia.
  - destruct (0 <? length buf); [| lia].
    destruct (openMatch buf) as [[i n] |] eqn:Ho.
    + apply (FindFacts.find_Some_inv _ TagFacts.open_TagLike) in Ho.
      destruct Ho as (Hlen & _ & _).
      pose proof (cut_length i n buf Hlen) as Hcut.
      match goal with
      | |- handedOut (setSplitter _ _ _ ?S) <= _ =>
          change (handedOut (setSplitter _ _ _ S)) with (handedOut S)
      end.
      destruct (emitContentIf_length (slice_to i buf) st) as (H1 & _).
      destruct (closeMatch (slice_from (i + n) buf)) as [[j k] |] eqn:Hc.
      * apply (FindFacts.find_Some_inv _ TagFacts.close_TagLike) in Hc.
        destruct Hc as (Hlen' & _ & _).
        pose proof (cut_length j k _ Hlen') as Hcut'.
        destruct (emitReasoningIf_length cb (slice_to j (slice_from (i + n) buf))
                    (emitContentIf (slice_to i buf) st)) as (H2 & _).
        destruct (emitContentIf_length (slice_from (j + k) (slice_from (i + n) buf))
                    (emitReasoningIf cb (slice_to j (slice_from (i + n) buf))
                       (emitContentIf (slice_to i buf) st))) as (H3 & _).
        lia.
      * destruct (emitReasoningIf_length cb (slice_from (i + n) buf)
                    (emitContentIf (slice_to i buf) st)) as (H2 & _).
        lia.
    + destruct (closeMatch buf) as [[j k] |] eqn:Hc.
      * apply (FindFacts.find_Some_inv _ TagFacts.close_TagLike) in Hc.
        destruct Hc as (Hlen & _ & _).
        pose proof (cut_length j k buf Hlen) as Hcut.
        match goal with
        | |- handedOut (setSplitter _ _ _ ?S) <= _ =>
            change (handedOut (setSplitter _ _ _ S)) with (handedOut S)
        end.
        destruct (emitReasoningIf_length cb (slice_to j buf) st) as (H1 & _).
        destruct (emitContentIf_length (slice_from (j + k) buf)
                    (emitReasoningIf cb (slice_to j buf) st)) as (H2 & _).
        lia.
      * match goal with
        | |- handedOut (setSplitter _ _ _ ?S) <= _ =>
            change (handedOut (setSplitter _ _ _ S)) with (handedOut S)
        end.
        rewrite Hemit. lia.
Qed.

(** *** Usage and tool calls over a stream *)

Lemma usagesOf_app (t1 t2 : list Call) : usagesOf (t1 ++ t2) = usagesOf t1 ++ usagesOf t2.
Proof. induction t1 as [| [] t1 IH]; cbn; rewrite ?IH; reflexivity. Qed.

Lemma usagesOf_text (l : list Call) : textOnly l = true -> usagesOf l = [].
Proof.
  induction l as [| [] l IH]; cbn; try discriminate; auto.
Qed.

Lemma usagesOf_toolCallsCall (cb : StreamCallbacks) (m : ToolCallMap) :
  usagesOf (toolCallsCall cb m) = [].
Proof. unfold toolCallsCall. now destruct (_ && _). Qed.

Lemma Extends_usages (st st' : State) :
  Extends st st' -> usagesOf (calls st') = usagesOf (calls st) /\
                    accumulatedToolCalls st' = accumulatedToolCalls st.
Proof.
  intros (Ht & l & Hl & Htext). split; [| exact Ht].
  rewrite Hl, usagesOf_app, (usagesOf_text _ Htext). apply app_nil_r.
Qed.

Lemma flush_toolCalls (cb : StreamCallbacks) (st : State) :
  accumulatedToolCalls (flushBufferAndComplete cb st) = accumulatedToolCalls st.
Proof.
  unfold flushBufferAndComplete. cbn [accumulatedToolCalls call].
  assert (Hc : forall s st0, accumulatedToolCalls (emitContentIf s st0) = accumulatedToolCalls st0)
    by (intros; unfold emitContentIf; now destruct (nonempty _)).
  assert (Hr : forall s st0, accumulatedToolCalls (emitReasoningIf cb s st0) = accumulatedToolCalls st0)
    by (intros; unfold emitReasoningIf; now destruct (_ && _)).
  destruct (negb (formatDetected st) && _).
  - destruct (openMatch _) as [[i n] |].
    + destruct (closeMatch (slice_from _ _)) as [[j k] |]; cbn [accumulatedToolCalls setSplitter];
        now rewrite ?Hc, ?Hr, ?Hc.
    + destruct (closeMatch _) as [[j k] |]; cbn [accumulatedToolCalls setSplitter emitContent];
        now rewrite ?Hc, ?Hr.
  - destruct (0 <? _); [| reflexivity].
    destruct (isInsideThinkBlock st); [destruct (hasOnReasoning cb) |]; reflexivity.
Qed.

Lemma flush_usages (cb : StreamCallbacks) (st : State) :
  usagesOf (calls (flushBufferAndComplete cb st)) = usagesOf (calls st).
Proof.
  destruct (TraceFacts.flush_calls cb st) as (l & -> & Htext).
  rewrite !usagesOf_app, (usagesOf_text _ Htext). cbn. now rewrite app_nil_r.
Qed.

(** The first three blocks of the frame handler: content, reasoning,
    usage. *)
Lemma handleJson_view (cb : StreamCallbacks) (json : Chunk) (st : State) :
  usagesOf (calls (handleJson cb json st)) = usagesOf (calls st) ++ usageOf cb (Json json) /\
  accumulatedToolCalls (handleJson cb json st) = mergedToolCalls cb json st.
Proof.
  unfold handleJson, usageOf, mergedToolCalls.
  set (st1 := match content json with
              | Some c => if nonempty c then feedContent cb c st else st
              | None => st end).
  assert (H1 : Extends st st1).
  { subst st1. destruct (content json) as [c |]; [| apply TraceFacts.Extends_refl].
    destruct (nonempty c); [apply TraceFacts.Extends_feedContent | apply TraceFacts.Extends_refl]. }
  set (st2 := match reasoning json with
              | Some r => if nonempty r && hasOnReasoning cb then emitReasoning r st1 else st1
              | None => st1 end).
  assert (H2 : Extends st st2).
  { subst st2. destruct (reasoning json) as [r |]; [| exact H1].
    destruct (_ && _); [| exact H1].
    eapply TraceFacts.Extends_trans; [exact H1 | apply TraceFacts.Extends_emitReasoning]. }
  apply Extends_usages in H2. destruct H2 as (Hu & Ht).
  clearbody st2. clear H1 st1.
  destruct (usage json) as [u |]; [destruct (hasOnUsage cb) |];
    (destruct (tool_calls json) as [ds |]; [destruct (hasOnToolCalls cb) eqn:T |]);
    destruct (truthy (finish_reason json));
    cbn [accumulatedToolCalls setToolCalls call calls];
    repeat match goal with
    | |- context [if ?c then _ else _] => destruct c
    end;
    cbn [accumulatedToolCalls setToolCalls call calls];
    rewrite ?usagesOf_app, ?Hu, ?Ht, <- ?app_assoc; cbn [usagesOf app];
    rewrite ?app_nil_r; auto.
Qed.

Lemma handleEvent_view (cb : StreamCallbacks) (e : SseData) (st : State) :
  usagesOf (calls (handleEvent cb e st)) = usagesOf (calls st) ++ usageOf cb e /\
  accumulatedToolCalls (handleEvent cb e st)
  = if hasOnToolCalls cb
    then accumulateAll (accumulatedToolCalls st) (deltasOf e)
    else accumulatedToolCalls st.
Proof.
  destruct e as [| json | d]; cbn [handleEvent usageOf deltasOf].
  - rewrite flush_usages, flush_toolCalls, app_nil_r.
    split; [reflexivity | now destruct (hasOnToolCalls cb)].
  - destruct (handleJson_view cb json st) as (Hu & Ht). split; [exact Hu |].
    rewrite Ht. unfold mergedToolCalls.
    destruct (tool_calls json), (hasOnToolCalls cb); reflexivity.
  - rewrite app_nil_r. split; [reflexivity | now destruct (hasOnToolCalls cb)].
Qed.

Lemma handleEvents_view (cb : StreamCallbacks) (es : list SseData) :
  forall st,
    usagesOf (calls (handleEvents cb es st)) = usagesOf (calls st) ++ flat_map (usageOf cb) es /\
    accumulatedToolCalls (handleEvents cb es st)
    = if hasOnToolCalls cb
      then accumulateAll (accumulatedToolCalls st) (flat_map deltasOf es)
      else accumulatedToolCalls st.
Proof.
  induction es as [| e es IH]; intros st.
  - cbn. rewrite app_nil_r. split; [reflexivity | now destruct (hasOnToolCalls cb)].
  - unfold handleEvents in *. cbn [fold_left flat_map].
    destruct (IH (handleEvent cb e st)) as (Hu & Ht).
    destruct (handleEvent_view cb e st) as (Hu1 & Ht1).
    rewrite Hu, Hu1, Ht, Ht1, <- app_assoc. split; [reflexivity |].
    destruct (hasOnToolCalls cb); [| reflexivity].
    unfold accumulateAll. now rewrite fold_left_app.
Qed.

Lemma accumulateAll_nonempty (ds : list ToolCallDelta) :
  ds <> [] -> (0 <? length (accumulateAll [] ds)) = true.
Proof.
  intros Hds. rewrite AccumulatorFacts.accumulateAll_tabulate.
  unfold AccumulatorSpec.tabulate. rewrite length_map.
  destruct ds as [| d ds]; [contradiction |].
  assert (Hin : In (index d) (AccumulatorSpec.firstSeen (map index (d :: ds))))
    by (apply AccumulatorFacts.firstSeen_In; now left).
  destruct (AccumulatorSpec.firstSeen _); [contradiction | reflexivity].
Qed.

(** *** The content handed out does not depend on the other fields *)

Lemma SameContent_emitContentIf (s : str) (st st' : State) :
  SameContent st st' -> SameContent (emitContentIf s st) (emitContentIf s st').
Proof.
  intros (Hd & Hi & Hb & Hc). unfold SameContent.
  destruct (SessionFacts.emitContentIf_splitter s st) as (-> & -> & ->).
  destruct (SessionFacts.emitContentIf_splitter s st') as (-> & -> & ->).
  destruct (SessionFacts.emitContentIf_out s st) as (-> & _).
  destruct (SessionFacts.emitContentIf_out s st') as (-> & _).
  repeat split; congruence.
Qed.

Lemma SameContent_emitReasoningIf (cb cb' : StreamCallbacks) (s s' : str) (st st' : State) :
  SameContent st st' -> SameContent (emitReasoningIf cb s st) (emitReasoningIf cb' s' st').
Proof.
  intros (Hd & Hi & Hb & Hc). unfold SameContent.
  destruct (SessionFacts.emitReasoningIf_splitter cb s st) as (-> & -> & ->).
  destruct (SessionFacts.emitReasoningIf_splitter cb' s' st') as (-> & -> & ->).
  destruct (SessionFacts.emitReasoningIf_out cb s st) as (-> & _).
  destruct (SessionFacts.emitReasoningIf_out cb' s' st') as (-> & _).
  repeat split; congruence.
Qed.

Lemma SameContent_setSplitter (d i : bool) (b : str) (st st' : State) :
  SameContent st st' -> SameContent (setSplitter d i b st) (setSplitter d i b st').
Proof. intros (_ & _ & _ & Hc). repeat split. exact Hc. Qed.

Lemma SameContent_processBuffer (cb cb' : StreamCallbacks) (st st' : State) :
  SameContent st st' ->
  SameContent (processBufferWithKnownFormat cb st) (processBufferWithKnownFormat cb' st').
Proof.
  intros (Hd & Hi & Hb & Hc).
  destruct (SessionFacts.processBuffer_view cb st) as (H1 & H2 & H3 & H4 & _).
  destruct (SessionFacts.processBuffer_view cb' st') as (H1' & H2' & H3' & H4' & _).
  unfold SameContent. rewrite H1, H2, H3, H4, H1', H2', H3', H4', Hd, Hi, Hb, Hc.
  repeat split.
Qed.

Lemma SameContent_feedContent (cb cb' : StreamCallbacks) (c : str) (st st' : State) :
  SameContent st st' -> SameContent (feedContent cb c st) (feedContent cb' c st').
Proof.
  intros H. pose proof H as (Hd & Hi & Hb & Hc).
  unfold feedContent. cbn [formatDetected setSplitter].
  rewrite <- Hd, <- Hi, <- Hb.
  assert (H0 : forall d i b, SameContent (setSplitter d i b st) (setSplitter d i b st'))
    by (intros; now apply SameContent_setSplitter).
  destruct (formatDetected st); cbn [negb].
  - apply SameContent_processBuffer, H0.
  - destruct (openMatch _) as [[i n] |].
    + apply SameContent_processBuffer, SameContent_setSplitter,
            SameContent_emitContentIf, H0.
    + destruct (closeMatch _) as [[j k] |].
      * apply SameContent_processBuffer, SameContent_setSplitter,
              SameContent_emitReasoningIf, H0.
      * destruct (_ <=? _); [| apply H0].
        apply SameContent_processBuffer, SameContent_setSplitter, H0.
Qed.

Lemma SameContent_call (c c' : Call) (st st' : State) :
  contentOf [c] = contentOf [c'] ->
  SameContent st st' -> SameContent (call c st) (call c' st').
Proof.
  intros Hcc (Hd & Hi & Hb & Hc). repeat split; auto.
  cbn [calls call]. rewrite !SessionFacts.contentOf_app. congruence.
Qed.

Lemma SameContent_call_l (c : Call) (st st' : State) :
  contentOf [c] = [] -> SameContent st st' -> SameContent (call c st) st'.
Proof.
  intros Hcc (Hd & Hi & Hb & Hc). repeat split; auto.
  cbn [calls call]. rewrite SessionFacts.contentOf_app, Hcc. now rewrite app_nil_r.
Qed.

Lemma SameContent_emitContent (s : str) (st st' : State) :
  SameContent st st' -> SameContent (emitContent s st) (emitContent s st').
Proof.
  intros (Hd & Hi & Hb & Hc). repeat split; auto.
  cbn [calls emitContent]. rewrite !SessionFacts.contentOf_app. congruence.
Qed.

Lemma SameContent_emitReasoning_l (s : str) (st st' : State) :
  SameContent st st' -> SameContent (emitReasoning s st) st'.
Proof.
  intros (Hd & Hi & Hb & Hc). repeat split; auto.
  cbn [calls emitReasoning]. rewrite SessionFacts.contentOf_app. cbn.
  now rewrite app_nil_r.
Qed.

Lemma SameContent_sym (st st' : State) : SameContent st st' -> SameContent st' st.
Proof. intros (Hd & Hi & Hb & Hc). repeat split; auto. Qed.

Lemma SameContent_trans (st1 st2 st3 : State) :
  SameContent st1 st2 -> SameContent st2 st3 -> SameContent st1 st3.
Proof.
  intros (Hd & Hi & Hb & Hc) (Hd' & Hi' & Hb' & Hc'). repeat split; congruence.
Qed.

Lemma SameContent_flush (cb cb' : StreamCallbacks) (st st' : State) :
  SameContent st st' ->
  SameContent (flushBufferAndComplete cb st) (flushBufferAndComplete cb' st').
Proof.
  intros H. pose proof H as (Hd & Hi & Hb & Hc).
  unfold flushBufferAndComplete. apply SameContent_call; [reflexivity |].
  rewrite <- Hd, <- Hi, <- Hb.
  set (buf := pendingBuffer st).
  assert (Hset : forall s s', SameContent s s' ->
            SameContent (setSplitter (formatDetected s) (isInsideThinkBlock s) [] s)
                        (setSplitter (formatDetected s') (isInsideThinkBlock s') [] s')).
  { intros s0 s0' (Hd0 & Hi0 & _ & Hc0). repeat split; auto. }
  destruct (negb (formatDetected st) && (0 <? length buf)).
  - destruct (openMatch buf) as [[i n] |].
    + apply Hset.
      destruct (closeMatch (slice_from (i + n) buf)) as [[j k] |].
      * now apply SameContent_emitContentIf, SameContent_emitReasoningIf,
                  SameContent_emitContentIf.
      * now apply SameContent_emitReasoningIf, SameContent_emitContentIf.
    + destruct (closeMatch buf) as [[j k] |]; apply Hset.
      * now apply SameContent_emitContentIf, SameContent_emitReasoningIf.
      * now apply SameContent_emitContent.
  - destruct (0 <? length buf); [| exact H].
    apply Hset. destruct (isInsideThinkBlock st).
    + destruct (hasOnReasoning cb), (hasOnReasoning cb'); auto.
      * apply SameContent_emitReasoning_l, SameContent_sym,
              SameContent_emitReasoning_l, SameContent_sym, H.
      * now apply SameContent_emitReasoning_l.
      * now apply SameContent_sym, SameContent_emitReasoning_l, SameContent_sym.
    + now apply SameContent_emitContent.
Qed.

(** The blocks of the frame handler behind the content block leave the
    splitter and the content alone. *)
Lemma SameContent_handleJson (cb cb' : StreamCallbacks) (json : Chunk) (st st' : State) :
  SameContent st st' ->
  SameContent (handleJson cb json st)
              (match content json with
               | Some c => if nonempty c then feedContent cb' c st' else st'
               | None => st'
               end).
Proof.
  intros H.
  set (target := match content json with
                 | Some c => if nonempty c then feedContent cb' c st' else st'
                 | None => st' end).
  unfold handleJson.
  set (st1 := match content json with
              | Some c => if nonempty c then feedContent cb c st else st
              | None => st end).
  assert (H1 : SameContent st1 target).
  { subst st1 target. destruct (content json) as [c |]; [| exact H].
    destruct (nonempty c); [now apply SameContent_feedContent | exact H]. }
  clearbody st1 target.
  set (st2 := match reasoning json with
              | Some r => if nonempty r && hasOnReasoning cb then emitReasoning r st1 else st1
              | None => st1 end).
  assert (H2 : SameContent st2 target).
  { subst st2. destruct (reasoning json) as [r |]; [| exact H1].
    destruct (_ && _); [now apply SameContent_emitReasoning_l | exact H1]. }
  clearbody st2.
  set (st3 := match usage json with
              | Some u => if hasOnUsage cb then call (onUsage u) st2 else st2
              | None => st2 end).
  assert (H3 : SameContent st3 target).
  { subst st3. destruct (usage json) as [u |]; [| exact H2].
    destruct (hasOnUsage cb); [now apply SameContent_call_l | exact H2]. }
  clearbody st3.
  set (st4 := match tool_calls json with
              | Some ds =>
                  if hasOnToolCalls cb
                  then setToolCalls (accumulateAll (accumulatedToolCalls st3) ds) st3
                  else st3
              | None => st3 end).
  assert (H4 : SameContent st4 target).
  { subst st4. destruct (tool_calls json) as [ds |]; [| exact H3].
    destruct (hasOnToolCalls cb); exact H3. }
  clearbody st4.
  destruct (truthy (finish_reason json)); [| exact H4].
  set (st5 := match usage json with
              | Some u => if hasOnUsage cb then call (onUsage u) st4 else st4
              | None => st4 end).
  assert (H5 : SameContent st5 target).
  { subst st5. destruct (usage json) as [u |]; [| exact H4].
    destruct (hasOnUsage cb); [now apply SameContent_call_l | exact H4]. }
  clearbody st5.
  destruct (_ && _); [now apply SameContent_call_l | exact H5].
Qed.

Lemma handleJson_contentPart (cb : StreamCallbacks) (json : Chunk) (st : State) :
  handleEvent cb (contentPart (Json json)) st
  = match content json with
    | Some c => if nonempty c then feedContent cb c st else st
    | None => st
    end.
Proof.
  cbn [contentPart handleEvent]. unfold handleJson.
  cbn [content reasoning usage tool_calls finish_reason truthy].
  reflexivity.
Qed.

Lemma SameContent_handleEvents (cb cb' : StreamCallbacks) (es : list SseData) :
  forall st st',
    SameContent st st' ->
    SameContent (handleEvents cb es st) (handleEvents cb' (map contentPart es) st').
Proof.
  induction es as [| e es IH]; intros st st' H; [exact H |].
  unfold handleEvents in *. cbn [map fold_left]. apply IH.
  destruct e as [| json | d].
  - cbn [contentPart handleEvent]. now apply SameContent_flush.
  - rewrite handleJson_contentPart. cbn [handleEvent].
    now apply SameContent_handleJson.
  - exact H.
Qed.

(** *** The text held back *)

Lemma processLoop_bound (fuel : nat) :
  forall inside buf pc pr,
    length buf < fuel ->
    let p := processLoop fuel inside buf pc pr in
    length (buffer' p) <= 15 \/
    (inside' p = false /\ includes "<"%char (slice_last 15 (buffer' p)) = true).
Proof.
  induction fuel as [| fuel IH]; intros inside buf pc pr Hfuel; [lia |].
  assert (Hpos : forall m i n, Invariants.TagLike m -> find m buf = Some (i, n) ->
                               length (slice_from (i + n) buf) < fuel).
  { intros m i n Hm Hf. apply (FindFacts.find_Some_inv _ Hm) in Hf.
    destruct Hf as (Hlen & Hat & _).
    apply (Invariants.tag_bound _ Hm) in Hat. unfold slice_from.
    rewrite length_skipn. lia. }
  cbn zeta. cbn [processLoop].
  destruct (0 <? length buf) eqn:E0; cbn [buffer' inside'];
    [| apply Nat.ltb_ge in E0; left; lia].
  destruct inside.
  - destruct (closeMatch buf) as [[i n] |] eqn:Hc.
    + apply IH. now apply (Hpos close_at i n TagFacts.close_TagLike).
    + destruct (15 <? length buf) eqn:E; cbn [buffer' inside'].
      * apply Nat.ltb_lt in E. left. unfold slice_from. rewrite length_skipn. lia.
      * apply Nat.ltb_ge in E. left. exact E.
  - destruct (openMatch buf) as [[i n] |] eqn:Ho;
      destruct (closeMatch buf) as [[j k] |] eqn:Hc.
    + destruct (i <? j); apply IH.
      * now apply (Hpos open_at i n TagFacts.open_TagLike).
      * now apply (Hpos close_at j k TagFacts.close_TagLike).
    + apply IH. now apply (Hpos open_at i n TagFacts.open_TagLike).
    + apply IH. now apply (Hpos close_at j k TagFacts.close_TagLike).
    + destruct (15 <? length buf) eqn:E; cbn [andb].
      * destruct (includes "<"%char (slice_last 15 buf)) eqn:I; cbn [negb buffer' inside'].
        -- right. auto.
        -- apply Nat.ltb_lt in E. left. unfold slice_from. rewrite length_skipn. lia.
      * cbn [buffer' inside']. apply Nat.ltb_ge in E. left. exact E.
Qed.

Lemma HoldsBack_processBuffer (cb : StreamCallbacks) (st : State) :
  formatDetected st = true -> HoldsBack (processBufferWithKnownFormat cb st).
Proof.
  intros Hd. destruct (SessionFacts.processBuffer_view cb st) as (H1 & H2 & H3 & _).
  unfold HoldsBack. rewrite H1, Hd, H2, H3.
  apply processLoop_bound. lia.
Qed.

Lemma HoldsBack_feedContent (cb : StreamCallbacks) (x : str) (st : State) :
  HoldsBack (feedContent cb x st).
Proof.
  unfold feedContent. cbn [formatDetected setSplitter].
  destruct (formatDetected st) eqn:Hd; cbn [negb].
  - apply HoldsBack_processBuffer. reflexivity.
  - destruct (openMatch _) as [[i n] |].
    + apply HoldsBack_processBuffer. reflexivity.
    + destruct (closeMatch _) as [[j k] |].
      * apply HoldsBack_processBuffer. reflexivity.
      * destruct (_ <=? _) eqn:E.
        -- apply HoldsBack_processBuffer. reflexivity.
        -- unfold HoldsBack. cbn [formatDetected pendingBuffer setSplitter].
           now apply Nat.leb_gt in E.
Qed.

Lemma flush_buffer (cb : StreamCallbacks) (st : State) :
  pendingBuffer (flushBufferAndComplete cb st) = [] /\
  formatDetected (flushBufferAndComplete cb st) = formatDetected st.
Proof.
  unfold flushBufferAndComplete. cbn [pendingBuffer formatDetected call].
  assert (Hc : forall s st0, formatDetected (emitContentIf s st0) = formatDetected st0)
    by (intros; unfold emitContentIf; now destruct (nonempty _)).
  assert (Hr : forall s st0, formatDetected (emitReasoningIf cb s st0) = formatDetected st0)
    by (intros; unfold emitReasoningIf; now destruct (_ && _)).
  destruct (0 <? length (pendingBuffer st)) eqn:E.
  - rewrite andb_true_r. destruct (formatDetected st) eqn:Hd; cbn [negb].
    + cbn [pendingBuffer formatDetected setSplitter].
      destruct (isInsideThinkBlock st); [destruct (hasOnReasoning cb) |]; cbn; auto.
    + destruct (openMatch _) as [[i n] |].
      * cbn [pendingBuffer formatDetected setSplitter].
        destruct (closeMatch (slice_from _ _)) as [[j k] |];
          rewrite ?Hc, ?Hr, ?Hc; auto.
      * destruct (closeMatch _) as [[j k] |];
          cbn [pendingBuffer formatDetected setSplitter emitContent];
          rewrite ?Hc, ?Hr; auto.
  - rewrite andb_false_r. apply Nat.ltb_ge in E.
    destruct (pendingBuffer st); [auto | cbn in E; lia].
Qed.

Lemma HoldsBack_flush (cb : StreamCallbacks) (st : State) :
  HoldsBack (flushBufferAndComplete cb st).
Proof.
  destruct (flush_buffer cb st) as (Hb & Hd). unfold HoldsBack. rewrite Hb.
  destruct (formatDetected (flushBufferAndComplete cb st)); cbn; [left |];
    unfold FORMAT_DETECTION_THRESHOLD; lia.
Qed.

Lemma handleJson_splitter (cb : StreamCallbacks) (json : Chunk) (st : State) :
  SameContent (handleJson cb json st)
              (match content json with
               | Some c => if nonempty c then feedContent cb c st else st
               | None => st
               end).
Proof. apply SameContent_handleJson. repeat split. Qed.

Lemma HoldsBack_same (st st' : State) : SameContent st st' -> HoldsBack st' -> HoldsBack st.
Proof. intros (Hd & Hi & Hb & _). unfold HoldsBack. now rewrite Hd, Hi, Hb. Qed.

Lemma HoldsBack_handleEvents (cb : StreamCallbacks) (es : list SseData) :
  forall st, HoldsBack st -> HoldsBack (handleEvents cb es st).
Proof.
  induction es as [| e es IH]; intros st H; [exact H |].
  unfold handleEvents in *. cbn [fold_left]. apply IH.
  destruct e as [| json | d]; cbn [handleEvent].
  - apply HoldsBack_flush.
  - apply (HoldsBack_same _ _ (handleJson_splitter cb json st)).
    destruct (content json) as [c |]; [| exact H].
    destruct (nonempty c); [apply HoldsBack_feedContent | exact H].
  - exact H.
Qed.

(** *** Text that is held back entirely *)

Lemma includes_position (c : ascii) (s : str) :
  includes c s = true -> exists j u, skipn j s = c :: u /\ j < length s.
Proof.
  induction s as [| a s IH]; [discriminate |]. cbn [includes existsb].
  destruct (Ascii.eqb c a) eqn:E; cbn [orb].
  - intros _. apply Ascii.eqb_eq in E. subst a. exists 0, s. cbn. split; [reflexivity | lia].
  - intros H. destruct (IH H) as (j & u & Hj & Hlt). exists (S j), u. cbn. split; [exact Hj | lia].
Qed.

Lemma nearMarker_tail (b f : str) :
  nearMarker f = true -> includes "<"%char (slice_last 15 (b ++ f)) = true.
Proof.
  unfold nearMarker. intros H. apply andb_true_iff in H. destruct H as (Hin & Hlen).
  apply Nat.leb_le in Hlen.
  destruct (includes_position _ _ Hin) as (j & u & Hj & Hlt).
  apply (includes_slice_last "<"%char 15 (length b + j) (b ++ f) u).
  - rewrite skipn_app. rewrite skipn_all2 by lia.
    replace (length b + j - length b) with j by lia. exact Hj.
  - rewrite length_app. lia.
Qed.

Lemma processBuffer_hold (cb : StreamCallbacks) (st : State) :
  isInsideThinkBlock st = false ->
  openMatch (pendingBuffer st) = None -> closeMatch (pendingBuffer st) = None ->
  includes "<"%char (slice_last 15 (pendingBuffer st)) = true ->
  processBufferWithKnownFormat cb st
  = setSplitter (formatDetected st) false (pendingBuffer st) st.
Proof.
  intros Hi Ho Hc Hg. unfold processBufferWithKnownFormat.
  rewrite Hi, (SessionFacts.processLoop_hold _ _ Ho Hc Hg). reflexivity.
Qed.

(** A fragment near a marker, on a buffer without marker: nothing is
    handed out. *)
Lemma feedContent_hold (cb : StreamCallbacks) (f : str) (st : State) :
  isInsideThinkBlock st = false -> nearMarker f = true ->
  openMatch (pendingBuffer st ++ f) = None ->
  closeMatch (pendingBuffer st ++ f) = None ->
  isInsideThinkBlock (feedContent cb f st) = false /\
  pendingBuffer (feedContent cb f st) = pendingBuffer st ++ f /\
  calls (feedContent cb f st) = calls st.
Proof.
  intros Hi Hf Ho Hc. pose proof (nearMarker_tail (pendingBuffer st) f Hf) as Hg.
  unfold feedContent. cbn [formatDetected setSplitter isInsideThinkBlock].
  rewrite Ho, Hc.
  destruct (formatDetected st) eqn:Hd; cbn [negb].
  - rewrite processBuffer_hold; cbn [isInsideThinkBlock pendingBuffer calls setSplitter]; auto.
  - destruct (FORMAT_DETECTION_THRESHOLD <=? length (pendingBuffer st ++ f)).
    + rewrite processBuffer_hold;
        cbn [isInsideThinkBlock pendingBuffer calls setSplitter]; auto.
    + cbn [isInsideThinkBlock pendingBuffer calls setSplitter]. auto.
Qed.

Lemma handleEvents_hold (cb : StreamCallbacks) (fragments : list str) :
  forall st,
    isInsideThinkBlock st = false ->
    forallb nearMarker fragments = true ->
    openMatch (pendingBuffer st ++ concat fragments) = None ->
    closeMatch (pendingBuffer st ++ concat fragments) = None ->
    pendingBuffer (handleEvents cb (map contentFrame fragments) st)
      = pendingBuffer st ++ concat fragments /\
    calls (handleEvents cb (map contentFrame fragments) st) = calls st.
Proof.
  induction fragments as [| f fragments IH]; intros st Hi Hall Ho Hc.
  - cbn. now rewrite app_nil_r.
  - cbn [forallb] in Hall. apply andb_true_iff in Hall. destruct Hall as (Hf & Hall).
    cbn [concat] in Ho, Hc. rewrite app_assoc in Ho, Hc.
    destruct (feedContent_hold cb f st Hi Hf
                (FindFacts.find_prefix_None _ TagFacts.open_TagLike _ _ Ho)
                (FindFacts.find_prefix_None _ TagFacts.close_TagLike _ _ Hc))
      as (Hi' & Hb' & Hc').
    unfold handleEvents in *. cbn [map fold_left concat].
    rewrite SessionFacts.handleEvent_contentFrame.
    assert (Hne : nonempty f = true).
    { unfold nearMarker in Hf. destruct f; [discriminate Hf | reflexivity]. }
    rewrite Hne.
    destruct (IH (feedContent cb f st) Hi' Hall) as (H1 & H2).
    + now rewrite Hb'.
    + now rewrite Hb'.
    + rewrite H1, H2, Hb', Hc'. now rewrite app_assoc.
Qed.

(** *** The last call *)

Lemma outerCatch_last (e : Thrown) (st : State) :
  exists c, calls (outerCatch e st) = calls st ++ [c] /\ settles c = true.
Proof. destruct e; cbn; eauto. Qed.

Lemma flush_last (cb : StreamCallbacks) (st : State) :
  exists before, calls (flushBufferAndComplete cb st) = before ++ [onComplete].
Proof.
  destruct (TraceFacts.flush_calls cb st) as (l & -> & _).
  exists (calls st ++ l). now rewrite app_assoc.
Qed.

End DriverFacts.

(* ===================================================================== *)
(** ** Maps with string keys *)
(* ===================================================================== *)

Module StrMapFacts.

Lemma eqb_refl (a : str) : StrMap.eqb a a = true.
Proof. unfold StrMap.eqb. now destruct (list_eq_dec ascii_dec a a). Qed.

Lemma eqb_eq (a b : str) : StrMap.eqb a b = true <-> a = b.
Proof. unfold StrMap.eqb. destruct (list_eq_dec ascii_dec a b); split; congruence. Qed.

Lemma eqb_neq (a b : str) : StrMap.eqb a b = false <-> a <> b.
Proof. unfold StrMap.eqb. destruct (list_eq_dec ascii_dec a b); split; congruence. Qed.

Section MapFacts.
Variable V : Type.
Implicit Types (m : list (str * V)) (k : str) (v : V).

Lemma get_absent m k : StrMap.get m k = None <-> ~ In k (StrMap.keys m).
Proof.
  induction m as [| [k' v'] m IH]; cbn; [tauto |].
  destruct (StrMap.eqb k k') eqn:E.
  - apply eqb_eq in E. subst. split; [discriminate | tauto].
  - apply eqb_neq in E. rewrite IH. split.
    + intros H [H' | H']; [now apply E | now apply H].
    + tauto.
Qed.

Lemma keys_set m k v :
  StrMap.keys (StrMap.set m k v)
  = if existsb (StrMap.eqb k) (StrMap.keys m) then StrMap.keys m else StrMap.keys m ++ [k].
Proof.
  induction m as [| [k' v'] m IH]; cbn; [reflexivity |].
  destruct (StrMap.eqb k k') eqn:E; cbn; [reflexivity |].
  unfold StrMap.keys in *. rewrite IH. now destruct (existsb _ _).
Qed.

Lemma existsb_key_In k (ks : list str) : existsb (StrMap.eqb k) ks = true <-> In k ks.
Proof.
  rewrite existsb_exists. split.
  - intros (x & Hin & Hx). apply eqb_eq in Hx. now subst.
  - intros Hin. exists k. split; [exact Hin | apply eqb_refl].
Qed.

Lemma NoDup_keys_set m k v :
  NoDup (StrMap.keys m) -> NoDup (StrMap.keys (StrMap.set m k v)).
Proof.
  intros H. rewrite keys_set.
  destruct (existsb (StrMap.eqb k) (StrMap.keys m)) eqn:E; [exact H |].
  apply NoDup_app; [exact H | repeat constructor; intros [] |].
  intros x Hx [<- | []].
  apply existsb_key_In in Hx. congruence.
Qed.

Lemma In_keys_delete m k x : In x (StrMap.keys (StrMap.delete m k)) -> In x (StrMap.keys m).
Proof.
  induction m as [| [k' v'] m IH]; cbn; [tauto |].
  destruct (StrMap.eqb k k'); cbn; tauto.
Qed.

Lemma NoDup_keys_delete m k :
  NoDup (StrMap.keys m) -> NoDup (StrMap.keys (StrMap.delete m k)).
Proof.
  induction m as [| [k' v'] m IH]; cbn; [auto |]. intros H.
  inversion H as [| ? ? Hnot Hnd]; subst.
  destruct (StrMap.eqb k k'); [exact Hnd |].
  cbn. constructor; [| now apply IH].
  intros Hin. apply Hnot. now apply In_keys_delete in Hin.
Qed.

Lemma delete_set_fresh m k v :
  StrMap.get m k = None -> StrMap.delete (StrMap.set m k v) k = m.
Proof.
  induction m as [| [k' v'] m IH]; cbn.
  - now rewrite eqb_refl.
  - destruct (StrMap.eqb k k') eqn:E; [discriminate |].
    intros H. cbn. rewrite E. now rewrite IH.
Qed.

Lemma delete_absent m k : StrMap.get m k = None -> StrMap.delete m k = m.
Proof.
  induction m as [| [k' v'] m IH]; cbn; [reflexivity |].
  destruct (StrMap.eqb k k'); [discriminate |]. intros H. now rewrite IH.
Qed.

Lemma flat_map_agree {A B : Type} (f g : A -> list B) (l : list A) :
  (forall a, In a l -> f a = g a) -> flat_map f l = flat_map g l.
Proof.
  induction l as [| a l IH]; intros H; [reflexivity |].
  cbn. rewrite (H a) by now left. rewrite IH; [reflexivity |].
  intros b Hb. apply H. now right.
Qed.

(** Looking up every key of a map without repeated keys gives its
    values. *)
Lemma lookup_all m :
  NoDup (StrMap.keys m) ->
  flat_map (fun id => match StrMap.get m id with Some x => [x] | None => [] end)
           (StrMap.keys m)
  = StrMap.values m.
Proof.
  unfold StrMap.keys, StrMap.values.
  induction m as [| [k v] m IH]; cbn; [reflexivity |]. intros H.
  inversion H as [| ? ? Hnot Hnd]; subst.
  rewrite eqb_refl. cbn. f_equal. rewrite <- (IH Hnd).
  apply flat_map_agree. intros id Hid.
  destruct (StrMap.eqb id k) eqn:E; [| reflexivity].
  apply eqb_eq in E. subst. contradiction.
Qed.

(** The values of a map once a key is deleted. *)
Lemma values_delete m k v :
  NoDup (StrMap.keys m) -> StrMap.get m k = Some v ->
  exists before after,
    StrMap.values m = before ++ v :: after /\
    StrMap.values (StrMap.delete m k) = before ++ after.
Proof.
  induction m as [| [k' v'] m IH]; cbn; [discriminate |]. intros H.
  inversion H as [| ? ? Hnot Hnd]; subst.
  destruct (StrMap.eqb k k') eqn:E.
  - intros Hv. injection Hv as ->. now exists [], (StrMap.values m).
  - intros Hv. destruct (IH Hnd Hv) as (before & after & H1 & H2).
    exists (v' :: before), after. unfold StrMap.values in *. cbn [map snd app].
    now rewrite H1, H2.
Qed.

End MapFacts.

End StrMapFacts.

(* ===================================================================== *)
(** ** The chat slice *)
(* ===================================================================== *)

Module ChatFacts.
Import ChatSlice ChatSpec StrFacts.

Lemma findIndex_spec (id : nat) (ms : list Msg.t) :
  match findIndex id ms with
  | Some i =>
      exists m after,
        ms = firstn i ms ++ m :: after /\ Msg.id m = id /\
        existsb (hasId id) (firstn i ms) = false
  | None => existsb (hasId id) ms = false
  end.
Proof.
  induction ms as [| m ms IH]; cbn [findIndex]; [reflexivity |].
  destruct (Msg.id m =? id) eqn:E.
  - exists m, ms. apply Nat.eqb_eq in E. cbn. auto.
  - destruct (findIndex id ms) as [i |].
    + destruct IH as (m' & after & Hms & Hid & Hno).
      exists m', after. cbn [firstn app existsb]. unfold hasId at 1. rewrite E.
      cbn [orb]. split; [now rewrite <- Hms | auto].
    + cbn [existsb]. unfold hasId at 1. now rewrite E.
Qed.

Lemma setToolResults_spec (id : nat) (results : list Msg.ToolResult) (ms : list Msg.t) :
  (existsb (hasId id) ms = false /\ Slice.setToolResults id results ms = ms) \/
  exists before m after,
    ms = before ++ m :: after /\ Msg.id m = id /\
    existsb (hasId id) before = false /\
    Slice.setToolResults id results ms = before ++ withToolResults results m :: after.
Proof.
  induction ms as [| m ms IH]; cbn [Slice.setToolResults]; [now left |].
  destruct (Msg.id m =? id) eqn:E.
  - right. exists [], m, ms. apply Nat.eqb_eq in E. cbn. auto.
  - destruct IH as [(Hno & Hsame) | (before & m' & after & Hms & Hid & Hno & Hset)].
    + left. cbn [existsb]. unfold hasId at 1. rewrite E, Hsame. auto.
    + right. exists (m :: before), m', after. cbn [app existsb].
      unfold hasId at 1. rewrite E, Hset, <- Hms. auto.
Qed.

(** *** The callbacks of [sendStreamingMessage] *)

Lemma callbacks_after_completion (cs : list Call) :
  forall st,
    Slice.streamingMessageId st = None ->
    Slice.messages (fold_left (fun st c => callback c st) cs st) = Slice.messages st.
Proof.
  induction cs as [| c cs IH]; intros st Hid; [reflexivity |].
  cbn [fold_left]. rewrite IH.
  - destruct c; cbn [callback]; try reflexivity;
      unfold Slice.completeStreaming; cbn [Slice.streamingMessageId Slice.setError];
      now rewrite Hid.
  - destruct c; cbn [callback]; try exact Hid; try reflexivity.
Qed.

Lemma completeStreaming_messages (st : Slice.ChatState) (mid : nat) :
  Slice.streamingMessageId st = Some mid ->
  Slice.messages (Slice.completeStreaming st)
  = Slice.messages st
      ++ (if nonempty (Slice.streamingContent st)
          then [assistantReply mid (Slice.streamingContent st)] else []).
Proof.
  intros Hid. unfold Slice.completeStreaming. rewrite Hid.
  destruct (nonempty (Slice.streamingContent st)); cbn; [reflexivity | now rewrite app_nil_r].
Qed.

Lemma callbacks_while_streaming (cs : list Call) :
  forall st mid,
    Slice.streamingMessageId st = Some mid ->
    Slice.messages (fold_left (fun st c => callback c st) cs st)
    = Slice.messages st ++ storedReply mid (Slice.streamingContent st) cs.
Proof.
  induction cs as [| c cs IH]; intros st mid Hid.
  - cbn. now rewrite app_nil_r.
  - cbn [fold_left]. unfold storedReply.
    destruct c as [chunk | | m | toolCalls | r | u];
      cbn [callback Thunk.settled ThunkSpec.streamed].
    + rewrite (IH _ mid) by exact Hid. unfold storedReply.
      cbn [Slice.messages Slice.streamingContent Slice.appendStreamingContent].
      now rewrite <- app_assoc.
    + rewrite callbacks_after_completion by reflexivity.
      rewrite app_nil_r. now apply completeStreaming_messages.
    + rewrite callbacks_after_completion by reflexivity.
      rewrite app_nil_r.
      now rewrite (completeStreaming_messages _ mid) by exact Hid.
    + apply (IH _ mid Hid).
    + apply (IH _ mid Hid).
    + apply (IH _ mid Hid).
Qed.

(** A trace whose only [onComplete] is its last call, and that holds no
    [onError]: the text stored is all the content. *)
Lemma streamed_all (l : list Call) :
  countComplete l = 0 -> countError l = 0 ->
  ThunkSpec.streamed (l ++ [onComplete]) = contentOf l /\
  Thunk.settled (l ++ [onComplete]) = Thunk.Resolved.
Proof.
  unfold countComplete, countError.
  induction l as [| c l IH]; intros Hc He; [now cbn |].
  destruct c; cbn in Hc, He; try discriminate;
    cbn [app ThunkSpec.streamed Thunk.settled contentOf];
    destruct (IH Hc He) as (-> & ->); auto.
Qed.

(** *** [map skeleton] under an update of tool results *)

Lemma find_hasResultFor (original : str) (ms : list Msg.t) (message : Msg.t) :
  List.find (hasResultFor original) ms = Some message -> In message ms.
Proof. intros H. now apply find_some in H. Qed.

Lemma NoDup_first (id : nat) (before after : list Msg.t) (m message : Msg.t) :
  NoDup (map Msg.id (before ++ m :: after)) ->
  Msg.id m = id -> In message (before ++ m :: after) -> Msg.id message = id ->
  message = m.
Proof.
  intros Hnd Hm Hin Hid.
  rewrite map_app in Hnd. cbn [map] in Hnd.
  apply NoDup_remove_2 in Hnd.
  apply in_app_or in Hin. destruct Hin as [Hin | [Heq | Hin]]; [| now symmetry |].
  - exfalso. apply Hnd, in_or_app. left. rewrite Hm, <- Hid. now apply in_map.
  - exfalso. apply Hnd, in_or_app. right. rewrite Hm, <- Hid. now apply in_map.
Qed.

Lemma replaced_ids (original : str) (updated : Msg.ToolResult) (rs : list Msg.ToolResult) :
  Msg.result_tool_call_id updated = original ->
  map Msg.result_tool_call_id
    (map (fun r => if StrMap.eqb (Msg.result_tool_call_id r) original then updated else r) rs)
  = map Msg.result_tool_call_id rs.
Proof.
  intros Hu. rewrite map_map. apply map_ext. intros r.
  destruct (StrMap.eqb (Msg.result_tool_call_id r) original) eqn:E; [| reflexivity].
  apply StrMapFacts.eqb_eq in E. congruence.
Qed.

(** *** The driver's trace under [sendStreamingMessage] *)

Lemma countDONE_contentFrames (fragments : list str) :
  TraceSpec.countDONE (map Driver.contentFrame fragments) = 0.
Proof. unfold TraceSpec.countDONE. induction fragments; cbn; auto. Qed.

Lemma contentOf_text_complete (l : list Call) :
  contentOf (l ++ [onComplete]) = contentOf l.
Proof. rewrite SessionFacts.contentOf_app. cbn. apply app_nil_r. Qed.

(** The trace of the splitter on content fragments: calls without
    [onComplete] or [onError], then one [onComplete]. *)
Lemma split_shape (cb : StreamCallbacks) (fragments : list str) :
  exists l, Driver.split cb fragments = l ++ [onComplete] /\
            countComplete l = 0 /\ countError l = 0.
Proof.
  rewrite SessionFacts.split_unfold.
  set (st := Session.handleEvents cb (map Driver.contentFrame fragments) Session.initial).
  destruct (TraceFacts.flush_calls cb st) as (l & Hl & Htext).
  destruct (TraceFacts.handleEvents_counts cb (map Driver.contentFrame fragments)
              Session.initial) as (Hc & He).
  fold st in Hc, He. rewrite countDONE_contentFrames in Hc. cbn in Hc, He.
  destruct (TraceFacts.textOnly_counts l Htext) as (Hc' & He').
  exists (Session.calls st ++ l). rewrite Hl, app_assoc.
  rewrite TraceFacts.countComplete_app, TraceFacts.countError_app.
  split; [reflexivity | lia].
Qed.

End ChatFacts.

(* ===================================================================== *)
(** ** Every run of the orchestration loop *)
(* ===================================================================== *)

Module TurnFacts.
Import Thunk ThunkSpec TurnSpec StrFacts.

Lemma nth_error_bound {A : Type} (l : list A) (k : nat) (x : A) :
  nth_error l k = Some x -> k < length l.
Proof. intros H. apply nth_error_Some. congruence. Qed.

Lemma idle_settled (st : Slice.ChatState) :
  idle (Slice.clearToolCalls (Slice.completeStreaming st)).
Proof. repeat split. Qed.

(** One pass of the loop body, whatever the provider and the tools do. *)
Lemma loopBody_inv (env : Env) (l : Local) (st : Slice.ChatState) :
  Slice.streamingContent st = [] ->
  match loopBody env l st with
  | Continue l' st' =>
      requests l' = requests l ++ [requestOf env l] /\
      iteration l' = S (iteration l) /\
      Extended env (iteration l) (requestOf env l) (messages l') /\
      Slice.streamingContent st' = []
  | Finished l' st' =>
      requests l' = requests l ++ [requestOf env l] /\
      iteration l' = iteration l /\ idle st'
  | Threw m l' st' =>
      requests l' = requests l ++ [requestOf env l] /\
      iteration l' = iteration l /\ idle st'
  | Waiting l' st' =>
      requests l' = requests l ++ [requestOf env l] /\
      iteration l' = iteration l
  end.
Proof.
  intros Hempty. unfold loopBody. cbn [iteration messages uuids requests].
  fold (requestOf env l). fold (roundCalls env l).
  destruct (ThunkFacts.awaitStream_spec (roundCalls env l) NeverSettles [] st)
    as (st1 & -> & _ & _ & _ & Hc).
  rewrite Hempty in Hc. cbn [app settle] in Hc |- *.
  destruct (settled (roundCalls env l)) as [| m |] eqn:Hs; cbn [catchBlock].
  - destruct (parseArguments env (delivered (roundCalls env l) [])) as [m |];
      cbn [catchBlock].
    + repeat split.
    + destruct (0 <? length (delivered (roundCalls env l) [])) eqn:Hlen.
      * destruct (executeToolCalls env (delivered (roundCalls env l) []))
          as [results | m] eqn:Hx; cbn [catchBlock].
        -- match goal with
           | |- context [fold_left (addToolResult env) results (?L, ?S)] =>
               pose proof (ThunkFacts.addToolResult_fold env results L S) as Hfold;
               destruct (fold_left (addToolResult env) results (L, S)) as (l2, st2)
           end.
           cbn in Hfold. destruct Hfold as (H1 & H2 & H3 & H4).
           cbn [requests iteration messages]. rewrite H1, H2, H3.
           split; [reflexivity |]. split; [reflexivity |]. split; [| reflexivity].
           split; [exact Hs |]. split.
           ++ intros Hnil. change (delivered (roundCalls env l) [] = []) in Hnil.
              rewrite Hnil in Hlen. discriminate Hlen.
           ++ exists results. split; [exact Hx |].
              unfold replyApi.
              change (provider env (iteration l) (requestOf env l))
                with (roundCalls env l).
              rewrite Hc.
              now rewrite <- app_assoc.
        -- repeat split.
      * repeat split.
  - repeat split.
  - repeat split.
Qed.

Lemma Chained_snoc (env : Env) (rs : list Api.Request) (r : Api.Request) :
  Chained env rs ->
  match rev rs with
  | [] => True
  | last :: _ => Extended env (pred (length rs)) last (Api.messages r)
  end ->
  Chained env (rs ++ [r]).
Proof.
  intros Hch Hlast k r1 r2 H1 H2.
  destruct (lt_dec (S k) (length rs)) as [Hlt | Hge].
  - rewrite nth_error_app1 in H1, H2 by lia. now apply (Hch k).
  - assert (Hk : S k = length rs).
    { apply nth_error_bound in H2. rewrite length_app in H2. cbn in H2. lia. }
    rewrite nth_error_app1 in H1 by lia.
    rewrite nth_error_app2 in H2 by lia.
    replace (S k - length rs) with 0 in H2 by lia. cbn in H2. injection H2 as <-.
    rewrite <- Hk in Hlast. cbn [pred] in Hlast.
    destruct rs as [| r0 rs0] using rev_ind; [cbn in Hk; lia |].
    rewrite rev_app_distr in Hlast. cbn in Hlast.
    rewrite length_app in Hk. cbn in Hk.
    rewrite nth_error_app2 in H1 by lia.
    replace (k - length rs0) with 0 in H1 by lia. cbn in H1. now injection H1 as <-.
Qed.

(** The requests once the request of the round is added. *)
Lemma RequestsSent_next (env : Env) (first : list Api.t) (l : Local) :
  AtHead env first l -> RequestsSent env first (requests l ++ [requestOf env l]).
Proof.
  intros (Hlen & _ & (Hchoice & Hfirst & Hch) & Hlast).
  split; [| split].
  - intros k req Hk.
    destruct (lt_dec k (length (requests l))) as [Hlt | Hge].
    + rewrite nth_error_app1 in Hk by exact Hlt. now apply Hchoice.
    + assert (Hk' : k = length (requests l)).
      { apply nth_error_bound in Hk. rewrite length_app in Hk. cbn in Hk. lia. }
      rewrite nth_error_app2 in Hk by lia.
      replace (k - length (requests l)) with 0 in Hk by lia.
      cbn in Hk. injection Hk as <-. cbn.
      rewrite Hk', Hlen. apply ThunkFacts.toolChoice_expected.
  - intros req H0.
    destruct (requests l) as [| r0 rs] eqn:E.
    + cbn in H0. injection H0 as <-. cbn. exact Hlast.
    + cbn in H0. apply Hfirst. exact H0.
  - apply Chained_snoc; [exact Hch |]. rewrite Hlen.
    destruct (rev (requests l)); [exact I | exact Hlast].
Qed.

Lemma AtHead_next (env : Env) (first : list Api.t) (l l' : Local) :
  AtHead env first l ->
  requests l' = requests l ++ [requestOf env l] ->
  iteration l' = S (iteration l) ->
  iteration l < MAX_TOOL_ITERATIONS ->
  Extended env (iteration l) (requestOf env l) (messages l') ->
  AtHead env first l'.
Proof.
  intros HA Hr Hi Hlt He. pose proof (RequestsSent_next env first l HA) as HS.
  destruct HA as (Hlen & _ & _).
  split; [| split; [| split]].
  - rewrite Hr, length_app, Hi. cbn. lia.
  - lia.
  - now rewrite Hr.
  - rewrite Hr, rev_app_distr, Hi. cbn. exact He.
Qed.

Lemma AtHead_start (env : Env) (first : list Api.t) (u : nat) :
  AtHead env first {| messages := first; iteration := 0; uuids := u; requests := [] |}.
Proof.
  split; [reflexivity |]. split; [cbn; lia |]. split; [| reflexivity].
  split; [| split].
  - intros k req Hk. now destruct k.
  - intros req Hk. discriminate.
  - intros k r1 r2 Hk. now destruct k.
Qed.

(** The store at the head of the first round. *)
Lemma streamingContent_start (u a : nat) (content : str) (attachments : option (list str))
                             (state : Slice.ChatState) :
  Slice.streamingContent
    (Slice.setAbortController true
       (Slice.clearToolCalls (Slice.startStreaming u a content attachments state))) = [].
Proof. unfold Slice.startStreaming. now destruct (negb (Slice.blank content)). Qed.

(** The loop, whatever the provider and the tools do. *)
Lemma toolLoop_inv (env : Env) (first : list Api.t) (fuel : nat) :
  forall sc l st,
    MAX_TOOL_ITERATIONS - iteration l < fuel ->
    (if sc : bool
     then AtHead env first l /\ Slice.streamingContent st = []
     else RequestsSent env first (requests l) /\
          length (requests l) <= MAX_TOOL_ITERATIONS /\ idle st) ->
    let r := toolLoop fuel env sc l st in
    RequestsSent env first (requests (local r)) /\
    length (requests (local r)) <= MAX_TOOL_ITERATIONS /\
    (outcome r <> Pending -> idle (chat r)).
Proof.
  induction fuel as [| fuel IH]; intros sc l st Hfuel Hinv; [lia |].
  cbn zeta. cbn [toolLoop].
  destruct sc; cbn [andb].
  - destruct Hinv as (Hinv & Hempty).
    destruct (iteration l <? MAX_TOOL_ITERATIONS) eqn:E.
    + apply Nat.ltb_lt in E.
      pose proof (loopBody_inv env l st Hempty) as Hbody.
      pose proof (RequestsSent_next env first l Hinv) as HS.
      assert (Hlen : length (requests l ++ [requestOf env l]) <= MAX_TOOL_ITERATIONS).
      { destruct Hinv as (Hlen & _). rewrite length_app, Hlen. cbn. lia. }
      destruct (loopBody env l st) as [l' st' | l' st' | m l' st' | l' st'].
      * destruct Hbody as (Hr & Hi & He & Hempty').
        apply IH; [lia |]. split; [| exact Hempty'].
        now apply (AtHead_next env first l l').
      * destruct Hbody as (Hr & Hi & Hidle).
        rewrite ThunkFacts.toolLoop_stopped. unfold afterLoop.
        rewrite andb_false_r. cbn [local chat outcome]. rewrite Hr. auto.
      * destruct Hbody as (Hr & Hi & Hidle). cbn [local chat outcome].
        rewrite Hr. auto.
      * destruct Hbody as (Hr & Hi). cbn [local chat outcome].
        rewrite Hr. split; [exact HS |]. split; [exact Hlen |]. congruence.
    + apply Nat.ltb_ge in E. unfold afterLoop.
      replace (MAX_TOOL_ITERATIONS <=? iteration l) with true
        by (symmetry; apply Nat.leb_le; exact E).
      cbn [andb local chat outcome].
      destruct Hinv as (Hlen & Hmax & HS & _).
      split; [exact HS |].
      split; [lia | intros _; apply idle_settled].
  - unfold afterLoop. rewrite andb_false_r. cbn [local chat outcome].
    destruct Hinv as (HS & Hlen & Hidle). auto.
Qed.

End TurnFacts.

(* ===================================================================== *)
(** ** The plugin registry *)
(* ===================================================================== *)

Module RegistryFacts.
Import RegistrySpec StrMapFacts.

Section Operations.
Variables (U C X N : Type).
Implicit Types (r : Registry.PluginRendererRegistry U C X N).

Lemma WellFormed_perform r (op : Registry.Op U C X N) :
  WellFormed r -> WellFormed (Registry.perform r op).
Proof.
  intros (Ho & Hnd). destruct op; cbn.
  - split; [reflexivity | now apply NoDup_keys_set].
  - split; [reflexivity | now apply NoDup_keys_delete].
  - now split.
  - unfold Registry.unregisterReplacement.
    destruct (Registry.replacementPlugin r); now split.
  - split; [reflexivity | constructor].
Qed.

Lemma WellFormed_after (ops : list (Registry.Op U C X N)) : WellFormed (Registry.after ops).
Proof.
  unfold Registry.after.
  assert (H : WellFormed (@Registry.empty U C X N)) by (split; [reflexivity | constructor]).
  revert H. generalize (@Registry.empty U C X N).
  induction ops as [| op ops IH]; intros r H; [exact H |].
  cbn [fold_left]. apply IH. now apply WellFormed_perform.
Qed.

Lemma getExtensionPlugins_values r :
  WellFormed r ->
  Registry.getExtensionPlugins r = StrMap.values (Registry.extensionPlugins r).
Proof.
  intros (Ho & Hnd). unfold Registry.getExtensionPlugins. rewrite Ho.
  now apply lookup_all.
Qed.

(** The loops over [extensionOrder] run over the plugins of
    [getExtensionPlugins]. *)
Lemma forEachExtension_plugins {A : Type}
    (step : A -> PluginTypes.MarkdownExtensionPlugin U C X N -> A) r (start : A) :
  Registry.forEachExtension step r start
  = fold_left step (Registry.getExtensionPlugins r) start.
Proof.
  unfold Registry.forEachExtension, Registry.getExtensionPlugins.
  revert start. induction (Registry.extensionOrder r) as [| id ids IH]; intros start;
    [reflexivity |].
  cbn [fold_left flat_map]. rewrite fold_left_app, IH.
  now destruct (StrMap.get (Registry.extensionPlugins r) id).
Qed.

Lemma assign_fold (k : str) (plugins : list (PluginTypes.MarkdownExtensionPlugin U C X N)) :
  forall start,
    fold_left (fun merged plugin =>
                 match PluginTypes.components plugin with
                 | Some cs => Registry.assign merged cs
                 | None => merged
                 end) plugins start k
    = match lastDefining k plugins with
      | Some c => Some c
      | None => start k
      end.
Proof.
  induction plugins as [| plugin plugins IH]; intros start; [reflexivity |].
  cbn [fold_left lastDefining]. rewrite IH.
  destruct (lastDefining k plugins); [reflexivity |].
  destruct (PluginTypes.components plugin) as [cs |]; [| reflexivity].
  unfold Registry.assign. now destruct (cs k).
Qed.

Lemma preProcess_skip (context : X) (plugin : PluginTypes.MarkdownExtensionPlugin U C X N)
      (before after : list (PluginTypes.MarkdownExtensionPlugin U C X N)) (content : str) :
  neverPreProcesses context plugin ->
  fold_left (Registry.preProcessWith context) (before ++ plugin :: after) content
  = fold_left (Registry.preProcessWith context) (before ++ after) content.
Proof.
  intros H. rewrite !fold_left_app. cbn [fold_left].
  assert (Hskip : forall s, Registry.preProcessWith context s plugin = s).
  { intros s. unfold Registry.preProcessWith. unfold neverPreProcesses in H.
    destruct (PluginTypes.preProcess plugin) as [f |]; [| reflexivity].
    now rewrite H. }
  now rewrite Hskip.
Qed.

End Operations.

End RegistryFacts.

(* ===================================================================== *)
(** ** The logger *)
(* ===================================================================== *)

Module LoggerFacts.
Import Logger LoggerSpec StrFacts.

(** One character for every value below 16: checked value by value. *)
Lemma single_digit (ok : ascii -> bool) (f : nat -> nat) :
  forallb (fun v => match toString16 (f v) with
                    | [c] => ok c
                    | _ => false
                    end) (seq 0 16) = true ->
  forall v, v < 16 -> exists c, toString16 (f v) = [c] /\ ok c = true.
Proof.
  intros H v Hv. rewrite forallb_forall in H.
  specialize (H v). rewrite in_seq in H. specialize (H ltac:(lia)).
  destruct (toString16 (f v)) as [| c [| c' rest]]; try discriminate.
  now exists c.
Qed.

Lemma toString16_digit (v : nat) :
  v < 16 -> exists c, toString16 v = [c] /\ isHexDigit c = true.
Proof. apply (single_digit isHexDigit (fun v => v)). now vm_compute. Qed.

Lemma toString16_variant (r : nat) :
  r < 16 ->
  exists c, toString16 (Nat.lor (Nat.land r 3) 8) = [c] /\
            existsb (Ascii.eqb c) (lit "89ab") = true.
Proof.
  apply (single_digit (fun c => existsb (Ascii.eqb c) (lit "89ab"))
                      (fun r => Nat.lor (Nat.land r 3) 8)).
  now vm_compute.
Qed.

Lemma replaceXY_fits (env : Env) (t : str) :
  (forall k, draw env k < 16) ->
  forall k, fitsAll t (fst (replaceXY env k t)) = true.
Proof.
  intros Hdraw. induction t as [| c t IH]; intros k; [reflexivity |].
  cbn [replaceXY]. unfold fits.
  destruct (Ascii.eqb c "x") eqn:Ex; cbn [orb].
  - specialize (IH (S k)). destruct (replaceXY env (S k) t) as (out, k').
    destruct (toString16_digit (draw env k) (Hdraw k)) as (d & -> & Hd).
    cbn [fst app fitsAll]. unfold fits. now rewrite Ex, Hd.
  - destruct (Ascii.eqb c "y") eqn:Ey.
    + specialize (IH (S k)). destruct (replaceXY env (S k) t) as (out, k').
      destruct (toString16_variant (draw env k) (Hdraw k)) as (d & -> & Hd).
      cbn [fst app fitsAll]. unfold fits. now rewrite Ex, Ey, Hd.
    + specialize (IH k). destruct (replaceXY env k t) as (out, k').
      cbn [fst fitsAll]. unfold fits. rewrite Ex, Ey, Ascii.eqb_refl. exact IH.
Qed.

Lemma replaceXY_drawn (env : Env) (t : str) :
  forall k, snd (replaceXY env k t)
            = k + length (filter (fun c => Ascii.eqb c "x" || Ascii.eqb c "y") t).
Proof.
  induction t as [| c t IH]; intros k; [cbn; lia |].
  cbn [replaceXY filter].
  destruct (Ascii.eqb c "x" || Ascii.eqb c "y").
  - specialize (IH (S k)). destruct (replaceXY env (S k) t) as (out, k').
    cbn [snd length] in *. lia.
  - specialize (IH k). destruct (replaceXY env k t) as (out, k'). exact IH.
Qed.

(** A generated identifier is not the empty string. *)
Lemma generateTraceId_nonempty (env : Env) (k : nat) :
  nonempty (fst (generateTraceId env k)) = true.
Proof.
  unfold generateTraceId, template.
  assert (H : forall t k0, In "-"%char t -> nonempty (fst (replaceXY env k0 t)) = true).
  { induction t as [| c t IH]; intros k0 Hin; [contradiction |].
    cbn [replaceXY].
    destruct (Ascii.eqb c "x" || Ascii.eqb c "y") eqn:E.
    - destruct Hin as [-> | Hin]; [discriminate E |].
      specialize (IH (S k0) Hin). destruct (replaceXY env (S k0) t) as (out, k').
      cbn [fst] in *. destruct (toString16 _); [exact IH | reflexivity].
    - destruct (replaceXY env k0 t) as (out, k'). reflexivity. }
  apply H. cbn. tauto.
Qed.

(** What one call of [log] with a trace identifier writes. *)
Lemma log_with_traceId (env : Env) (l : LogLevel) (m msg : str) (id : str) (st : State) :
  nonempty id = true ->
  exists new,
    outputs (log env l m msg (Some id) st) = outputs st ++ new /\
    Forall (fun o => traceId (entryOf o) = id) new /\
    config (log env l m msg (Some id) st) = config st.
Proof.
  intros Hid. unfold log.
  destruct (_ <? _).
  - exists []. rewrite app_nil_r. auto.
  - cbn [truthy orElse]. rewrite Hid. cbn [config outputs].
    eexists. split; [reflexivity |]. split; [| reflexivity].
    apply Forall_app. split.
    + destruct (enableConsoleLogging (config st)) as [[] |]; repeat constructor.
    + destruct (_ && _); repeat constructor.
Qed.

Lemma tracerCall_outputs (env : Env) (t : RequestTracer) (st : State) (c : TracerCall) :
  nonempty (tracer_traceId t) = true ->
  exists new,
    outputs (tracerCall env t st c) = outputs st ++ new /\
    Forall (fun o => traceId (entryOf o) = tracer_traceId t) new.
Proof.
  intros Hid.
  destruct c; cbn [tracerCall]; unfold info, error;
    match goal with
    | |- context [log env ?l ?m ?msg (Some ?i) st] =>
        destruct (log_with_traceId env l m msg i st Hid) as (new & H1 & H2 & _)
    end; eauto.
Qed.

End LoggerFacts.

(* ===================================================================== *)
(** ** The earlier driver *)
(* ===================================================================== *)

Module LegacyFacts.
Import Accumulator LegacySpec StrFacts.

Lemma contentOf_call (c : Call) (st : Legacy.State) :
  contentOf (Legacy.calls (Legacy.call c st))
  = contentOf (Legacy.calls st) ++ contentOf [c].
Proof. cbn [Legacy.calls Legacy.call]. apply SessionFacts.contentOf_app. Qed.

Lemma handleEvent_content (cb : StreamCallbacks) (parses : str -> bool) (e : SseData)
      (st : Legacy.State) :
  contentOf (Legacy.calls (Legacy.handleEvent cb parses e st))
  = contentOf (Legacy.calls st) ++ contentField e.
Proof.
  destruct e as [| json | d]; cbn [Legacy.handleEvent contentField].
  - rewrite contentOf_call. reflexivity.
  - unfold Legacy.handleJson.
    set (st1 := match content json with
                | Some c => if nonempty c then Legacy.call (onChunk c) st else st
                | None => st end).
    assert (H1 : contentOf (Legacy.calls st1)
                 = contentOf (Legacy.calls st) ++ orElse (content json) []).
    { subst st1. destruct (content json) as [c |]; cbn [orElse]; [| now rewrite app_nil_r].
      destruct (nonempty c) eqn:E; [| now rewrite app_nil_r].
      rewrite contentOf_call. cbn. now rewrite app_nil_r. }
    clearbody st1.
    set (st2 := match tool_calls json with
                | Some ds =>
                    if hasOnToolCalls cb
                    then {| Legacy.accumulatedToolCalls :=
                              accumulateAll (Legacy.accumulatedToolCalls st1) ds;
                            Legacy.calls := Legacy.calls st1 |}
                    else st1
                | None => st1 end).
    assert (H2 : contentOf (Legacy.calls st2) = contentOf (Legacy.calls st1)).
    { subst st2. destruct (tool_calls json); [destruct (hasOnToolCalls cb) |]; reflexivity. }
    clearbody st2. rewrite <- H1, <- H2.
    destruct (truthy (finish_reason json)); [| reflexivity].
    destruct (_ && _); destruct (forallb _ _);
      rewrite ?contentOf_call; cbn [contentOf]; rewrite ?app_nil_r; reflexivity.
  - now rewrite app_nil_r.
Qed.

Lemma handleEvents_content (cb : StreamCallbacks) (parses : str -> bool) (es : list SseData) :
  forall st,
    contentOf (Legacy.calls (Legacy.handleEvents cb parses es st))
    = contentOf (Legacy.calls st) ++ flat_map contentField es.
Proof.
  induction es as [| e es IH]; intros st; [cbn; now rewrite app_nil_r |].
  unfold Legacy.handleEvents in *. cbn [fold_left flat_map].
  rewrite IH, handleEvent_content. now rewrite app_assoc.
Qed.

Lemma suffix_split (s : str) :
  UrlSpec.endsWithApi s = true ->
  s = UrlSpec.stripApiSuffix s ++ skipn (length s - 4) s.
Proof.
  intros H. unfold UrlSpec.stripApiSuffix. rewrite H. symmetry. apply firstn_skipn.
Qed.

End LegacyFacts.

(* ##################################################################### *)
(** * Part IV: the claims *)
(* ##################################################################### *)

Import Session Driver Reference Accumulator AccumulatorSpec TraceSpec UrlSpec.
Import Thunk ThunkSpec Scenarios Invariants.

(* ===================================================================== *)
(** ** The tag-aware stream splitter *)
(* ===================================================================== *)

(** C1, as stated, fails twice. The same text split in two ways gives two
    different content outputs: in one fragment, format detection sees the
    start marker first and hands out everything before it, end marker
    included, as content. And content followed by reasoning is not the text
    without its markers, since the reasoning comes first in the text. *)
Lemma splitter_chunking_counterexample :
  concat [lit "a</think>b<think>c"] = concat [lit "a</think>b"; lit "<think>c"] /\
  contentOf (split allCallbacks [lit "a</think>b<think>c"])
    <> contentOf (split allCallbacks [lit "a</think>b"; lit "<think>c"]) /\
  contentOf (split allCallbacks [lit "<think>y</think>z"])
    ++ reasoningOf (split allCallbacks [lit "<think>y</think>z"]) <> lit "yz".
Proof.
  split; [reflexivity |].
  split; intros H; vm_compute in H; discriminate H.
Qed.

(** C1, amended: for every text to which the specification's state machine
    assigns a split (markers alternate, start marker first; or the only
    marker is an end marker that starts within the detection threshold), and
    for every way of cutting the text into fragments, the content handed to
    [onChunk] is the content of that split and the reasoning handed to
    [onReasoning], when the callback is supplied, is its reasoning. Both are
    therefore the same for every chunking. *)
Theorem splitter_chunking_independent
    (cb : StreamCallbacks) (t c r : str) (fragments : list str) :
  specSplit t = Some (c, r) ->
  concat fragments = t ->
  contentOf (split cb fragments) = c /\
  reasoningOf (split cb fragments) = (if hasOnReasoning cb then r else []).
Proof.
  intros Hspec Ht. unfold specSplit in Hspec.
  destruct (openMatch t) as [[i n] |] eqn:Ho.
  - apply SessionFacts.split_of_Split with (t := t); [| exact Ht].
    now apply ReferenceFacts.segments_Split with (fuel := S (length t)).
  - destruct (closeMatch t) as [[i n] |] eqn:Hc.
    + destruct (i <? FORMAT_DETECTION_THRESHOLD) eqn:Hth; [| discriminate].
      destruct (closeMatch (skipn (i + n) t)) eqn:Hrest; [discriminate |].
      injection Hspec as <- <-. apply Nat.ltb_lt in Hth.
      now apply SessionFacts.split_of_implicit.
    + apply SessionFacts.split_of_Split with (t := t); [| exact Ht].
      now apply ReferenceFacts.segments_Split with (fuel := S (length t)).
Qed.

(** A run of C1 with both markers cut by fragment boundaries. *)
Lemma splitter_chunking_independent_witness :
  specSplit (lit "Hi <think>plan</thinking> there") = Some (lit "Hi  there", lit "plan") /\
  concat [lit "Hi <thi"; lit "nk>pl"; []; lit "an</thin"; lit "king> there"]
    = lit "Hi <think>plan</thinking> there" /\
  contentOf (split allCallbacks
               [lit "Hi <thi"; lit "nk>pl"; []; lit "an</thin"; lit "king> there"])
    = lit "Hi  there" /\
  reasoningOf (split allCallbacks
                 [lit "Hi <thi"; lit "nk>pl"; []; lit "an</thin"; lit "king> there"])
    = lit "plan".
Proof.
  split; [reflexivity |]. split; [reflexivity |].
  apply (splitter_chunking_independent allCallbacks
           (lit "Hi <think>plan</thinking> there") (lit "Hi  there") (lit "plan"));
    reflexivity.
Defined.

(** C2, as stated, fails twice. An end marker that starts right behind the
    first 3000 characters, with no start marker anywhere: when the first
    fragment is those 3000 characters, the detection threshold commits to
    content and 2985 of them are handed out as content before the end marker
    arrives. And a text that opens with reasoning and has a marker pair
    later on: in one fragment, format detection sees the start marker first
    and hands out the text before it, end marker included, as content. And
    a text with a second end marker: the text between the two end markers
    is reasoning as well. *)
Lemma implicit_mode_counterexample :
  openMatch (repeat "a"%char 3000 ++ lit "</think>b") = None /\
  closeMatch (repeat "a"%char 3000 ++ lit "</think>b") = Some (3000, 8) /\
  concat [repeat "a"%char 3000; lit "</think>b"]
    = repeat "a"%char 3000 ++ lit "</think>b" /\
  reasoningOf (split allCallbacks [repeat "a"%char 3000; lit "</think>b"])
    <> firstn 3000 (repeat "a"%char 3000 ++ lit "</think>b") /\
  contentOf (split allCallbacks [repeat "a"%char 3000; lit "</think>b"])
    <> skipn (3000 + 8) (repeat "a"%char 3000 ++ lit "</think>b") /\
  closeMatch (lit "a</think>b<think>c</think>d") = Some (1, 8) /\
  openMatch (lit "a</think>b<think>c</think>d") = Some (10, 7) /\
  reasoningOf (split allCallbacks [lit "a</think>b<think>c</think>d"]) = lit "c" /\
  contentOf (split allCallbacks [lit "a</think>b<think>c</think>d"]) = lit "a</think>bd" /\
  closeMatch (lit "a</think>b</think>c") = Some (1, 8) /\
  openMatch (lit "a</think>b</think>c") = None /\
  reasoningOf (split allCallbacks [lit "a</think>b</think>c"]) = lit "ab" /\
  contentOf (split allCallbacks [lit "a</think>b</think>c"]) = lit "c".
Proof.
  do 3 (apply conj; [vm_compute; reflexivity |]).
  split; [| split].
  - intros H. apply (f_equal (@length ascii)) in H. vm_compute in H. discriminate H.
  - intros H. apply (f_equal (@length ascii)) in H. vm_compute in H. discriminate H.
  - repeat (apply conj; [vm_compute; reflexivity |]). vm_compute; reflexivity.
Qed.

(** C2, amended: for every text whose only marker is an end marker that
    starts within the first 3000 characters, under every chunking, the text
    before the marker is the reasoning handed out (when [onReasoning] is
    supplied) and the text after it is the content handed out. *)
Theorem implicit_mode_split
    (cb : StreamCallbacks) (t : str) (i n : nat) (fragments : list str) :
  closeMatch t = Some (i, n) ->
  openMatch t = None ->
  closeMatch (skipn (i + n) t) = None ->
  i < FORMAT_DETECTION_THRESHOLD ->
  concat fragments = t ->
  reasoningOf (split cb fragments) = (if hasOnReasoning cb then firstn i t else []) /\
  contentOf (split cb fragments) = skipn (i + n) t.
Proof.
  intros Hc Ho Hrest Hth Ht.
  destruct (SessionFacts.split_of_implicit cb t i n fragments Hc Ho Hrest Hth Ht)
    as (H1 & H2).
  split; [exact H2 | exact H1].
Qed.

(** A run of C2 with the end marker cut by a fragment boundary. *)
Lemma implicit_mode_split_witness :
  closeMatch (lit "let me see</think>42") = Some (10, 8) /\
  openMatch (lit "let me see</think>42") = None /\
  closeMatch (skipn (10 + 8) (lit "let me see</think>42")) = None /\
  10 < FORMAT_DETECTION_THRESHOLD /\
  concat [lit "let me"; lit " see</th"; lit "ink>4"; lit "2"] = lit "let me see</think>42" /\
  reasoningOf (split allCallbacks [lit "let me"; lit " see</th"; lit "ink>4"; lit "2"])
    = lit "let me see" /\
  contentOf (split allCallbacks [lit "let me"; lit " see</th"; lit "ink>4"; lit "2"])
    = lit "42".
Proof.
  do 5 (split; [first [reflexivity | unfold FORMAT_DETECTION_THRESHOLD; lia] |]).
  apply (implicit_mode_split allCallbacks (lit "let me see</think>42") 10 8);
    first [reflexivity | unfold FORMAT_DETECTION_THRESHOLD; lia].
Defined.

(** C3: a text without any start or end marker, of any length and under
    every chunking, comes out whole as content, and no reasoning is handed
    out. *)
Theorem no_markers_all_content (cb : StreamCallbacks) (fragments : list str) :
  openMatch (concat fragments) = None ->
  closeMatch (concat fragments) = None ->
  contentOf (split cb fragments) = concat fragments /\
  reasoningOf (split cb fragments) = [].
Proof.
  intros Ho Hc.
  destruct (SessionFacts.split_of_Split cb (concat fragments) (concat fragments) []
              fragments) as (H1 & H2); [now constructor | reflexivity |].
  split; [exact H1 |]. rewrite H2. unfold rfilter.
  now destruct (hasOnReasoning cb).
Qed.

(** A run of C3 beyond the detection threshold, with stray angle brackets. *)
Lemma no_markers_all_content_witness :
  openMatch (concat [repeat "a"%char 2000; lit "<b>x</b> <thin"; repeat "c"%char 2000]) = None /\
  closeMatch (concat [repeat "a"%char 2000; lit "<b>x</b> <thin"; repeat "c"%char 2000]) = None /\
  contentOf (split allCallbacks
               [repeat "a"%char 2000; lit "<b>x</b> <thin"; repeat "c"%char 2000])
    = concat [repeat "a"%char 2000; lit "<b>x</b> <thin"; repeat "c"%char 2000] /\
  reasoningOf (split allCallbacks
                 [repeat "a"%char 2000; lit "<b>x</b> <thin"; repeat "c"%char 2000]) = [].
Proof.
  split; [vm_compute; reflexivity |]. split; [vm_compute; reflexivity |].
  apply (no_markers_all_content allCallbacks
           [repeat "a"%char 2000; lit "<b>x</b> <thin"; repeat "c"%char 2000]);
    vm_compute; reflexivity.
Defined.

(* ===================================================================== *)
(** ** The accumulator and the session driver *)
(* ===================================================================== *)

(** C4, as stated, fails in its last part: the entries come out in the
    order in which their indices were first seen, which a [Map] keeps, and
    not in ascending index order. Here index 1 arrives before index 0. *)
Lemma accumulator_order_counterexample :
  keys (accumulateAll []
          [ {| index := 1; delta_id := Some (lit "b"); delta_type := None;
               delta_function := Some {| delta_name := Some (lit "g");
                                         delta_arguments := None |} |};
            {| index := 0; delta_id := Some (lit "a"); delta_type := None;
               delta_function := Some {| delta_name := Some (lit "f");
                                         delta_arguments := None |} |} ])
    = [1%Z; 0%Z] /\
  map id (finalize (accumulateAll []
          [ {| index := 1; delta_id := Some (lit "b"); delta_type := None;
               delta_function := Some {| delta_name := Some (lit "g");
                                         delta_arguments := None |} |};
            {| index := 0; delta_id := Some (lit "a"); delta_type := None;
               delta_function := Some {| delta_name := Some (lit "f");
                                         delta_arguments := None |} |} ]))
    = [lit "b"; lit "a"] /\
  ascending [1%Z; 0%Z] = false.
Proof. repeat (apply conj; [vm_compute; reflexivity |]). reflexivity. Qed.

(** C4, amended: for every finite sequence of tool-call deltas, finalization
    yields one entry per index, in the order in which the indices first
    appeared. The entry of an index has the first non-empty [id] and the first
    non-empty [function.name] among its deltas, the [type] of its first delta
    or ["function"], and as [arguments] the concatenation of the argument
    fragments of its deltas in order of arrival, replaced by [{}] when
    empty. *)
Theorem accumulator_contract (ds : list ToolCallDelta) :
  finalize (accumulateAll [] ds)
  = map (fun k => reported k ds) (firstSeen (map index ds)).
Proof.
  rewrite AccumulatorFacts.accumulateAll_tabulate.
  unfold finalize, values, tabulate.
  rewrite !map_map. reflexivity.
Qed.

(** One call assembled from three deltas; [q] is the double quote. *)
Example accumulator_three_deltas :
  let q := ascii_of_nat 34 in
  finalize (accumulateAll []
    [ {| index := 0; delta_id := Some (lit "a"); delta_type := None;
         delta_function := Some {| delta_name := Some (lit "f");
                                   delta_arguments := None |} |};
      {| index := 0; delta_id := None; delta_type := None;
         delta_function := Some {| delta_name := None;
                                   delta_arguments := Some (lit "{" ++ [q] ++ lit "x" ++ [q]) |} |};
      {| index := 0; delta_id := None; delta_type := None;
         delta_function := Some {| delta_name := None;
                                   delta_arguments := Some (lit ":1}") |} |} ])
  = [ {| id := lit "a"; type := lit "function";
         function := {| name := lit "f";
                        arguments := lit "{" ++ [q] ++ lit "x" ++ [q] ++ lit ":1}" |} |} ].
Proof. vm_compute. reflexivity. Qed.

(** C5: a frame that carries a finish reason hands out its text, then its
    usage to [onUsage] (when supplied), then the accumulated tool calls to
    [onToolCalls] (when there are any), and does not call [onComplete];
    over a whole response body, [onComplete] is called once for each
    [[DONE]] sentinel and once when the read loop ends, by end of stream or
    by cancellation. *)
Theorem finish_reason_defers_complete
    (cb : StreamCallbacks) (json : Chunk) (st : State) :
  truthy (finish_reason json) = true ->
  (exists text,
      textOnly text = true /\
      calls (handleEvent cb (Json json) st)
      = calls st ++ text ++ usageCalls cb json
          ++ toolCallsCall cb (mergedToolCalls cb json st)) /\
  countComplete (calls (handleEvent cb (Json json) st)) = countComplete (calls st) /\
  (forall b : Body,
      countComplete (calls (readStream cb b))
      = countDONE (events b) + (if endsQuietly (ending b) then 1 else 0)).
Proof.
  intros Hfin. split; [| split].
  - now apply TraceFacts.handleJson_finish_calls.
  - destruct (TraceFacts.handleEvent_counts cb (Json json) st) as (-> & _).
    cbn. lia.
  - intros b. now destruct (TraceFacts.readStream_counts cb b).
Qed.

(** A finish-reason frame with usage and one tool-call delta. *)
Lemma finish_reason_defers_complete_witness :
  let json :=
    {| content := None;
       tool_calls := Some [ {| index := 0; delta_id := Some (lit "call_1");
                               delta_type := None;
                               delta_function :=
                                 Some {| delta_name := Some (lit "search");
                                         delta_arguments := None |} |} ];
       reasoning := None;
       usage := Some {| prompt_tokens := 7; completion_tokens := 3; total_tokens := 10 |};
       finish_reason := Some (lit "tool_calls") |} in
  truthy (finish_reason json) = true /\
  (exists text,
      textOnly text = true /\
      calls (handleEvent allCallbacks (Json json) initial)
      = calls initial ++ text ++ usageCalls allCallbacks json
          ++ toolCallsCall allCallbacks (mergedToolCalls allCallbacks json initial)) /\
  countComplete (calls (handleEvent allCallbacks (Json json) initial))
    = countComplete (calls initial) /\
  (forall b : Body,
      countComplete (calls (readStream allCallbacks b))
      = countDONE (events b) + (if endsQuietly (ending b) then 1 else 0)).
Proof.
  intros json. split; [reflexivity |].
  apply (finish_reason_defers_complete allCallbacks json initial). reflexivity.
Defined.

(** C6, as stated, fails: a stream that carries the [[DONE]] sentinel and
    then ends calls [onComplete] twice, once for the sentinel and once for
    the end of the read loop. *)
Lemma complete_once_counterexample :
  streamChatCompletion allCallbacks
    (Response 200 (lit "OK") None
       (Some {| events := [contentFrame (lit "hi"); DONE]; ending := EndOfStream |}))
  = [onChunk (lit "hi"); onComplete; onComplete] /\
  countComplete
    (streamChatCompletion allCallbacks
       (Response 200 (lit "OK") None
          (Some {| events := [contentFrame (lit "hi"); DONE]; ending := EndOfStream |})))
  <> 1.
Proof. split; [reflexivity | vm_compute; discriminate]. Qed.

(** C6, amended: a run over a response body that ends by cancellation or
    by end of stream goes through [flushBufferAndComplete]: it hands out
    the buffered text and then calls [onComplete]; it never calls
    [onError]; and it calls [onComplete] once for each [[DONE]] sentinel
    received and once at the end, hence exactly once when no sentinel was
    received. A cancellation before the response arrives calls
    [onComplete] alone. *)
Theorem cancellation_completes
    (cb : StreamCallbacks) (status : nat) (statusText : str)
    (errorMessage : option str) (b : Body) :
  ok status = true ->
  endsQuietly (ending b) = true ->
  streamChatCompletion cb (Response status statusText errorMessage (Some b))
    = calls (flushBufferAndComplete cb (handleEvents cb (events b) initial)) /\
  (exists text,
      textOnly text = true /\
      streamChatCompletion cb (Response status statusText errorMessage (Some b))
      = calls (handleEvents cb (events b) initial) ++ text ++ [onComplete]) /\
  countError (streamChatCompletion cb (Response status statusText errorMessage (Some b))) = 0 /\
  countComplete (streamChatCompletion cb (Response status statusText errorMessage (Some b)))
    = countDONE (events b) + 1 /\
  streamChatCompletion cb (FetchThrows AbortError) = [onComplete].
Proof.
  intros Hok Hend.
  assert (Hrun : streamChatCompletion cb (Response status statusText errorMessage (Some b))
                 = calls (readStream cb b)).
  { unfold streamChatCompletion. now rewrite Hok. }
  assert (Hflush : readStream cb b
                   = flushBufferAndComplete cb (handleEvents cb (events b) initial)).
  { unfold readStream. destruct (ending b) as [| [| m |]]; try reflexivity; discriminate. }
  destruct (TraceFacts.readStream_counts cb b) as (Hc & He).
  rewrite Hend in Hc, He. rewrite Hrun.
  split; [now rewrite Hflush |]. split; [| auto].
  rewrite Hflush.
  destruct (TraceFacts.flush_calls cb (handleEvents cb (events b) initial))
    as (text & Hcalls & Htext).
  now exists text.
Qed.

(** A cancellation with text still in the buffer. *)
Lemma cancellation_completes_witness :
  ok 200 = true /\
  endsQuietly (ReadThrows AbortError) = true /\
  streamChatCompletion allCallbacks
    (Response 200 (lit "OK") None
       (Some {| events := [contentFrame (lit "par"); contentFrame (lit "tial")];
                ending := ReadThrows AbortError |}))
  = [onChunk (lit "partial"); onComplete].
Proof.
  split; [reflexivity |]. split; [reflexivity |].
  destruct (cancellation_completes allCallbacks 200 (lit "OK") None
              {| events := [contentFrame (lit "par"); contentFrame (lit "tial")];
                 ending := ReadThrows AbortError |} eq_refl eq_refl) as (H & _).
  rewrite H. reflexivity.
Defined.

(** C7, as stated, fails: a response inside 2xx that has no body, as a
    204 has, is reported through [onError] although the connection did not
    fail and the status is not outside 2xx. *)
Lemma onError_without_body_counterexample :
  ok 204 = true /\
  streamChatCompletion allCallbacks (Response 204 (lit "No Content") None None)
  = [onError (lit "No response body received")].
Proof. split; reflexivity. Qed.

(** C7, amended: a frame whose data is not valid JSON is skipped, the
    frames after it are handled as if it had not been there, and no frame
    calls [onError]. [onError] is called at most once, exactly for a
    rejected [fetch] or [read] other than a cancellation, for a response
    outside 2xx (with the message of the response body when it has one, else
    [HTTP <status>: <statusText>]), and for a response without a body. *)
Theorem onError_only_on_failure (cb : StreamCallbacks) (f : Fetch) :
  filter isError (streamChatCompletion cb f)
    = match failure f with Some m => [onError m] | None => [] end /\
  (forall es1 d es2 st,
      handleEvents cb (es1 ++ Invalid d :: es2) st = handleEvents cb (es1 ++ es2) st).
Proof.
  split.
  - unfold streamChatCompletion, failure.
    destruct f as [[| m |] | status statusText errorMessage [b |]]; try reflexivity.
    + destruct (ok status); cbn [negb]; [| reflexivity].
      rewrite TraceFacts.readStream_errors. now destruct (ending b).
    + destruct (ok status); reflexivity.
  - intros es1 d es2 st. unfold handleEvents. rewrite !fold_left_app. reflexivity.
Qed.

(* ===================================================================== *)
(** ** The orchestration loop *)
(* ===================================================================== *)







(* ===================================================================== *)
(** ** The request URL *)
(* ===================================================================== *)

(** C10, as stated, fails in its consequence: [http://h/api/api] and
    [http://h/api] differ only by a trailing [/api] segment and are sent to
    different URLs, and the first URL carries [/api] twice, since only one
    trailing [/api] is removed. And a [baseUrl] that already ends in the
    path gets the path a second time. *)
Lemma base_url_counterexample :
  lit "http://h/api/api" = lit "http://h/api" ++ lit "/api" /\
  requestUrl (lit "http://h/api/api") = lit "http://h/api/api/chat/completions" /\
  requestUrl (lit "http://h/api") = lit "http://h/api/chat/completions" /\
  requestUrl (lit "http://h/api/chat/completions")
    = lit "http://h/api/chat/completions/api/chat/completions" /\
  requestUrl (lit "http://h/api/api") <> requestUrl (lit "http://h/api").
Proof.
  do 4 (apply conj; [vm_compute; reflexivity |]).
  intros H. vm_compute in H. discriminate H.
Qed.

(** C10, amended: for every [baseUrl] the request goes to [baseUrl] without
    its trailing slashes and then without one trailing [/api] (in any letter
    case), followed by [/api/chat/completions]. Consequently, for a [base]
    that itself ends neither in a slash nor in [/api], the values [base],
    [base] with trailing slashes, and [base] with [/api] and trailing
    slashes all go to [base/api/chat/completions]. *)
Theorem request_url_normalised (base api : str) (k : nat) :
  stripTrailingSlashes base = base ->
  endsWithApi base = false ->
  length api = 4 ->
  ci_prefix (lit "/api") api = true ->
  (forall baseUrl, requestUrl baseUrl = specUrl baseUrl) /\
  requestUrl (base ++ repeat "/"%char k) = base ++ lit "/api/chat/completions" /\
  requestUrl (base ++ api ++ repeat "/"%char k) = base ++ lit "/api/chat/completions".
Proof.
  intros Hbase Hapi Hlen Hci.
  split; [apply UrlFacts.requestUrl_specUrl |]. split.
  - rewrite UrlFacts.requestUrl_specUrl. unfold specUrl.
    rewrite UrlFacts.strip_app_slashes, Hbase.
    unfold stripApiSuffix. now rewrite Hapi.
  - rewrite UrlFacts.requestUrl_specUrl. unfold specUrl.
    rewrite app_assoc, UrlFacts.strip_app_slashes.
    rewrite UrlFacts.strip_app_fixed;
      [| now apply UrlFacts.ci_suffix_api_fixed | now destruct api].
    unfold stripApiSuffix, endsWithApi.
    rewrite length_app, Hlen.
    replace (length base + 4 - 4) with (length base) by lia.
    rewrite skipn_app, skipn_all, Nat.sub_diag. cbn [skipn app].
    rewrite Hci.
    replace (4 <=? length base + 4) with true by (symmetry; apply Nat.leb_le; lia).
    cbn [andb]. rewrite firstn_app, firstn_all, Nat.sub_diag. cbn [firstn].
    now rewrite app_nil_r.
Qed.

(** The three spellings of the claim, and an upper-case [/API//]. *)
Lemma request_url_normalised_witness :
  stripTrailingSlashes (lit "http://h") = lit "http://h" /\
  endsWithApi (lit "http://h") = false /\
  length (lit "/API") = 4 /\
  ci_prefix (lit "/api") (lit "/API") = true /\
  requestUrl (lit "http://h" ++ repeat "/"%char 2) = lit "http://h/api/chat/completions" /\
  requestUrl (lit "http://h" ++ lit "/API" ++ repeat "/"%char 2)
    = lit "http://h/api/chat/completions".
Proof.
  do 4 (split; [reflexivity |]).
  apply (request_url_normalised (lit "http://h") (lit "/API") 2); reflexivity.
Defined.

(* ##################################################################### *)
(** * Part V: further properties of the code *)
(* ##################################################################### *)

(* ===================================================================== *)
(** ** The streaming driver *)
(* ===================================================================== *)

Section DriverProperties.
Import DriverSpec.

(** X1: in every run of [streamChatCompletion], whatever the response,
    no callback receives an empty payload: the text given to [onChunk] and
    to [onReasoning] is never the empty string, and the list given to
    [onToolCalls] is never empty. *)
Theorem payloads_never_empty (cb : StreamCallbacks) (f : Fetch) :
  forallb nonEmptyPayload (streamChatCompletion cb f) = true.
Proof.
  apply DriverFacts.calls_invariant; intros; cbn; auto.
Qed.

(** X2: in every run of [streamChatCompletion], an optional callback
    ([onToolCalls], [onReasoning], [onUsage]) is invoked only if the
    caller supplied it. *)
Theorem optional_callbacks_only_if_supplied (cb : StreamCallbacks) (f : Fetch) :
  forallb (supplied cb) (streamChatCompletion cb f) = true.
Proof.
  apply DriverFacts.calls_invariant; intros; cbn; auto.
Qed.

(** X3: a reply shorter than the detection threshold that holds no marker
    is not streamed: under every chunking, nothing is handed out while the
    fragments arrive, and the end of the stream delivers the whole reply
    in one [onChunk], followed by [onComplete]. *)
Theorem short_reply_delivered_at_end (cb : StreamCallbacks) (fragments : list str) :
  length (concat fragments) < FORMAT_DETECTION_THRESHOLD ->
  openMatch (concat fragments) = None -> closeMatch (concat fragments) = None ->
  split cb fragments
  = (if nonempty (concat fragments) then [onChunk (concat fragments)] else [])
      ++ [onComplete].
Proof.
  intros Hlen Ho Hc. rewrite SessionFacts.split_unfold.
  pose proof (SessionFacts.run_fragments cb
    (fun st future =>
       st = setSplitter false false (pendingBuffer st) initial /\
       pendingBuffer st ++ future = concat fragments)) as Hrun.
  destruct (Hrun) with (fragments := fragments) (st := initial) as (Hst & Hbuf).
  - intros st x future H. now apply DriverFacts.buffering_feed.
  - split; reflexivity.
  - rewrite app_nil_r in Hbuf. rewrite Hst, Hbuf.
    unfold flushBufferAndComplete.
    cbn [formatDetected setSplitter initial negb pendingBuffer andb].
    rewrite <- StrFacts.nonempty_length.
    destruct (nonempty (concat fragments)) eqn:E; [| reflexivity].
    unfold openMatch, closeMatch in *. now rewrite Ho, Hc.
Qed.

Lemma short_reply_delivered_at_end_witness :
  split allCallbacks [lit "Hel"; lit "lo <b>"; lit "world</b>"]
  = [onChunk (lit "Hello <b>world</b>"); onComplete].
Proof.
  apply (short_reply_delivered_at_end allCallbacks [lit "Hel"; lit "lo <b>"; lit "world</b>"]).
  - vm_compute. lia.
  - reflexivity.
  - reflexivity.
Defined.

(** X4: under every chunking of every text, markers or not, the splitter
    hands out no more text than it received: the content and the reasoning
    delivered are together no longer than the text. *)
Theorem splitter_never_adds_text (cb : StreamCallbacks) (fragments : list str) :
  length (contentOf (split cb fragments)) + length (reasoningOf (split cb fragments))
  <= length (concat fragments).
Proof.
  rewrite SessionFacts.split_unfold.
  pose proof (SessionFacts.run_fragments cb
    (fun st future =>
       handedOut st + length (pendingBuffer st) + length future
       <= length (concat fragments))) as Hrun.
  specialize (Hrun) with (fragments := fragments) (st := initial).
  cbn beta in Hrun.
  assert (H : handedOut (handleEvents cb (map contentFrame fragments) initial)
              + length (pendingBuffer (handleEvents cb (map contentFrame fragments) initial))
              + length (@nil ascii) <= length (concat fragments)).
  { apply Hrun.
    - intros st x future H. rewrite length_app in H.
      pose proof (DriverFacts.feedContent_length cb x st). lia.
    - cbn. lia. }
  cbn [length] in H.
  pose proof (DriverFacts.flush_length cb (handleEvents cb (map contentFrame fragments) initial)) as Hf.
  unfold handedOut in *. lia.
Qed.

(** X5: over a whole response body, [onUsage] receives the usage of every
    frame that carries one, in order, and receives it a second time when
    the frame also carries a finish reason (the usage block and the
    finish-reason block of the frame handler both deliver it); nothing
    else reaches [onUsage]. *)
Theorem usage_delivered_per_frame (cb : StreamCallbacks) (b : Body) :
  usagesOf (calls (readStream cb b)) = flat_map (usageOf cb) (events b).
Proof.
  unfold readStream.
  destruct (DriverFacts.handleEvents_view cb (events b) initial) as (Hu & _).
  cbn [calls initial usagesOf app] in Hu.
  destruct (ending b) as [| [| m |]].
  - now rewrite DriverFacts.flush_usages.
  - now rewrite DriverFacts.flush_usages.
  - cbn. now rewrite DriverFacts.usagesOf_app, Hu, app_nil_r.
  - cbn. now rewrite DriverFacts.usagesOf_app, Hu, app_nil_r.
Qed.

(** X6: the tool-call accumulator is never cleared during a stream: with
    [onToolCalls] supplied, the frame handler ends a frame that carries a
    finish reason by calling [onToolCalls] with the finalization of all the
    deltas received since the start of the stream, those of frames before
    an earlier finish reason included. *)
Theorem finish_frame_reports_all_deltas
    (cb : StreamCallbacks) (es : list SseData) (json : Chunk) :
  hasOnToolCalls cb = true -> finishFrame json = true ->
  flat_map deltasOf (es ++ [Json json]) <> [] ->
  exists before,
    calls (handleEvents cb (es ++ [Json json]) initial)
    = before ++ [onToolCalls (finalize (accumulateAll []
                                          (flat_map deltasOf (es ++ [Json json]))))].
Proof.
  intros Hcb Hfin Hds.
  unfold handleEvents. rewrite fold_left_app. cbn [fold_left handleEvent].
  fold (handleEvents cb es initial).
  destruct (TraceFacts.handleJson_finish_calls cb json (handleEvents cb es initial) Hfin)
    as (text & _ & ->).
  destruct (DriverFacts.handleEvents_view cb es initial) as (_ & Ht).
  rewrite Hcb in Ht. cbn [accumulatedToolCalls initial] in Ht.
  assert (Hm : mergedToolCalls cb json (handleEvents cb es initial)
               = accumulateAll [] (flat_map deltasOf (es ++ [Json json]))).
  { unfold mergedToolCalls. rewrite Hcb, Ht, flat_map_app. cbn [flat_map deltasOf].
    rewrite app_nil_r. unfold accumulateAll. rewrite fold_left_app.
    now destruct (tool_calls json). }
  rewrite Hm. unfold toolCallsCall.
  rewrite (DriverFacts.accumulateAll_nonempty _ Hds), Hcb. cbn [andb].
  eexists. now rewrite !app_assoc.
Qed.

Lemma finish_frame_reports_all_deltas_witness :
  exists before,
    calls (handleEvents allCallbacks ([toolFrame] ++ [Json stopFrame]) initial)
    = before ++ [onToolCalls (finalize (accumulateAll []
                   (flat_map deltasOf ([toolFrame] ++ [Json stopFrame]))))].
Proof.
  apply (finish_frame_reports_all_deltas allCallbacks [toolFrame] stopFrame).
  - reflexivity.
  - reflexivity.
  - discriminate.
Defined.

(** X7: the content handed to [onChunk] depends on nothing but the
    content fields of the frames, the [DONE] events and the way the
    stream ends: tool-call deltas, usage, reasoning fields, finish
    reasons and frames that do not parse leave it as it is, and so does
    the choice of optional callbacks. *)
Theorem content_depends_on_content_only (cb cb' : StreamCallbacks) (b : Body) :
  contentOf (calls (readStream cb b))
  = contentOf (calls (readStream cb' {| events := map contentPart (events b);
                                        ending := ending b |})).
Proof.
  unfold readStream. cbn [events ending].
  assert (H0 : SameContent initial initial) by (repeat split).
  pose proof (DriverFacts.SameContent_handleEvents cb cb' (events b) _ _ H0) as H.
  destruct (ending b) as [| [| m |]].
  - apply (DriverFacts.SameContent_flush cb cb') in H. now destruct H as (_ & _ & _ & Hc).
  - apply (DriverFacts.SameContent_flush cb cb') in H. now destruct H as (_ & _ & _ & Hc).
  - destruct H as (_ & _ & _ & Hc). cbn [outerCatch calls call].
    rewrite !SessionFacts.contentOf_app. now rewrite Hc.
  - destruct H as (_ & _ & _ & Hc). cbn [outerCatch calls call].
    rewrite !SessionFacts.contentOf_app. now rewrite Hc.
Qed.

(** X8: what the splitter holds back, at every point of a stream.
    Before the format is known the buffer is shorter than the detection
    threshold of 3000. Once it is known the buffer is at most 15 code
    units long, with one exception, for which there is no limit: outside a
    think block, while a [<] is among the last 15 code units, the whole
    buffer is kept. *)
Theorem held_back_text_rule (cb : StreamCallbacks) (es : list SseData) :
  HoldsBack (handleEvents cb es initial).
Proof.
  apply DriverFacts.HoldsBack_handleEvents.
  unfold HoldsBack, FORMAT_DETECTION_THRESHOLD. cbn. lia.
Qed.

(** X29: the splitter can hold back a text of any length. When a reply
    without think markers arrives in fragments of at most 15 code units
    that each contain a [<], nothing is handed out while it arrives: after
    the last fragment the whole text is still in the buffer and no callback
    has been invoked, however long the text is. *)
Theorem text_near_markers_is_held_back (cb : StreamCallbacks) (fragments : list str) :
  forallb nearMarker fragments = true ->
  openMatch (concat fragments) = None ->
  closeMatch (concat fragments) = None ->
  pendingBuffer (handleEvents cb (map contentFrame fragments) initial) = concat fragments /\
  calls (handleEvents cb (map contentFrame fragments) initial) = [].
Proof.
  intros Hall Ho Hc.
  apply (DriverFacts.handleEvents_hold cb fragments initial); auto.
Qed.

(** 300 fragments of HTML, 3600 code units: beyond the detection
    threshold, and all of it held back. *)
Lemma text_near_markers_is_held_back_witness :
  length (pendingBuffer
            (handleEvents allCallbacks
               (map contentFrame (repeat (lit "<b>bold</b> ") 300)) initial)) = 3600 /\
  calls (handleEvents allCallbacks
           (map contentFrame (repeat (lit "<b>bold</b> ") 300)) initial) = [].
Proof.
  destruct (text_near_markers_is_held_back allCallbacks (repeat (lit "<b>bold</b> ") 300))
    as (Hb & Hc).
  - vm_compute. reflexivity.
  - vm_compute. reflexivity.
  - vm_compute. reflexivity.
  - split; [rewrite Hb; vm_compute; reflexivity | exact Hc].
Defined.

(** X9: every run of [streamChatCompletion] ends by telling the caller:
    whatever the response, the last callback invoked is [onComplete] or
    [onError], so a promise that is settled by these two never stays
    pending once the run is over. *)
Theorem last_call_settles (cb : StreamCallbacks) (f : Fetch) :
  exists before c,
    streamChatCompletion cb f = before ++ [c] /\ settles c = true.
Proof.
  unfold streamChatCompletion.
  assert (Hcatch : forall e st, exists before c,
             calls (outerCatch e st) = before ++ [c] /\ settles c = true).
  { intros e st. destruct (DriverFacts.outerCatch_last e st) as (c & H & Hc). eauto. }
  assert (Hflush : forall st, exists before c,
             calls (flushBufferAndComplete cb st) = before ++ [c] /\ settles c = true).
  { intros st. destruct (DriverFacts.flush_last cb st) as (before & H).
    exists before, onComplete. auto. }
  destruct f as [e | status statusText errorMessage body]; [apply Hcatch |].
  destruct (negb (ok status)); [apply Hcatch |].
  destruct body as [b |]; [| apply Hcatch].
  unfold readStream. destruct (ending b) as [| [| m |]]; auto.
Qed.

End DriverProperties.

(* ===================================================================== *)
(** ** The chat slice and its thunks *)
(* ===================================================================== *)

Section ChatSliceProperties.
Import ChatSlice ChatSpec.

(** X10: [deleteMessagesAfter] keeps the messages before the first message
    with the given identifier and removes that message and everything
    after it; no message with that identifier is left, and with an
    identifier that is not in the history nothing is removed. *)
Theorem deleteMessagesAfter_cuts_at_first (id : nat) (st : Slice.ChatState) :
  exists removed,
    Slice.messages st = Slice.messages (deleteMessagesAfter id st) ++ removed /\
    existsb (hasId id) (Slice.messages (deleteMessagesAfter id st)) = false /\
    match removed with
    | [] => deleteMessagesAfter id st = st
    | m :: _ => Msg.id m = id
    end.
Proof.
  unfold deleteMessagesAfter.
  pose proof (ChatFacts.findIndex_spec id (Slice.messages st)) as H.
  destruct (findIndex id (Slice.messages st)) as [i |].
  - destruct H as (m & after & Hms & Hid & Hno).
    exists (m :: after). cbn [Slice.messages]. auto.
  - exists []. rewrite app_nil_r. auto.
Qed.

(** X11: [updateMessageToolResults] changes one thing only: the
    [toolResults] of the first message with the given identifier. With an
    identifier that is not in the history the messages stay as they
    are. *)
Theorem updateMessageToolResults_first_only
    (id : nat) (results : list Msg.ToolResult) (st : Slice.ChatState) :
  (existsb (hasId id) (Slice.messages st) = false /\
   Slice.updateMessageToolResults id results st = st) \/
  exists before m after,
    Slice.messages st = before ++ m :: after /\
    Msg.id m = id /\ existsb (hasId id) before = false /\
    Slice.messages (Slice.updateMessageToolResults id results st)
    = before ++ withToolResults results m :: after.
Proof.
  destruct (ChatFacts.setToolResults_spec id results (Slice.messages st))
    as [(Hno & Hsame) | (before & m & after & H)].
  - left. split; [exact Hno |].
    unfold Slice.updateMessageToolResults. rewrite Hsame. now destruct st.
  - right. exists before, m, after. exact H.
Qed.

(** X12: once [abortStreaming] has run, the reply in progress is lost to
    the history: whatever the callbacks of [sendStreamingMessage] still
    receive (the flush of the driver's buffer, [onComplete], an
    [onError]), no message is added. *)
Theorem aborted_reply_is_discarded (cs : list Call) (st : Slice.ChatState) :
  Slice.messages (fold_left (fun st c => callback c st) cs (abortStreaming st))
  = Slice.messages st.
Proof. now rewrite ChatFacts.callbacks_after_completion. Qed.

(** X13: a turn of [sendStreamingMessage] adds the user message, unless
    its content is blank, and at most one assistant message, however
    often the streaming call invokes [onComplete] or [onError]: the
    assistant message holds the text handed to [onChunk] before the first
    of them, and is left out when that text is empty or no such call is
    made. *)
Theorem streaming_turn_stores_one_reply
    (env : ChatSlice.Env) (content : str) (attachments : option (list str))
    (state : Slice.ChatState) :
  Slice.messages (fst (sendStreamingMessage env content attachments state))
  = Slice.messages state
      ++ (if Slice.blank content then []
          else [userMessage (uuidv4 env 0) content attachments])
      ++ storedReply (uuidv4 env 1) []
           (streamChatCompletion env (context (Slice.messages state) content)).
Proof.
  unfold sendStreamingMessage. cbn [fst].
  rewrite (ChatFacts.callbacks_while_streaming _ _ (uuidv4 env 1)).
  - unfold Slice.startStreaming.
    destruct (Slice.blank content); cbn; now rewrite <- ?app_assoc.
  - unfold Slice.startStreaming. now destruct (Slice.blank content).
Qed.

(** X14: streaming driver and thunk together. When the streaming call of
    a turn is the driver reading a reply that holds no marker and is not
    empty, cut into fragments in any way, the turn resolves and the
    history ends with one assistant message that holds the whole
    reply. *)
Theorem plain_reply_is_stored_whole
    (env : ChatSlice.Env) (content : str) (attachments : option (list str))
    (state : Slice.ChatState) (cb : StreamCallbacks) (fragments : list str) :
  ChatSlice.streamChatCompletion env (context (Slice.messages state) content)
    = split cb fragments ->
  openMatch (concat fragments) = None -> closeMatch (concat fragments) = None ->
  concat fragments <> [] ->
  Slice.messages (fst (sendStreamingMessage env content attachments state))
  = Slice.messages state
      ++ (if Slice.blank content then []
          else [userMessage (ChatSlice.uuidv4 env 0) content attachments])
      ++ [assistantReply (ChatSlice.uuidv4 env 1) (concat fragments)] /\
  snd (sendStreamingMessage env content attachments state) = Resolved.
Proof.
  intros Hcalls Ho Hc Hne.
  pose proof (SessionFacts.split_of_Split cb (concat fragments) (concat fragments) []
                fragments (Split_content_end _ Ho Hc) eq_refl) as (Hcontent & _).
  destruct (ChatFacts.split_shape cb fragments) as (l & Hl & Hnc & Hne').
  destruct (ChatFacts.streamed_all l Hnc Hne') as (Hstreamed & Hsettled).
  rewrite Hl, ChatFacts.contentOf_text_complete in Hcontent.
  split.
  - unfold sendStreamingMessage. cbn [fst].
    rewrite (ChatFacts.callbacks_while_streaming _ _ (ChatSlice.uuidv4 env 1)).
    + rewrite Hcalls, Hl. unfold storedReply. rewrite Hsettled, Hstreamed, Hcontent.
      unfold Slice.startStreaming.
      destruct (concat fragments) eqn:E; [contradiction |].
      destruct (Slice.blank content); cbn; now rewrite <- ?app_assoc.
    + unfold Slice.startStreaming. now destruct (Slice.blank content).
  - unfold sendStreamingMessage. cbn [snd]. now rewrite Hcalls, Hl.
Qed.

Lemma plain_reply_is_stored_whole_witness :
  Slice.messages
    (fst (sendStreamingMessage
            {| ChatSlice.uuidv4 := fun k => k;
               ChatSlice.chatCompletion := fun _ => Replied None;
               ChatSlice.streamChatCompletion :=
                 fun _ => split allCallbacks [lit "Hel"; lit "lo"] |}
            (lit "Hi") None Slice.initialState))
  = [userMessage 0 (lit "Hi") None; assistantReply 1 (lit "Hello")] /\
  snd (sendStreamingMessage
         {| ChatSlice.uuidv4 := fun k => k;
            ChatSlice.chatCompletion := fun _ => Replied None;
            ChatSlice.streamChatCompletion :=
              fun _ => split allCallbacks [lit "Hel"; lit "lo"] |}
         (lit "Hi") None Slice.initialState) = Resolved.
Proof.
  apply (plain_reply_is_stored_whole
           {| ChatSlice.uuidv4 := fun k => k;
              ChatSlice.chatCompletion := fun _ => Replied None;
              ChatSlice.streamChatCompletion :=
                fun _ => split allCallbacks [lit "Hel"; lit "lo"] |}
           (lit "Hi") None Slice.initialState allCallbacks [lit "Hel"; lit "lo"]).
  - reflexivity.
  - reflexivity.
  - reflexivity.
  - discriminate.
Defined.

(** X15: a turn of the non-streaming [sendMessage] changes the history
    all at once or not at all. When the provider replies, the user
    message (blank or not) and the assistant message (with empty content
    when the reply has none) are appended and no error is shown; when the
    provider fails, the history is as before and the error shown is the
    message of the failure, or [Failed to send message] when what was
    thrown is not an error. Either way [isLoading] ends [false]. *)
Theorem sendMessage_all_or_nothing
    (env : ChatSlice.Env) (content : str) (attachments : option (list str))
    (st : ChatSlice.ChatState) :
  ChatSlice.isLoading (dispatchSendMessage env content attachments st) = false /\
  match chatCompletion env (context (Slice.messages (ChatSlice.chat st)) content) with
  | Replied reply =>
      Slice.messages (ChatSlice.chat (dispatchSendMessage env content attachments st))
      = Slice.messages (ChatSlice.chat st)
          ++ [userMessage (ChatSlice.uuidv4 env 0) content attachments;
              assistantReply (ChatSlice.uuidv4 env 1) (orElse reply [])] /\
      Slice.error (ChatSlice.chat (dispatchSendMessage env content attachments st)) = None
  | Throws e =>
      Slice.messages (ChatSlice.chat (dispatchSendMessage env content attachments st))
      = Slice.messages (ChatSlice.chat st) /\
      Slice.error (ChatSlice.chat (dispatchSendMessage env content attachments st))
      = Some (match e with
              | ErrorObject message => message
              | OtherValue => lit "Failed to send message"
              end)
  end.
Proof.
  unfold dispatchSendMessage, sendMessage.
  cbn [ChatSlice.chat sendMessage_pending Slice.messages Slice.setError].
  destruct (chatCompletion env _) as [reply | [message |]]; cbn;
    rewrite <- ?app_assoc; auto.
Qed.

(** X16: a UI action leaves the shape of the history alone. In a history
    whose messages have distinct identifiers, whatever the tool does,
    [executeUIAction] changes no message but in the payload of its tool
    results: the messages, their order, their tool calls and the
    identifiers of their tool results are as before; and when the action
    is fulfilled, [isExecutingTools] is [false] again. *)
Theorem ui_action_keeps_history_shape
    (env : UIEnv) (toolName : str) (data : option str) (originalToolCallId : str)
    (state : Slice.ChatState) :
  NoDup (map Msg.id (Slice.messages state)) ->
  map skeleton
    (Slice.messages (fst (executeUIAction env toolName data originalToolCallId state)))
  = map skeleton (Slice.messages state) /\
  (forall result,
      snd (executeUIAction env toolName data originalToolCallId state) = UIFulfilled result ->
      Slice.isExecutingTools
        (fst (executeUIAction env toolName data originalToolCallId state)) = false).
Proof.
  intros Hnd. unfold executeUIAction.
  destruct (findServerForTool env toolName); [| split; [reflexivity | discriminate]].
  destruct (executeToolCall env _) as [result | message];
    [| split; [reflexivity | discriminate]].
  cbn [fst snd]. split; [| reflexivity].
  cbn [Slice.messages Slice.setExecutingTools].
  destruct (List.find (hasResultFor originalToolCallId) (Slice.messages state))
    as [message |] eqn:Hfind; [| reflexivity].
  destruct (Msg.toolResults message) as [toolResults |] eqn:Hres; [| reflexivity].
  cbn [Slice.messages Slice.updateMessageToolResults Slice.setExecutingTools].
  match goal with
  | |- context [Slice.setToolResults ?i ?r ?ms] =>
      destruct (ChatFacts.setToolResults_spec i r ms)
        as [(_ & ->) | (before & m & after & Hms & Hid & _ & ->)]; [reflexivity |]
  end.
  assert (Hm : message = m).
  { apply ChatFacts.find_hasResultFor in Hfind. rewrite Hms in Hnd, Hfind.
    now apply (ChatFacts.NoDup_first (Msg.id message) before after m message). }
  subst m. rewrite Hms, !map_app. cbn [map]. do 2 f_equal.
  unfold skeleton, withToolResults. cbn. rewrite Hres. cbn.
  now rewrite ChatFacts.replaced_ids.
Qed.

Lemma ui_action_keeps_history_shape_witness :
  map skeleton
    (Slice.messages
       (fst (executeUIAction
               {| findServerForTool := fun _ => Some (lit "server");
                  executeToolCall := fun _ => ToolReturned (searchResult true);
                  uuid := lit "call_2" |}
               (lit "search") None (lit "call_1")
               (Slice.addToolCallMessage
                  (withToolResults [searchResult false] (assistantReply 7 (lit "Here.")))
                  Slice.initialState))))
  = [skeleton (withToolResults [searchResult false] (assistantReply 7 (lit "Here.")))].
Proof.
  apply (ui_action_keeps_history_shape
           {| findServerForTool := fun _ => Some (lit "server");
              executeToolCall := fun _ => ToolReturned (searchResult true);
              uuid := lit "call_2" |}
           (lit "search") None (lit "call_1")
           (Slice.addToolCallMessage
              (withToolResults [searchResult false] (assistantReply 7 (lit "Here.")))
              Slice.initialState)).
  cbn. repeat constructor. intros [].
Defined.

End ChatSliceProperties.

(* ===================================================================== *)
(** ** Every run of the orchestration loop *)
(* ===================================================================== *)

Section TurnProperties.
Import TurnSpec.

(** X17: whatever the provider and the tools do, a turn of
    [sendStreamingMessageWithTools] sends at most five requests, and the
    request of round [k] carries the [tool_choice] of its round: [none]
    without tools or in the fifth round, [auto] otherwise. *)
Theorem never_more_than_five_requests
    (env : Thunk.Env) (content : str) (attachments : option (list str))
    (state : Slice.ChatState) :
  length (requests (local (sendStreamingMessageWithTools env content attachments state)))
    <= MAX_TOOL_ITERATIONS /\
  forall k req,
    nth_error (requests (local (sendStreamingMessageWithTools env content attachments state))) k
      = Some req ->
    Api.tool_choice req = expectedChoice env k.
Proof.
  unfold sendStreamingMessageWithTools.
  match goal with
  | |- context [toolLoop ?f env true ?l ?st] =>
      pose proof (TurnFacts.toolLoop_inv env (firstContext state content) f true l st) as H
  end.
  cbn zeta in H. destruct H as ((Hchoice & _) & Hlen & _).
  - cbn [iteration]. unfold MAX_TOOL_ITERATIONS. lia.
  - split; [apply TurnFacts.AtHead_start | apply TurnFacts.streamingContent_start].
  - split; [exact Hlen | exact Hchoice].
Qed.

(** X18: whatever the provider and the tools do, the context of a turn
    grows by exactly what the rounds produced. The first request carries
    the history, as it was before the turn, and the new user message. A
    request of round [k] is followed by another only if its streaming call
    resolved with tool calls and the tools returned; the next request then
    carries the messages of this one, followed by one assistant message
    with the text the call streamed and the tool calls it delivered, and
    by one tool message for each result the tools returned for these
    calls, in their order, with the result's text, call id and name. *)
Theorem each_request_extends_the_previous
    (env : Thunk.Env) (content : str) (attachments : option (list str))
    (state : Slice.ChatState) :
  (forall req,
      nth_error (requests (local (sendStreamingMessageWithTools env content attachments state))) 0
        = Some req ->
      Api.messages req = firstContext state content) /\
  (forall k req next,
      nth_error (requests (local (sendStreamingMessageWithTools env content attachments state))) k
        = Some req ->
      nth_error (requests (local (sendStreamingMessageWithTools env content attachments state)))
                (S k) = Some next ->
      settled (provider env k req) = Resolved /\
      delivered (provider env k req) [] <> [] /\
      exists results,
        executeToolCalls env (delivered (provider env k req) []) = Returned results /\
        Api.messages next
        = Api.messages req
            ++ {| Api.role := Msg.assistant;
                  Api.content := contentOf (provider env k req);
                  Api.tool_calls := Some (delivered (provider env k req) []);
                  Api.tool_call_id := None; Api.name := None |}
               :: map (fun r =>
                         {| Api.role := Msg.tool; Api.content := contentString r;
                            Api.tool_calls := None;
                            Api.tool_call_id := Some (Msg.result_tool_call_id r);
                            Api.name := Some (Msg.result_name r) |})
                      results).
Proof.
  unfold sendStreamingMessageWithTools.
  match goal with
  | |- context [toolLoop ?f env true ?l ?st] =>
      pose proof (TurnFacts.toolLoop_inv env (firstContext state content) f true l st) as H
  end.
  cbn zeta in H. destruct H as ((_ & Hfirst & Hch) & _ & _).
  - cbn [iteration]. unfold MAX_TOOL_ITERATIONS. lia.
  - split; [apply TurnFacts.AtHead_start | apply TurnFacts.streamingContent_start].
  - split; [exact Hfirst |]. intros k req next Hk Hnext.
    exact (Hch k req next Hk Hnext).
Qed.

(** X19: whenever a turn of [sendStreamingMessageWithTools] settles,
    fulfilled, rejected or stopped by the iteration cap, it leaves the
    slice at rest: not streaming, no streaming message or content, no
    abort controller, no pending tool calls, no tools running, and the
    iteration counter at zero. *)
Theorem settled_turn_leaves_slice_idle
    (env : Thunk.Env) (content : str) (attachments : option (list str))
    (state : Slice.ChatState) :
  outcome (sendStreamingMessageWithTools env content attachments state) <> Pending ->
  idle (chat (sendStreamingMessageWithTools env content attachments state)).
Proof.
  unfold sendStreamingMessageWithTools.
  match goal with
  | |- context [toolLoop ?f env true ?l ?st] =>
      pose proof (TurnFacts.toolLoop_inv env (firstContext state content) f true l st) as H
  end.
  cbn zeta in H. destruct H as (_ & _ & Hidle).
  - cbn [iteration]. unfold MAX_TOOL_ITERATIONS. lia.
  - split; [apply TurnFacts.AtHead_start | apply TurnFacts.streamingContent_start].
  - exact Hidle.
Qed.

Lemma settled_turn_leaves_slice_idle_witness :
  idle (chat (sendStreamingMessageWithTools alwaysCalling (lit "Find it.") None
                Slice.initialState)).
Proof.
  apply (settled_turn_leaves_slice_idle alwaysCalling (lit "Find it.") None
           Slice.initialState).
  vm_compute. discriminate.
Defined.

End TurnProperties.

(* ===================================================================== *)
(** ** The plugin registry *)
(* ===================================================================== *)

Section RegistryProperties.
Import RegistrySpec.

(** X20: after any sequence of registry operations, [extensionOrder]
    lists the keys of the plugin map, each once, so that
    [getExtensionPlugins] returns every registered extension plugin
    exactly once, in the order of the map: its lookup never misses and
    its filter never drops an entry. *)
Theorem extension_order_tracks_the_map {U C X N : Type} (ops : list (Registry.Op U C X N)) :
  Registry.extensionOrder (Registry.after ops)
    = StrMap.keys (Registry.extensionPlugins (Registry.after ops)) /\
  NoDup (Registry.extensionOrder (Registry.after ops)) /\
  Registry.getExtensionPlugins (Registry.after ops)
    = StrMap.values (Registry.extensionPlugins (Registry.after ops)).
Proof.
  pose proof (RegistryFacts.WellFormed_after U C X N ops) as H.
  pose proof (RegistryFacts.getExtensionPlugins_values U C X N _ H) as Hv.
  destruct H as (Ho & Hnd). rewrite Ho. auto.
Qed.

(** X21: registering an extension under an identifier that is not
    registered and unregistering it again restores the registry exactly,
    order included, whatever operations came before. *)
Theorem unregister_undoes_register {U C X N : Type}
    (ops : list (Registry.Op U C X N)) (id : str)
    (plugin : PluginTypes.MarkdownExtensionPlugin U C X N) (priority : nat) :
  StrMap.get (Registry.extensionPlugins (Registry.after ops)) id = None ->
  Registry.unregisterExtension id
    (Registry.registerExtension id plugin priority (Registry.after ops))
  = Registry.after ops.
Proof.
  intros Hfresh.
  destruct (RegistryFacts.WellFormed_after U C X N ops) as (Ho & _).
  unfold Registry.unregisterExtension, Registry.registerExtension,
         Registry.rebuildExtensionOrder.
  cbn [Registry.extensionPlugins Registry.replacementPlugin].
  rewrite StrMapFacts.delete_set_fresh by exact Hfresh.
  rewrite <- Ho. now destruct (Registry.after ops).
Qed.

Lemma unregister_undoes_register_witness :
  Registry.unregisterExtension (lit "math")
    (Registry.registerExtension (lit "math") (remarkOnly 1) 100
       (Registry.after [Registry.RegisterExtension (lit "emoji") (remarkOnly 2) 50]))
  = Registry.after [Registry.RegisterExtension (lit "emoji") (remarkOnly 2) 50].
Proof.
  apply (unregister_undoes_register
           [Registry.RegisterExtension (lit "emoji") (remarkOnly 2) 50]
           (lit "math") (remarkOnly 1) 100).
  reflexivity.
Defined.

(** X22: in the components [getComponents] merges, later plugins
    override earlier ones: a key has the component of the last plugin, in
    the order of [getExtensionPlugins], whose [components] define it, and
    has none when no plugin defines it. *)
Theorem later_components_override {U C X N : Type}
    (r : Registry.PluginRendererRegistry U C X N) (k : str) :
  Registry.getComponents r k = lastDefining k (Registry.getExtensionPlugins r).
Proof.
  unfold Registry.getComponents.
  rewrite RegistryFacts.forEachExtension_plugins, RegistryFacts.assign_fold.
  now destruct (lastDefining k _).
Qed.

(** X23: a pre-processor that fails does not disturb the others: when a
    registered plugin has no pre-processor, or one that throws on every
    content, [preProcess] gives what it would give with that plugin
    unregistered. *)
Theorem failing_preprocessor_is_skipped {U C X N : Type}
    (ops : list (Registry.Op U C X N)) (id : str)
    (plugin : PluginTypes.MarkdownExtensionPlugin U C X N)
    (content : str) (context : X) :
  StrMap.get (Registry.extensionPlugins (Registry.after ops)) id = Some plugin ->
  neverPreProcesses context plugin ->
  Registry.preProcess (Registry.after ops) content context
  = Registry.preProcess (Registry.unregisterExtension id (Registry.after ops))
      content context.
Proof.
  intros Hget Hnever.
  pose proof (RegistryFacts.WellFormed_after U C X N ops) as HW.
  pose proof (RegistryFacts.WellFormed_after U C X N
                (ops ++ [Registry.UnregisterExtension id])) as HW'.
  unfold Registry.after in HW'. rewrite fold_left_app in HW'. cbn [fold_left] in HW'.
  fold (Registry.after ops) in HW'. cbn [Registry.perform] in HW'.
  unfold Registry.preProcess. rewrite !RegistryFacts.forEachExtension_plugins.
  rewrite (RegistryFacts.getExtensionPlugins_values U C X N _ HW).
  rewrite (RegistryFacts.getExtensionPlugins_values U C X N _ HW').
  destruct HW as (_ & Hnd).
  destruct (StrMapFacts.values_delete _ _ id plugin Hnd Hget)
    as (before & after & -> & Hdel).
  cbn [Registry.unregisterExtension Registry.rebuildExtensionOrder
       Registry.extensionPlugins].
  rewrite Hdel. now apply RegistryFacts.preProcess_skip.
Qed.

Lemma failing_preprocessor_is_skipped_witness :
  Registry.preProcess
    (Registry.after [Registry.RegisterExtension (lit "broken") broken 100;
                     Registry.RegisterExtension (lit "shout") shout 100])
    (lit "hi") tt
  = lit "hi!".
Proof.
  apply (failing_preprocessor_is_skipped
           [Registry.RegisterExtension (lit "broken") broken 100;
            Registry.RegisterExtension (lit "shout") shout 100]
           (lit "broken") broken (lit "hi") tt).
  - reflexivity.
  - intros content. reflexivity.
Defined.

End RegistryProperties.

(* ===================================================================== *)
(** ** The logger *)
(* ===================================================================== *)

Section LoggerProperties.
Import Logger LoggerSpec.

(** X24: whatever the random numbers, [generateTraceId] gives a
    well-formed version-4 UUID: 36 characters that follow the template
    [xxxxxxxx-xxxx-4xxx-yxxx-xxxxxxxxxxxx] position by position, with a
    lower-case hexadecimal digit for every [x], one of [8], [9], [a], [b]
    for the [y], and the hyphens and the [4] in place; it draws 31 random
    numbers. *)
Theorem generateTraceId_is_uuid_v4 (env : Logger.Env) (k : nat) :
  (forall i, draw env i < 16) ->
  fitsAll template (fst (generateTraceId env k)) = true /\
  length (fst (generateTraceId env k)) = 36 /\
  snd (generateTraceId env k) = k + 31.
Proof.
  intros Hdraw. pose proof (LoggerFacts.replaceXY_fits env template Hdraw k) as Hfit.
  split; [exact Hfit |]. split.
  - unfold generateTraceId.
    assert (H : forall t id, fitsAll t id = true -> length id = length t).
    { induction t as [| c t IH]; intros [| d id]; cbn; try discriminate; auto.
      intros H. apply andb_prop in H. destruct H as (_ & H). now rewrite (IH id). }
    now rewrite (H _ _ Hfit).
  - unfold generateTraceId. now rewrite LoggerFacts.replaceXY_drawn.
Qed.

Lemma generateTraceId_is_uuid_v4_witness :
  fitsAll template
    (fst (generateTraceId {| draw := fun i => i mod 16; canWrite := true |} 0)) = true /\
  length (fst (generateTraceId {| draw := fun i => i mod 16; canWrite := true |} 0)) = 36 /\
  snd (generateTraceId {| draw := fun i => i mod 16; canWrite := true |} 0) = 0 + 31.
Proof.
  apply (generateTraceId_is_uuid_v4 {| draw := fun i => i mod 16; canWrite := true |} 0).
  intros i. cbn [draw]. apply Nat.mod_upper_bound. lia.
Defined.

(** X25: an error is never filtered out: whatever the configured level,
    [Logger.error] writes its entry to the console unless console logging
    is switched off, and to the main process when file logging is on and
    the bridge is there. *)
Theorem error_is_never_filtered (env : Logger.Env) (module message : str)
    (traceId : option str) (st : Logger.State) :
  exists entry,
    Logger.level entry = ERROR /\ Logger.message entry = message /\
    outputs (Logger.error env module message traceId st)
    = outputs st
        ++ (match enableConsoleLogging (config st) with
            | Some false => []
            | _ => [Console entry]
            end)
        ++ (if enableFileLogging (config st) && canWrite env then [File entry] else []).
Proof.
  unfold Logger.error, log.
  replace (LOG_LEVEL_PRIORITY ERROR <? LOG_LEVEL_PRIORITY (logLevel (config st)))
    with false by (now destruct (logLevel (config st))).
  destruct (if truthy traceId then _ else _) as (id, k').
  eexists. cbn [outputs]. split; [| split; [| reflexivity]]; reflexivity.
Qed.

(** X26: every entry written through a tracer, by [Logger.trace] itself
    and by any sequence of calls of [checkpoint], [complete] and [error],
    carries the trace identifier of the tracer: [log] never replaces it
    by a fresh one. *)
Theorem tracer_entries_share_the_trace_id
    (env : Logger.Env) (module operation : str) (cs : list TracerCall) (st : Logger.State) :
  exists new,
    outputs (fold_left (tracerCall env (fst (trace env module operation st)))
                       cs (snd (trace env module operation st)))
    = outputs st ++ new /\
    Forall (fun o => Logger.traceId (entryOf o)
                     = tracer_traceId (fst (trace env module operation st))) new.
Proof.
  unfold trace.
  pose proof (LoggerFacts.generateTraceId_nonempty env (drawn st)) as Hne.
  destruct (generateTraceId env (drawn st)) as (id, k). cbn [fst] in Hne.
  cbn [fst snd]. unfold info at 1.
  match goal with
  | |- context [log env ?l ?m ?msg (Some id) ?s] =>
      destruct (LoggerFacts.log_with_traceId env l m msg id s Hne) as (new0 & H0 & HF0 & _);
      generalize dependent (log env l m msg (Some id) s)
  end.
  cbn [outputs]. intros st1 H0.
  set (t := {| tracer_traceId := id; tracer_module := module;
               tracer_operation := operation |}).
  assert (Ht : nonempty (tracer_traceId t) = true) by exact Hne.
  change id with (tracer_traceId t) in HF0.
  clearbody t.
  revert st1 new0 H0 HF0.
  induction cs as [| c cs IH]; intros st1 new0 H0 HF0.
  - exists new0. now split.
  - cbn [fold_left].
    destruct (LoggerFacts.tracerCall_outputs env t st1 c Ht) as (new1 & H1 & HF1).
    apply (IH _ (new0 ++ new1)).
    + now rewrite H1, H0, app_assoc.
    + apply Forall_app. split; [exact HF0 | exact HF1].
Qed.

End LoggerProperties.

(* ===================================================================== *)
(** ** The earlier driver *)
(* ===================================================================== *)

Section LegacyProperties.
Import LegacySpec.

(** X27: the earlier driver does not look into the content: over a whole
    response body, whatever else the frames carry and however the stream
    ends, the text it hands to [onChunk] is the content of the frames,
    one after the other, markers included. *)
Theorem legacy_driver_passes_content_through
    (cb : StreamCallbacks) (parses : str -> bool) (b : Driver.Body) :
  contentOf (Legacy.calls (Legacy.readStream cb parses b))
  = flat_map contentField (Driver.events b).
Proof.
  unfold Legacy.readStream.
  pose proof (LegacyFacts.handleEvents_content cb parses (Driver.events b) Legacy.initial) as H.
  cbn [Legacy.calls Legacy.initial contentOf app] in H.
  destruct (Driver.ending b) as [| [| m |]]; cbn [Legacy.outerCatch];
    rewrite LegacyFacts.contentOf_call, H; cbn [contentOf]; apply app_nil_r.
Qed.

(** X28: the earlier driver sends its request to the URL of the present
    one, but for a base URL that ends in [/api] (behind its trailing
    slashes): there it keeps the suffix the present driver removes, so
    that the path holds [/api] twice. *)
Theorem legacy_url_keeps_api_suffix (baseUrl : str) :
  Legacy.requestUrl baseUrl
  = Driver.normalizedBaseUrl baseUrl ++ apiSuffix baseUrl ++ lit "/api/chat/completions".
Proof.
  unfold Legacy.requestUrl, Legacy.normalizedBaseUrl, Driver.normalizedBaseUrl, apiSuffix.
  rewrite UrlFacts.removeFirst_api, !UrlFacts.removeFirst_slashes.
  destruct (UrlSpec.endsWithApi (UrlSpec.stripTrailingSlashes baseUrl)) eqn:E.
  - rewrite app_assoc. now rewrite <- LegacyFacts.suffix_split.
  - unfold UrlSpec.stripApiSuffix. now rewrite E.
Qed.

End LegacyProperties.
